(** * PterodactylNodeBackup: backup pipeline, storage backends and retention

    A shallow embedding of the server side of the repository
    (server/backup.ts, server/storage.ts, server/pterodactyl.ts,
    server/scheduler.ts and the repositories of server/db.ts), and the
    properties of the specification stated over it.

    Conventions of the embedding.
    - An asynchronous function is a computation in the monad [M]: it reads
      and writes a [World] (the SQLite tables, the node session, the trace
      of observable steps) and either returns a value or throws.  A thrown
      JavaScript error is represented by its message.
    - Everything outside the repository (SFTP, file system, HTTP, S3, the
      clock) answers through an [Env]: one field per library call, giving
      the outcome of that call.
    - The record store is total: a statement on the SQLite tables always
      succeeds. *)

From Stdlib Require Import ZArith String Ascii List Bool Lia.
From Stdlib Require Import Permutation Sorted.
From stdpp Require Import base gmap strings list pretty.

Local Open Scope Z_scope.

(** ** JavaScript values used by the code *)

Module Js.

(** [!!s] for a value read from the settings table or an optional field:
    [undefined] and the empty string are falsy. *)
Definition truthy (o : option string) : bool :=
  match o with
  | Some s => negb (String.eqb s "")
  | None => false
  end.

(** [a || b] on strings. *)
Definition or_else (o : option string) (d : string) : string :=
  if truthy o then default d o else d.

(** [s.slice(0, n)]. *)
Definition slice0 (n : nat) (s : string) : string := String.substring 0 n s.

(** [s.startsWith(p)]. *)
Definition startsWith (p s : string) : bool := String.prefix p s.

(** [s.replace(/[:.]/g, '-')]. *)
Fixpoint dashify (s : string) : string :=
  match s with
  | EmptyString => EmptyString
  | String c r =>
      String (if Ascii.eqb c ":" || Ascii.eqb c "." then "-"%char else c)
             (dashify r)
  end.

Definition isHex (c : ascii) : bool :=
  let n := N_of_ascii c in
  ((48 <=? n) && (n <=? 57) || (97 <=? n) && (n <=? 102)
   || (65 <=? n) && (n <=? 70))%N.

(** Consume exactly [n] characters of the class [[0-9a-f]] (flag [i]). *)
Fixpoint hexRun (n : nat) (s : string) : option string :=
  match n with
  | O => Some s
  | S n' =>
      match s with
      | String c r => if isHex c then hexRun n' r else None
      | EmptyString => None
      end
  end.

Definition dash (s : string) : option string :=
  match s with
  | String c r => if Ascii.eqb c "-" then Some r else None
  | EmptyString => None
  end.

Definition andThen (o : option string) (f : string -> option string)
  : option string :=
  match o with Some s => f s | None => None end.

(** [/^[0-9a-f]{8}-[0-9a-f]{4}-[0-9a-f]{4}-[0-9a-f]{4}-[0-9a-f]{12}$/i]
    tested on [s]. *)
Definition isUuid (s : string) : bool :=
  let g1 := andThen (hexRun 8 s) dash in
  let g2 := andThen (andThen g1 (hexRun 4)) dash in
  let g3 := andThen (andThen g2 (hexRun 4)) dash in
  let g4 := andThen (andThen g3 (hexRun 4)) dash in
  match andThen g4 (hexRun 12) with
  | Some EmptyString => true
  | _ => false
  end.

End Js.

(** ** POSIX paths ([path.basename], [path.resolve]) *)

Module Path.

Definition slash : ascii := "/"%char.

(** Split at every [/]; the pieces contain no [/]. *)
Fixpoint split (s : string) : list string :=
  match s with
  | EmptyString => [EmptyString]
  | String c r =>
      if Ascii.eqb c slash then EmptyString :: split r
      else match split r with
           | p :: ps => String c p :: ps
           | [] => [String c EmptyString]
           end
  end.

(** [path.basename(p)]: trailing slashes are dropped, then the part after
    the last remaining slash is returned. *)
Definition basename (p : string) : string :=
  match List.filter (fun x => negb (String.eqb x "")) (split p) with
  | [] => ""
  | x :: xs => List.last xs x
  end.

(** One step of Node's [normalizeString] on an absolute path, with the
    components kept in reverse order. *)
Definition push (acc : list string) (seg : string) : list string :=
  if String.eqb seg "" || String.eqb seg "." then acc
  else if String.eqb seg ".." then tail acc
  else seg :: acc.

Definition normalize (segs : list string) : list string :=
  rev (fold_left push segs []).

Definition join (comps : list string) : string :=
  match comps with
  | [] => "/"
  | _ => fold_right (fun c r => "/" +:+ c +:+ r) "" comps
  end.

(** [path.resolve(cwd, p1, ..., pn)] for an absolute [cwd]: an absolute
    argument restarts the path, the empty string is skipped, and the
    result is normalized. *)
Definition resolve_from (cwd : string) (parts : list string) : string :=
  let raw :=
    fold_left (fun cur p =>
                 if String.eqb p "" then cur
                 else if Js.startsWith "/" p then p
                 else cur +:+ "/" +:+ p) parts cwd in
  join (normalize (split raw)).

(** [q] is [base] itself or lies below it. *)
Definition within (base q : string) : bool :=
  String.eqb q base || Js.startsWith (base +:+ "/") q.

End Path.

(** ** Records of the database (server/db.ts) *)

Inductive StorageType := local | cloud | remote.
Inductive Status := pending | running | completed | failed.
Inductive Level := info | warn | error | debug.
Inductive Signal := start | stop | restart | kill.
Inductive WebhookType := wh_success | wh_error | wh_warning | wh_info.

Global Instance StorageType_eq_dec : EqDecision StorageType.
Proof. solve_decision. Defined.
Global Instance Status_eq_dec : EqDecision Status.
Proof. solve_decision. Defined.
Global Instance Level_eq_dec : EqDecision Level.
Proof. solve_decision. Defined.
Global Instance Signal_eq_dec : EqDecision Signal.
Proof. solve_decision. Defined.

Definition storage_name (t : StorageType) : string :=
  match t with local => "local" | cloud => "cloud" | remote => "remote" end.

(** A row of the [nodes] table. *)
Record Node := mkNode {
  n_id : Z;
  n_name : string;
  n_host : string;
  n_port : Z;
  n_username : string;
  n_auth_type : string;
  n_ssh_key_path : option string;
  n_ssh_password : option string;
  n_volumes_path : option string;
}.

(** A row of the [backups] table.  [created_at] is kept as the number that
    [new Date(created_at).getTime()] yields. *)
Record Backup := mkBackup {
  id : Z;
  node_id : Z;
  volume_name : string;
  filename : string;
  size : Z;
  storage_type : StorageType;
  storage_path : option string;
  status : Status;
  progress : Z;
  error_message : option string;
  started_at : option string;
  completed_at : option string;
  created_at : Z;
}.

(** The object handed to [backupRepo.update]: the columns it names. *)
Record BackupPatch := mkPatch {
  p_filename : option string;
  p_size : option Z;
  p_storage_path : option string;
  p_status : option Status;
  p_progress : option Z;
  p_started_at : option string;
  p_completed_at : option string;
}.

Definition no_patch : BackupPatch :=
  mkPatch None None None None None None None.

Definition apply_patch (p : BackupPatch) (b : Backup) : Backup :=
  {| id := id b;
     node_id := node_id b;
     volume_name := volume_name b;
     filename := default (filename b) (p_filename p);
     size := default (size b) (p_size p);
     storage_type := storage_type b;
     storage_path :=
       match p_storage_path p with
       | Some s => Some s
       | None => storage_path b
       end;
     status := default (status b) (p_status p);
     progress := default (progress b) (p_progress p);
     error_message := error_message b;
     started_at :=
       match p_started_at p with Some s => Some s | None => started_at b end;
     completed_at :=
       match p_completed_at p with
       | Some s => Some s
       | None => completed_at b
       end;
     created_at := created_at b |}.

Definition set_progress (v : Z) (b : Backup) : Backup :=
  {| id := id b; node_id := node_id b; volume_name := volume_name b;
     filename := filename b; size := size b; storage_type := storage_type b;
     storage_path := storage_path b; status := status b; progress := v;
     error_message := error_message b; started_at := started_at b;
     completed_at := completed_at b; created_at := created_at b |}.

(** [UPDATE backups SET status = 'failed', error_message = ?, progress = 0] *)
Definition set_failed (msg : string) (b : Backup) : Backup :=
  {| id := id b; node_id := node_id b; volume_name := volume_name b;
     filename := filename b; size := size b; storage_type := storage_type b;
     storage_path := storage_path b; status := failed; progress := 0;
     error_message := Some msg; started_at := started_at b;
     completed_at := completed_at b; created_at := created_at b |}.

(** A row of the [schedules] table. *)
Record Schedule := mkSchedule {
  s_id : Z;
  s_node_id : Z;
  s_name : string;
  s_cron_expression : string;
  s_storage_type : StorageType;
  s_retention_count : Z;
  s_enabled : bool;
  s_last_run : option string;
}.

(** An entry of an SFTP directory listing. *)
Record DirEntry := mkEntry { e_type : string; e_name : string }.

(** ** Observable steps *)

Inductive Event :=
| EReadFile (path : string)
| EConnect (host : string)
| EList (path : string)
| EMkdir (path : string)
| EGetServerState (uuid : string)
| ESetServerState (uuid : string) (sig : Signal)
| ESleep (ms : Z)
| EDownloadDir (remotePath localPath : string)
| EEnd
| EArchive (srcDir destPath : string)
| EStat (path : string)
| ERm (path : string)
| EUnlink (path : string)
| ECopy (src dest : string)
| EStorageUpload (kind : StorageType) (name : string)
| EStorageDelete (kind : StorageType) (name : string)
| EStorageHead (kind : StorageType) (name : string)
| EStorageConnect
| EStorageEnd
| ELog (lvl : Level) (msg : string)
| EWebhook (kind : WebhookType) (title description : string)
           (fields : list (string * string))
| EDb (rows : list Backup).

(** ** The world and the outcomes of library calls *)

Inductive Res (A : Type) :=
| Ok (a : A)
| Throw (msg : string).
Arguments Ok {A} a.
Arguments Throw {A} msg.

Inductive HttpRes :=
| HttpOk (state : string)
| Http404
| HttpError (msg : string).

Record World := mkWorld {
  nodes : list Node;
  backups : list Backup;
  backup_logs : list (Z * Level * string);
  backup_seq : Z;                (* sqlite_sequence: largest id ever used *)
  schedules : list Schedule;
  settings : gmap string string;
  session_open : bool;
  trace : list Event;
}.

Record Env := mkEnv {
  (* process *)
  cwd : string;
  data_dir : string;              (* config.paths.data *)
  local_base : string;            (* config.storage.local.path *)
  default_volumes : string;       (* config.wings.volumesPath *)
  iso_now : nat -> string;        (* new Date().toISOString() *)
  date_now : nat -> Z;            (* Date.now() *)
  formatSize : Z -> string;
  (* the node's SFTP client *)
  readFile : string -> Res unit;
  sftp_connect : string -> Res unit;
  sftp_list : string -> Res (list DirEntry);
  sftp_downloadDir : string -> string -> Res unit;
  sftp_end : Res unit;
  (* file system *)
  mkdirSync : string -> Res unit;
  archive : string -> string -> Res unit;
  statSync : string -> Res Z;
  rmSync : string -> Res unit;
  unlinkSync : string -> Res unit;
  existsSync : string -> bool;
  copyFile : string -> string -> Res unit;
  (* the panel's HTTP API; the number is the moment of the request *)
  http_resources : string -> nat -> HttpRes;
  http_power : string -> Signal -> nat -> Res unit;
  (* object storage *)
  s3_put : string -> string -> Res unit;
  s3_head : string -> string -> Res (option Z);
  s3_remove : string -> string -> Res unit;
  (* the storage side's SFTP client *)
  st_connect : string -> Z -> string -> Res unit;
  st_exists : string -> Res bool;
  st_mkdir : string -> Res unit;
  st_fastPut : string -> string -> Res unit;
  st_stat : string -> Res Z;
  st_remove : string -> Res unit;
  st_end : Res unit;
}.

(** ** The monad of asynchronous computations *)

Definition M (A : Type) : Type := World -> Res A * World.

Definition ret {A} (a : A) : M A := fun w => (Ok a, w).

Definition bind {A B} (m : M A) (k : A -> M B) : M B :=
  fun w =>
    match m w with
    | (Ok a, w') => k a w'
    | (Throw e, w') => (Throw e, w')
    end.

Definition throw {A} (msg : string) : M A := fun w => (Throw msg, w).

(** [try { m } catch (err) { h(err) }] *)
Definition tryCatch {A} (m : M A) (h : string -> M A) : M A :=
  fun w =>
    match m w with
    | (Ok a, w') => (Ok a, w')
    | (Throw e, w') => h e w'
    end.

(** [try { m } finally { f }] *)
Definition tryFinally {A} (m : M A) (f : M unit) : M A :=
  fun w =>
    match m w with
    | (r, w') =>
        match f w' with
        | (Ok _, w'') => (r, w'')
        | (Throw e, w'') => (Throw e, w'')
        end
    end.

Global Instance M_ret : MRet M := @ret.
Global Instance M_bind : MBind M := fun A B k m => bind m k.

Definition get : M World := fun w => (Ok w, w).
Definition modify (f : World -> World) : M unit := fun w => (Ok tt, f w).

(** An outcome supplied by the environment becomes a return or a throw. *)
Definition lift {A} (r : Res A) : M A := fun w => (r, w).

Definition emit (e : Event) : M unit :=
  modify (fun w =>
    {| nodes := nodes w; backups := backups w; backup_logs := backup_logs w;
       backup_seq := backup_seq w; schedules := schedules w;
       settings := settings w; session_open := session_open w;
       trace := trace w ++ [e] |}).

(** The number of steps taken so far: the moment of the next step. *)
Definition now : M nat := fun w => (Ok (length (trace w)), w).

(** World updates, field by field. *)
Definition with_trace (f : list Event -> list Event) (w : World) : World :=
  {| nodes := nodes w; backups := backups w; backup_logs := backup_logs w;
     backup_seq := backup_seq w; schedules := schedules w;
     settings := settings w;
     session_open := session_open w; trace := f (trace w) |}.

Definition with_session (b : bool) (w : World) : World :=
  {| nodes := nodes w; backups := backups w; backup_logs := backup_logs w;
     backup_seq := backup_seq w; schedules := schedules w;
     settings := settings w;
     session_open := b; trace := trace w |}.

(** A statement that writes the [backups] table; the new table is also
    recorded in the trace, so that every intermediate state of a run can be
    inspected afterwards. *)
Definition with_backups (rows : list Backup) (w : World) : World :=
  {| nodes := nodes w; backups := rows; backup_logs := backup_logs w;
     backup_seq := backup_seq w; schedules := schedules w;
     settings := settings w;
     session_open := session_open w; trace := trace w ++ [EDb rows] |}.

Definition with_logs (l : list (Z * Level * string)) (w : World) : World :=
  {| nodes := nodes w; backups := backups w; backup_logs := l;
     backup_seq := backup_seq w; schedules := schedules w;
     settings := settings w;
     session_open := session_open w; trace := trace w |}.

Definition with_schedules (l : list Schedule) (w : World) : World :=
  {| nodes := nodes w; backups := backups w; backup_logs := backup_logs w;
     backup_seq := backup_seq w; schedules := l;
     settings := settings w; session_open := session_open w;
     trace := trace w |}.

Definition with_seq (n : Z) (w : World) : World :=
  {| nodes := nodes w; backups := backups w; backup_logs := backup_logs w;
     backup_seq := n; schedules := schedules w; settings := settings w;
     session_open := session_open w; trace := trace w |}.

(** ** Sorting as [Array.prototype.sort] does it

    A stable sort under a comparator [cmp]: [x] stays in front of a later
    [y] unless [cmp x y > 0]. *)

Section Sort.
Context {A : Type} (cmp : A -> A -> Z).

Fixpoint insert_sorted (x : A) (l : list A) : list A :=
  match l with
  | [] => [x]
  | y :: ys => if 0 <? cmp x y then y :: insert_sorted x ys else x :: y :: ys
  end.

Definition js_sort (l : list A) : list A := fold_right insert_sorted [] l.
End Sort.

(** The comparator of [applyRetention]:
    [new Date(b.created_at).getTime() - new Date(a.created_at).getTime()]. *)
Definition newest_first (a b : Backup) : Z := created_at b - created_at a.

(** [arr.slice(k)] for an integer [k], as ECMAScript defines it: a negative
    [k] counts from the end, and the start is clamped to the array. *)
Definition js_slice_start (k : Z) (len : nat) : nat :=
  Z.to_nat (if k <? 0 then Z.max (Z.of_nat len + k) 0
            else Z.min k (Z.of_nat len)).

Definition js_slice_from {A} (k : Z) (l : list A) : list A :=
  drop (js_slice_start k (length l)) l.

Section Server.

Variable env : Env.

(** *** server/logger.ts *)

Definition log (lvl : Level) (msg : string) : M unit := emit (ELog lvl msg).

(** *** server/db.ts *)

Definition settingsRepo_get (key : string) : M (option string) :=
  fun w => (Ok (settings w !! key), w).

Definition nodeRepo_getById (i : Z) : M (option Node) :=
  fun w => (Ok (List.find (fun n => n_id n =? i) (nodes w)), w).

Definition backupRepo_getById (i : Z) : M (option Backup) :=
  fun w => (Ok (List.find (fun b => id b =? i) (backups w)), w).

(** [SELECT * FROM backups WHERE node_id = ? ORDER BY created_at DESC] *)
Definition backupRepo_getByNode (nodeId : Z) : M (list Backup) :=
  fun w =>
    (Ok (js_sort newest_first
           (List.filter (fun b => node_id b =? nodeId) (backups w))), w).

(** The largest [id] in the table. *)
Definition max_id (rows : list Backup) : Z :=
  fold_right (fun b acc => Z.max (id b) acc) 0 rows.

(** [INTEGER PRIMARY KEY AUTOINCREMENT]: one more than the largest id
    that is or ever was in the table. *)
Definition fresh_id (w : World) : Z :=
  Z.max (backup_seq w) (max_id (backups w)) + 1.

(** [INSERT INTO backups (node_id, volume_name, filename, storage_type,
    status, started_at)]: the remaining columns take their defaults.
    The insertion is modelled where SQLite accepts it: [node_id] is the
    id of a node (the column is a foreign key) and the ids are not used
    up; elsewhere the source throws. *)
Definition backupRepo_create (nodeId : Z) (volume file : string)
    (kind : StorageType) (st : option Status) (started : option string)
  : M Z :=
  fun w =>
    let t := length (trace w) in
    let i := fresh_id w in
    let row :=
      {| id := i; node_id := nodeId; volume_name := volume;
         filename := file; size := 0; storage_type := kind;
         storage_path := None; status := default running st;
         progress := 0; error_message := None;
         started_at := Some (Js.or_else started (iso_now env t));
         completed_at := None; created_at := date_now env t |} in
    (Ok i, with_seq i (with_backups (backups w ++ [row]) w)).

Definition update_rows (i : Z) (f : Backup -> Backup) : M unit :=
  modify (fun w =>
    with_backups (map (fun b => if id b =? i then f b else b) (backups w)) w).

Definition patch_is_empty (p : BackupPatch) : bool :=
  match p with
  | mkPatch None None None None None None None => true
  | _ => false
  end.

(** [backupRepo.update]: [sanitizeUpdate] refuses an object without any
    column. *)
Definition backupRepo_update (i : Z) (p : BackupPatch) : M unit :=
  if patch_is_empty p then throw "No valid fields to update"
  else update_rows i (apply_patch p).

Definition backupRepo_updateProgress (i : Z) (v : Z) : M unit :=
  update_rows i (set_progress v).

Definition backupRepo_fail (i : Z) (msg : string) : M unit :=
  update_rows i (set_failed msg).

Definition backupRepo_delete (i : Z) : M unit :=
  modify (fun w =>
    with_backups (List.filter (fun b => negb (id b =? i)) (backups w))
      (with_logs
         (List.filter (fun r => negb (fst (fst r) =? i)) (backup_logs w)) w)).

(** [INSERT INTO backup_logs (backup_id, level, message)], modelled where
    SQLite accepts it: [backup_id] is the id of a record of [backups]
    (the column is a foreign key); elsewhere the source throws. *)
Definition backupLogRepo_add (i : Z) (lvl : Level) (msg : string) : M unit :=
  modify (fun w => with_logs (backup_logs w ++ [(i, lvl, msg)]) w).

(** *** server/webhook.ts

    [sendWebhook] is never awaited by its callers: what they see is the
    check of the configured URL and the request being issued. *)
Definition sendWebhook (kind : WebhookType) (title description : string)
    (fields : list (string * string)) : M unit :=
  url ← settingsRepo_get "discord_webhook_url";
  if Js.truthy url then emit (EWebhook kind title description fields)
  else ret tt.

(** *** server/pterodactyl.ts *)

(** [url.replace(/\/$/, '')] *)
Fixpoint dropLastSlash (s : string) : string :=
  match s with
  | EmptyString => EmptyString
  | String c EmptyString =>
      if Ascii.eqb c "/" then EmptyString else String c EmptyString
  | String c r => String c (dropLastSlash r)
  end.

Definition getConfig : M (option (string * string)) :=
  url ← settingsRepo_get "ptero_url";
  key ← settingsRepo_get "ptero_key";
  if negb (Js.truthy url) || negb (Js.truthy key) then ret None
  else ret (Some (dropLastSlash (default "" url), default "" key)).

Definition getServerState (uuid : string) : M (option string) :=
  emit (EGetServerState uuid) ;;
  conf ← getConfig;
  match conf with
  | None => ret None
  | Some (url, _) =>
      t ← now;
      match
        http_resources env
          (url +:+ "/api/client/servers/" +:+ uuid +:+ "/resources") t
      with
      | HttpOk s => ret (Some s)
      | Http404 => ret None
      | HttpError msg =>
          log warn ("Pterodactyl API error (Status): " +:+ msg) ;;
          ret None
      end
  end.

Definition signal_name (s : Signal) : string :=
  match s with
  | start => "start" | stop => "stop" | restart => "restart"
  | kill => "kill"
  end.

Definition setServerState (uuid : string) (sig : Signal) : M bool :=
  emit (ESetServerState uuid sig) ;;
  conf ← getConfig;
  match conf with
  | None => ret false
  | Some (url, _) =>
      t ← now;
      match
        http_power env (url +:+ "/api/client/servers/" +:+ uuid +:+ "/power")
          sig t
      with
      | Ok _ => ret true
      | Throw msg =>
          log warn ("Pterodactyl API error (Power " +:+ signal_name sig
                    +:+ "): " +:+ msg) ;;
          ret false
      end
  end.

(** *** server/storage.ts *)

Definition resolve (parts : list string) : string :=
  Path.resolve_from (cwd env) parts.

(** **** LocalStorage *)

Definition sanitizeFilename (name : string) : M string :=
  let safe := Path.basename name in
  (if negb (Js.truthy (Some safe)) || negb (String.eqb safe name)
   then log warn ("Path traversal attempt blocked: " +:+ name +:+ " -> "
                  +:+ safe)
   else ret tt) ;;
  ret safe.

Definition Local_upload (localPath name : string) : M string :=
  safeFilename ← sanitizeFilename name;
  let dest := resolve [local_base env; safeFilename] in
  emit (ECopy localPath dest) ;;
  lift (copyFile env localPath dest) ;;
  log debug ("Local upload: " +:+ dest) ;;
  ret dest.

Definition Local_download (name localPath : string) : M unit :=
  safeFilename ← sanitizeFilename name;
  let src := resolve [local_base env; safeFilename] in
  emit (ECopy src localPath) ;;
  lift (copyFile env src localPath).

Definition Local_delete (name : string) : M unit :=
  safeFilename ← sanitizeFilename name;
  let filePath := resolve [local_base env; safeFilename] in
  if existsSync env filePath
  then emit (EUnlink filePath) ;; lift (unlinkSync env filePath)
  else ret tt.

Definition Local_exists (name : string) : M bool :=
  safeFilename ← sanitizeFilename name;
  ret (existsSync env (resolve [local_base env; safeFilename])).

Definition Local_getSize (name : string) : M Z :=
  safeFilename ← sanitizeFilename name;
  let filePath := resolve [local_base env; safeFilename] in
  if existsSync env filePath
  then emit (EStat filePath) ;; lift (statSync env filePath)
  else ret 0.

(** **** S3Storage *)

Record S3Config := mkS3Config {
  s3_endpoint : option string;
  s3_bucket : option string;
  s3_region : option string;
  s3_accessKey : option string;
  s3_secretKey : option string;
}.

Definition S3_getConfig : M S3Config :=
  endpoint ← settingsRepo_get "s3_endpoint";
  bucket ← settingsRepo_get "s3_bucket";
  region ← settingsRepo_get "s3_region";
  accessKey ← settingsRepo_get "s3_access_key";
  secretKey ← settingsRepo_get "s3_secret_key";
  ret (mkS3Config endpoint bucket region accessKey secretKey).

(** The client itself carries nothing the callers look at; what matters
    is that building it throws without a bucket or an access key. *)
Definition S3_getClient : M unit :=
  conf ← S3_getConfig;
  if negb (Js.truthy (s3_bucket conf)) || negb (Js.truthy (s3_accessKey conf))
  then throw "S3 Configuration missing in database"
  else ret tt.

Definition S3_upload (localPath name : string) : M string :=
  conf ← S3_getConfig;
  if negb (Js.truthy (s3_bucket conf)) then throw "S3 Bucket not configured"
  else
    let bucket := default "" (s3_bucket conf) in
    S3_getClient ;;
    emit (EStorageUpload cloud name) ;;
    lift (s3_put env bucket name) ;;
    log debug ("S3 upload: " +:+ name) ;;
    ret ("s3://" +:+ bucket +:+ "/" +:+ name).

Definition S3_delete (name : string) : M unit :=
  conf ← S3_getConfig;
  if negb (Js.truthy (s3_bucket conf)) then ret tt
  else
    S3_getClient ;;
    emit (EStorageDelete cloud name) ;;
    lift (s3_remove env (default "" (s3_bucket conf)) name).

Definition S3_getSize (name : string) : M Z :=
  conf ← S3_getConfig;
  tryCatch
    (S3_getClient ;;
     emit (EStorageHead cloud name) ;;
     len ← lift (s3_head env (default "" (s3_bucket conf)) name);
     ret (default 0 len))
    (fun _ => ret 0).

(** **** SftpStorage *)

(** [Number(settingsRepo.get('sftp_port')) || 22] for a port written in
    decimal digits.  The other spellings that [Number] accepts (blanks
    around the digits, hexadecimal, exponents) are treated like [NaN]
    here; the port plays no part in what follows. *)
Fixpoint digits (s : string) (acc : Z) : option Z :=
  match s with
  | EmptyString => Some acc
  | String c r =>
      let n := Z.of_N (N_of_ascii c) in
      if (48 <=? n) && (n <=? 57) then digits r (10 * acc + (n - 48))
      else None
  end.

Definition port_or_22 (o : option string) : Z :=
  match o with
  | Some s =>
      match digits s 0 with
      | Some n => if n =? 0 then 22 else n
      | None => 22
      end
  | None => 22
  end.

Definition Sftp_getClient : M unit :=
  host ← settingsRepo_get "sftp_host";
  port ← settingsRepo_get "sftp_port";
  username ← settingsRepo_get "sftp_user";
  if negb (Js.truthy host) || negb (Js.truthy username)
  then throw "SFTP Configuration missing in database"
  else
    emit EStorageConnect ;;
    lift (st_connect env (default "" host) (port_or_22 port)
            (default "" username)).

Definition Sftp_end : M unit := emit EStorageEnd ;; lift (st_end env).

Definition Sftp_getPath : M string :=
  p ← settingsRepo_get "sftp_path";
  ret (Js.or_else p "/").

Definition Sftp_upload (localPath name : string) : M string :=
  Sftp_getClient ;;
  tryFinally
    (dir ← Sftp_getPath;
     let remotePath := dir +:+ "/" +:+ name in
     remoteDir ← Sftp_getPath;
     present ← lift (st_exists env remoteDir);
     (if negb present then lift (st_mkdir env remoteDir) else ret tt) ;;
     emit (EStorageUpload remote name) ;;
     lift (st_fastPut env localPath remotePath) ;;
     log debug ("SFTP upload: " +:+ remotePath) ;;
     ret remotePath)
    Sftp_end.

Definition Sftp_delete (name : string) : M unit :=
  Sftp_getClient ;;
  tryFinally
    (dir ← Sftp_getPath;
     emit (EStorageDelete remote name) ;;
     lift (st_remove env (dir +:+ "/" +:+ name)))
    Sftp_end.

Definition Sftp_getSize (name : string) : M Z :=
  Sftp_getClient ;;
  tryFinally
    (tryCatch
       (dir ← Sftp_getPath;
        emit (EStorageHead remote name) ;;
        lift (st_stat env (dir +:+ "/" +:+ name)))
       (fun _ => ret 0))
    Sftp_end.

(** **** The storage manager: [storage.get(type).method(...)] *)

Definition storage_upload (kind : StorageType) (localPath name : string)
  : M string :=
  match kind with
  | local => Local_upload localPath name
  | cloud => S3_upload localPath name
  | remote => Sftp_upload localPath name
  end.

Definition storage_delete (kind : StorageType) (name : string) : M unit :=
  match kind with
  | local => Local_delete name
  | cloud => S3_delete name
  | remote => Sftp_delete name
  end.

Definition storage_getSize (kind : StorageType) (name : string) : M Z :=
  match kind with
  | local => Local_getSize name
  | cloud => S3_getSize name
  | remote => Sftp_getSize name
  end.

(** [storage.isConfigured(type)] *)
Definition storage_isConfigured (kind : StorageType) : M bool :=
  match kind with
  | local => ret true
  | cloud =>
      bucket ← settingsRepo_get "s3_bucket";
      key ← settingsRepo_get "s3_access_key";
      ret (Js.truthy bucket && Js.truthy key)
  | remote =>
      host ← settingsRepo_get "sftp_host";
      user ← settingsRepo_get "sftp_user";
      ret (Js.truthy host && Js.truthy user)
  end.

(** *** server/backup.ts *)

Record BackupOptions := mkOptions {
  o_nodeId : Z;
  o_volumeName : option string;
  o_storageType : StorageType;
  o_backupId : option Z;
}.

Definition backupLog (backupId : Z) (lvl : Level) (msg : string) : M unit :=
  log lvl msg ;;
  backupLogRepo_add backupId lvl msg.

Definition connectToNode (node : Node) : M unit :=
  (if String.eqb (n_auth_type node) "key" && Js.truthy (n_ssh_key_path node)
   then
     let keyPath := default "" (n_ssh_key_path node) in
     emit (EReadFile keyPath) ;; lift (readFile env keyPath)
   else ret tt) ;;
  emit (EConnect (n_host node)) ;;
  lift (sftp_connect env (n_host node)) ;;
  modify (with_session true).

(** [client.end()] *)
Definition client_end : M unit :=
  emit EEnd ;;
  lift (sftp_end env) ;;
  modify (with_session false).

Definition client_list (path : string) : M (list DirEntry) :=
  emit (EList path) ;; lift (sftp_list env path).

Definition client_downloadDir (remotePath localPath : string) : M unit :=
  emit (EDownloadDir remotePath localPath) ;;
  lift (sftp_downloadDir env remotePath localPath).

Definition fs_mkdir (path : string) : M unit :=
  emit (EMkdir path) ;; lift (mkdirSync env path).

(** The directories of a listing that are not hidden:
    [f.type === 'd' && !f.name.startsWith('.')], then [f.name]. *)
Definition volume_names (l : list DirEntry) : list string :=
  map e_name
    (List.filter
       (fun f => String.eqb (e_type f) "d"
                 && negb (Js.startsWith "." (e_name f))) l).

(** The loop [for (let j = 0; j < 12; j++)] that waits for the server to
    be offline, with [j] iterations left. *)
Fixpoint waitOffline (vol : string) (j : nat) : M unit :=
  match j with
  | O => ret tt
  | S j' =>
      emit (ESleep 5000) ;;
      newState ← getServerState vol;
      if bool_decide (newState = Some "offline") then ret tt
      else waitOffline vol j'
  end.

(** The "Safe Backup Logic" of one volume; the result is [wasRunning].
    (The dynamic [import] of the panel client is left out: it is the
    module of this repository.)  The source assigns [wasRunning = true]
    inside the [try] block, before the stop is requested: an exception
    before the assignment leaves it [false], one after it leaves it
    [true]. *)
Definition safeStop (backupId : Z) (vol : string) : M bool :=
  if Js.isUuid vol then
    tryCatch
      (state ← getServerState vol;
       if Js.truthy state && negb (bool_decide (state = Some "offline"))
       then
         tryCatch
           (backupLog backupId info
              ("[Safe Backup] Stopping server " +:+ vol +:+ "...") ;;
            setServerState vol stop ;;
            waitOffline vol 12)
           (fun _ => ret tt) ;;
         ret true
       else ret false)
      (fun _ => ret false)
  else ret false.

Definition safeStart (backupId : Z) (vol : string) (wasRunning : bool)
  : M unit :=
  if wasRunning then
    backupLog backupId info
      ("[Safe Backup] Restoring server " +:+ vol +:+ "...") ;;
    tryCatch
      (setServerState vol start ;; ret tt)
      (fun _ => backupLog backupId warn "Failed to restart server")
  else ret tt.

(** [15 + Math.floor(((i + 1) / volumes.length) * downloadProgress)].
    The source computes the quotient in double precision; here it is the
    exact one.  What is proved below only uses that the value lies
    between 15 and 75, which holds for both. *)
Definition volumeProgress (i n : nat) : Z :=
  15 + ((Z.of_nat i + 1) * 60) / Z.of_nat n.

(** The body of the loop over the volumes, for the volume at index [i] of
    [n]. *)
Definition backupVolume (backupId : Z) (volumesPath tempDir : string)
    (n i : nat) (vol : string) : M unit :=
  let localPath := resolve [tempDir; vol] in
  fs_mkdir localPath ;;
  wasRunning ← safeStop backupId vol;
  backupLog backupId info
    ("Downloading volume: " +:+ vol +:+ " (" +:+ pretty (Z.of_nat i + 1)
     +:+ "/" +:+ pretty (Z.of_nat n) +:+ ")") ;;
  tryCatch
    (client_downloadDir (volumesPath +:+ "/" +:+ vol) localPath)
    (fun msg =>
       backupLog backupId warn
         ("Failed to download " +:+ vol +:+ ": " +:+ msg)) ;;
  safeStart backupId vol wasRunning ;;
  backupRepo_updateProgress backupId (volumeProgress i n).

Fixpoint forVolumes (backupId : Z) (volumesPath tempDir : string)
    (n i : nat) (vols : list string) : M unit :=
  match vols with
  | [] => ret tt
  | vol :: rest =>
      backupVolume backupId volumesPath tempDir n i vol ;;
      forVolumes backupId volumesPath tempDir n (S i) rest
  end.

Definition formatDuration (durationMs : Z) : string :=
  let durationSec := durationMs / 1000 in
  if 60 <? durationSec
  then pretty (durationSec / 60) +:+ "m " +:+ pretty (durationSec mod 60)
       +:+ "s"
  else pretty durationSec +:+ "s".

(** The [try] block of [createBackup] (backup.ts, lines 59-174). *)
Definition pipeline (options : BackupOptions) (node : Node)
    (volumeName file : string) (backupId startTime : Z) : M Z :=
  backupLog backupId info
    ("Connecting to " +:+ n_name node +:+ " (" +:+ n_host node +:+ ")") ;;
  connectToNode node ;;
  backupRepo_updateProgress backupId 10 ;;
  let volumesPath := Js.or_else (n_volumes_path node) (default_volumes env) in
  volumes ←
    (if String.eqb volumeName "all-volumes" then
       entries ← client_list volumesPath;
       let volumes := volume_names entries in
       backupLog backupId info
         ("Found " +:+ pretty (Z.of_nat (length volumes)) +:+ " volumes") ;;
       ret volumes
     else ret [volumeName]);
  backupRepo_updateProgress backupId 15 ;;
  let tempDir :=
    resolve [data_dir env; "temp"; "backup-" +:+ pretty backupId] in
  fs_mkdir tempDir ;;
  forVolumes backupId volumesPath tempDir (length volumes) 0 volumes ;;
  client_end ;;
  backupLog backupId info "Download complete" ;;
  backupRepo_updateProgress backupId 75 ;;
  backupLog backupId info "Compressing backup..." ;;
  let tempFile := resolve [data_dir env; "temp"; file] in
  emit (EArchive tempDir tempFile) ;;
  lift (archive env tempDir tempFile) ;;
  emit (EStat tempFile) ;;
  fileSize ← lift (statSync env tempFile);
  backupLog backupId info ("Archive created: " +:+ formatSize env fileSize) ;;
  backupRepo_updateProgress backupId 85 ;;
  backupLog backupId info
    ("Uploading to " +:+ storage_name (o_storageType options)
     +:+ " storage...") ;;
  storagePath ← storage_upload (o_storageType options) tempFile file;
  backupRepo_updateProgress backupId 95 ;;
  emit (ERm tempDir) ;;
  lift (rmSync env tempDir) ;;
  emit (EUnlink tempFile) ;;
  lift (unlinkSync env tempFile) ;;
  t ← now;
  backupRepo_update backupId
    {| p_filename := None; p_size := Some fileSize;
       p_storage_path := Some storagePath; p_status := Some completed;
       p_progress := Some 100; p_started_at := None;
       p_completed_at := Some (iso_now env t) |} ;;
  t' ← now;
  let duration := formatDuration (date_now env t' - startTime) in
  backupLog backupId info
    ("Backup completed: " +:+ formatSize env fileSize +:+ " in "
     +:+ duration) ;;
  sendWebhook wh_success "Backup Completed"
    ("**" +:+ n_name node +:+ "** - " +:+ volumeName)
    [("Size", formatSize env fileSize); ("Duration", duration);
     ("Filename", file)] ;;
  ret backupId.

(** The [catch] block of [createBackup] (backup.ts, lines 175-183). *)
Definition onFailure (node : Node) (volumeName : string) (backupId : Z)
    (msg : string) : M Z :=
  backupRepo_fail backupId msg ;;
  backupLog backupId error ("Backup failed: " +:+ msg) ;;
  sendWebhook wh_error "Backup Failed"
    ("**" +:+ n_name node +:+ "** - " +:+ volumeName)
    [("Error", Js.slice0 200 msg)] ;;
  throw msg.

(** [if (backupId) { update } else { create }]: the number 0 is falsy. *)
Definition openRun (options : BackupOptions) (volumeName file : string)
  : M Z :=
  match o_backupId options with
  | Some i =>
      if negb (i =? 0) then
        t ← now;
        backupRepo_update i
          {| p_filename := Some file; p_size := None;
             p_storage_path := None; p_status := Some running;
             p_progress := None; p_started_at := Some (iso_now env t);
             p_completed_at := None |} ;;
        ret i
      else
        backupRepo_create (o_nodeId options) volumeName file
          (o_storageType options) (Some running) None
  | None =>
      backupRepo_create (o_nodeId options) volumeName file
        (o_storageType options) (Some running) None
  end.

Definition createBackup (options : BackupOptions) : M Z :=
  t0 ← now;
  let startTime := date_now env t0 in
  found ← nodeRepo_getById (o_nodeId options);
  match found with
  | None => throw "Node not found"
  | Some node =>
      let volumeName := Js.or_else (o_volumeName options) "all-volumes" in
      let timestamp := Js.dashify (iso_now env t0) in
      let file :=
        n_name node +:+ "-" +:+ volumeName +:+ "-" +:+ timestamp
        +:+ ".tar.gz" in
      backupId ← openRun options volumeName file;
      backupLog backupId info ("Starting backup: " +:+ file) ;;
      backupRepo_updateProgress backupId 5 ;;
      sendWebhook wh_info "Backup Started"
        ("**" +:+ n_name node +:+ "** - " +:+ volumeName)
        [("Storage Type", storage_name (o_storageType options))] ;;
      tryCatch
        (pipeline options node volumeName file backupId startTime)
        (onFailure node volumeName backupId)
  end.

Definition deleteBackup (i : Z) : M unit :=
  found ← backupRepo_getById i;
  match found with
  | None => throw "Backup not found"
  | Some backup =>
      tryCatch
        (storage_delete (storage_type backup) (filename backup))
        (fun err => log warn ("Failed to delete file: Error: " +:+ err)) ;;
      backupRepo_delete i ;;
      log info ("Deleted backup " +:+ pretty i)
  end.

Definition testNodeConnection (node : Node) : M bool :=
  tryFinally
    (tryCatch
       (connectToNode node ;;
        client_list (Js.or_else (n_volumes_path node) (default_volumes env)) ;;
        ret true)
       (fun err => log error ("Node test failed: Error: " +:+ err) ;;
                   ret false))
    client_end.

Definition getNodeVolumes (node : Node) : M (list string) :=
  tryFinally
    (connectToNode node ;;
     entries ← client_list
                 (Js.or_else (n_volumes_path node) (default_volumes env));
     ret (volume_names entries))
    client_end.

(** *** server/scheduler.ts *)

Fixpoint forEach {A} (l : list A) (f : A -> M unit) : M unit :=
  match l with
  | [] => ret tt
  | x :: xs => f x ;; forEach xs f
  end.

(** The runs that [applyRetention] looks at, in the order it puts them. *)
Definition retentionCandidates (kind : StorageType) (rows : list Backup)
  : list Backup :=
  js_sort newest_first
    (List.filter
       (fun b => bool_decide (storage_type b = kind)
                 && bool_decide (status b = completed)) rows).

(** [backups.length > keep ? backups.slice(keep) : []] *)
Definition toDelete (keep : Z) (candidates : list Backup) : list Backup :=
  if keep <? Z.of_nat (length candidates) then js_slice_from keep candidates
  else [].

Definition applyRetention (nodeId : Z) (kind : StorageType) (keep : Z)
  : M unit :=
  rows ← backupRepo_getByNode nodeId;
  forEach (toDelete keep (retentionCandidates kind rows))
    (fun backup =>
       log info ("Retention: deleting backup " +:+ pretty (id backup)) ;;
       backupRepo_delete (id backup)).

Definition scheduleRepo_touch (i : Z) (stamp : string) : M unit :=
  modify (fun w =>
    with_schedules
      (map (fun s =>
              if s_id s =? i then
                {| s_id := s_id s; s_node_id := s_node_id s;
                   s_name := s_name s;
                   s_cron_expression := s_cron_expression s;
                   s_storage_type := s_storage_type s;
                   s_retention_count := s_retention_count s;
                   s_enabled := s_enabled s; s_last_run := Some stamp |}
              else s) (schedules w)) w).

(** The callback that [addJob] registers with the cron library: what
    happens each time the schedule fires. *)
Definition onTrigger (schedule : Schedule) : M unit :=
  log info ("Running schedule: " +:+ s_name schedule) ;;
  tryCatch
    (createBackup
       {| o_nodeId := s_node_id schedule; o_volumeName := None;
          o_storageType := s_storage_type schedule; o_backupId := None |} ;;
     t ← now;
     scheduleRepo_touch (s_id schedule) (iso_now env t) ;;
     applyRetention (s_node_id schedule) (s_storage_type schedule)
       (s_retention_count schedule))
    (fun err => log error ("Schedule failed: Error: " +:+ err)).

End Server.


(** * Vocabulary of the statements *)

(** ** Retention *)

(** [l] runs from the newest to the oldest run. *)
Definition newest_to_oldest (l : list Backup) : Prop :=
  StronglySorted (fun a b => created_at b <= created_at a) l.

(** The number of candidates that [toDelete] leaves in place. *)
Definition keptCount (keep : Z) (n : nat) : nat :=
  if keep <? Z.of_nat n then js_slice_start keep n else n.

(** The rows left by deleting, one id after the other, the rows [del]. *)
Definition survivors (del rows : list Backup) : list Backup :=
  List.filter (fun b => negb (existsb (fun d => id d =? id b) del)) rows.

(** The loop of [applyRetention] over the rows to delete. *)
Definition deleteEach (del : list Backup) : M unit :=
  forEach del
    (fun backup =>
       log info ("Retention: deleting backup " +:+ pretty (id backup)) ;;
       backupRepo_delete (id backup)).

(** The completed runs of a node on a storage kind. *)
Definition completedFor (nodeId : Z) (kind : StorageType)
    (rows : list Backup) : list Backup :=
  List.filter
    (fun b => (node_id b =? nodeId)
              && (bool_decide (storage_type b = kind)
                  && bool_decide (status b = completed))) rows.

(** What [applyRetention] works on, given the table. *)
Definition candidatesOf (nodeId : Z) (kind : StorageType)
    (rows : list Backup) : list Backup :=
  retentionCandidates kind
    (js_sort newest_first (List.filter (fun b => node_id b =? nodeId) rows)).

(** The table after [applyRetention]. *)
Definition afterRetention (nodeId : Z) (kind : StorageType) (keep : Z)
    (w : World) : list Backup :=
  backups (snd (applyRetention nodeId kind keep w)).


(** ** Relating the world before and after a computation *)

(** [rel R m]: whatever [m] does and however it ends, the world it leaves
    is related by [R] to the world it started from. *)
Definition rel (R : World -> World -> Prop) {A} (m : M A) : Prop :=
  forall w, R w (snd (m w)).

(** [m] does not throw. *)
Definition total {A} (m : M A) : Prop :=
  forall w, exists a, fst (m w) = Ok a.

(** The steps taken between [w] and [w']. *)
Definition appended (E : list Event -> Prop) (w w' : World) : Prop :=
  exists evs, trace w' = trace w ++ evs /\ E evs.

(** Event classes. *)
Definition is_db (e : Event) : bool :=
  match e with EDb _ => true | _ => false end.

Definition is_workload (e : Event) : bool :=
  match e with
  | EGetServerState _ | ESetServerState _ _ => true
  | _ => false
  end.

Definition is_start_of (v : string) (e : Event) : bool :=
  match e with
  | ESetServerState u start => String.eqb u v
  | _ => false
  end.

(** A workload-state call is made only for a UUID-shaped name. *)
Definition uuid_call (e : Event) : bool :=
  match e with
  | EGetServerState v | ESetServerState v _ => Js.isUuid v
  | _ => true
  end.

(** Every stop request is followed, later in the list, by a start request
    for the same server. *)
Fixpoint stopsAnswered (evs : list Event) : bool :=
  match evs with
  | [] => true
  | ESetServerState v stop :: rest =>
      existsb (is_start_of v) rest && stopsAnswered rest
  | _ :: rest => stopsAnswered rest
  end.

(** The steps that a run may take around a workload: calls are made for
    UUID-shaped names only, and every stop is answered by a start. *)
Definition safe_trace (evs : list Event) : bool :=
  forallb uuid_call evs && stopsAnswered evs.

(** The steps taken between two worlds of one execution. *)
Definition newEvents (w w' : World) : list Event :=
  drop (length (trace w)) (trace w').

Definition is_stop (e : Event) : bool :=
  match e with ESetServerState _ stop => true | _ => false end.

(** Steps of the stop phase for [vol]: the only requests are stops of
    [vol]. *)
Definition stop_phase (vol : string) (e : Event) : bool :=
  match e with
  | EGetServerState u => String.eqb u vol
  | ESetServerState u stop => String.eqb u vol
  | ESetServerState _ _ => false
  | EDb _ => false
  | _ => true
  end.

(** The relation between the worlds before and after a computation whose
    steps form a [safe_trace]. *)
Definition guarded (w w' : World) : Prop :=
  appended (fun evs => safe_trace evs = true) w w'.

(** Steps of the start phase for [vol]: the only request is a start of
    [vol]. *)
Definition start_phase (vol : string) (e : Event) : bool :=
  match e with
  | EGetServerState _ => false
  | ESetServerState u start => String.eqb u vol
  | ESetServerState _ _ => false
  | _ => true
  end.

Definition stop_steps (v : string) (w w' : World) : Prop :=
  appended (fun evs => forallb (stop_phase v) evs = true) w w'.

Definition start_steps (v : string) (w w' : World) : Prop :=
  appended (fun evs => forallb (start_phase v) evs = true) w w'.

(** Steps in which no request is sent to a server; its state may have
    been looked at. *)
Definition idle (e : Event) : bool :=
  match e with
  | ESetServerState _ _ => false
  | EDb _ => false
  | _ => true
  end.

Definition idle_steps (w w' : World) : Prop :=
  appended (fun evs => forallb idle evs = true) w w'.

(** The trace only grows. *)
Definition grows (w w' : World) : Prop := appended (fun _ => True) w w'.

(** The parts of the world that only a statement on the [backups] table
    changes stay as they are, nothing is written to the table, and the
    steps taken are all of class [E]. *)
Definition quiet (E : Event -> bool) (w w' : World) : Prop :=
  nodes w' = nodes w /\ settings w' = settings w
  /\ schedules w' = schedules w /\ backups w' = backups w
  /\ backup_seq w' = backup_seq w
  /\ (exists l, backup_logs w' = backup_logs w ++ l)
  /\ appended (fun evs => forallb E evs = true) w w'.

Definition not_db (e : Event) : bool := negb (is_db e).
Definition plain (e : Event) : bool := negb (is_db e) && negb (is_workload e).

(** ** Hoare triples

    [triple P m Q E]: started in a world that satisfies [P], the
    computation [m] either returns [a] in a world that satisfies [Q a], or
    throws [e] in a world that satisfies [E e]. *)
Definition triple {A} (P : World -> Prop) (m : M A)
    (Q : A -> World -> Prop) (E : string -> World -> Prop) : Prop :=
  forall w, P w ->
    match m w with
    | (Ok a, w') => Q a w'
    | (Throw e, w') => E e w'
    end.

(** ** The invariant of a run record *)

Definition is_set (o : option string) : bool :=
  match o with Some _ => true | None => false end.

(** [storage_path] is set iff the status is [completed] iff the progress
    is 100. *)
Definition row_okb (b : Backup) : bool :=
  Bool.eqb (is_set (storage_path b)) (bool_decide (status b = completed))
  && Bool.eqb (bool_decide (status b = completed)) (progress b =? 100).

Definition table_ok (rows : list Backup) : Prop :=
  forallb row_okb rows = true.

(** No row with id [i] is completed. *)
Definition open_run (i : Z) (rows : list Backup) : Prop :=
  forallb (fun b => negb (id b =? i)
                    || negb (bool_decide (status b = completed))) rows = true.

(** Since the trace was [t0], every state of the table that was written
    and the table as it is now satisfy the invariant. *)
Definition history_ok (t0 : list Event) (w : World) : Prop :=
  table_ok (backups w)
  /\ exists evs, trace w = t0 ++ evs
                 /\ forall rows, In (EDb rows) evs -> table_ok rows.

(** The invariant while the run [i] is under way: the history is fine and
    the record of the run is not completed. *)
Definition run_open (t0 : list Event) (i : Z) (w : World) : Prop :=
  history_ok t0 w /\ open_run i (backups w).

(** [f] keeps the id of a row, and turns a row that satisfies the
    invariant and is not completed into another such row. *)
Definition keeps_open (f : Backup -> Backup) : Prop :=
  forall b, row_okb b = true -> status b <> completed ->
            row_okb (f b) = true /\ status (f b) <> completed.

(** The id under which [createBackup] runs. *)
Definition runId (options : BackupOptions) (w : World) : Z :=
  match o_backupId options with
  | Some i => if negb (i =? 0) then i else fresh_id w
  | None => fresh_id w
  end.

(** The record of the run is known: the options name no record, and the
    run creates one, or they name a record of the table.  The table
    [backup_logs] refers to [backups] by a foreign key, which SQLite
    enforces and [backupLogRepo_add] leaves out: for options that name a
    record that does not exist, the first [backupLog] of the source
    throws.  What is proved about the log and the steps of a run is
    stated for runs whose record is known. *)
Definition record_known (options : BackupOptions) (w : World) : Prop :=
  o_backupId options = None \/ In (runId options w) (map id (backups w)).

(** A run may be resumed under the id it was submitted with when no row
    with that id is completed. *)
Definition resumable (options : BackupOptions) (w : World) : Prop :=
  forall i, o_backupId options = Some i -> open_run i (backups w).

(** The invariant of a run record, in the words of the specification. *)
Definition row_ok (b : Backup) : Prop :=
  (is_Some (storage_path b) <-> status b = completed)
  /\ (status b = completed <-> progress b = 100).

(** What stays as it is, and what only grows, while a run is carried out
    under an existing record: the settings, the nodes and the ids of the
    rows stay; the log entries and the trace grow. *)
Definition steady (w w' : World) : Prop :=
  settings w' = settings w /\ nodes w' = nodes w
  /\ map id (backups w') = map id (backups w)
  /\ (exists l, backup_logs w' = backup_logs w ++ l)
  /\ grows w w'.

(** The record of a failed run as the specification words it: status
    [failed], progress 0, and an error message of at most 200
    characters. *)
Definition failure_recorded_truncated (env : Env) (options : BackupOptions)
    (w : World) : Prop :=
  forall e, fst (createBackup env options w) = Throw e ->
  forall b, In b (backups (snd (createBackup env options w))) ->
            id b = runId options w ->
            status b = failed /\ progress b = 0
            /\ exists m, error_message b = Some m
                         /\ (String.length m <= 200)%nat.

(** ** The pieces of a run, named *)

(** The volume selector: [options.volumeName || 'all-volumes']. *)
Definition volumeNameOf (options : BackupOptions) : string :=
  Js.or_else (o_volumeName options) "all-volumes".

(** The name of the artifact of a run started in [w]. *)
Definition fileOf (env : Env) (options : BackupOptions) (node : Node)
    (w : World) : string :=
  n_name node +:+ "-" +:+ volumeNameOf options +:+ "-"
  +:+ Js.dashify (iso_now env (length (trace w))) +:+ ".tar.gz".

Definition volumesPathOf (env : Env) (node : Node) : string :=
  Js.or_else (n_volumes_path node) (default_volumes env).

(** The scratch directory and the temporary archive of a run. *)
Definition tempDirOf (env : Env) (backupId : Z) : string :=
  resolve env [data_dir env; "temp"; "backup-" +:+ pretty backupId].

Definition tempFileOf (env : Env) (file : string) : string :=
  resolve env [data_dir env; "temp"; file].

Definition localPathOf (env : Env) (backupId : Z) (vol : string) : string :=
  resolve env [tempDirOf env backupId; vol].

(** The volumes that a run goes through, given the listing of the node. *)
Definition volumesOf (options : BackupOptions) (entries : list DirEntry)
    : list string :=
  if String.eqb (volumeNameOf options) "all-volumes"
  then volume_names entries
  else [volumeNameOf options].

(** The outcome of the clean-up: [rmSync(tempDir)], then
    [unlinkSync(tempFile)]. *)
Definition cleanup (env : Env) (dir file : string) : Res unit :=
  match rmSync env dir with
  | Ok _ => unlinkSync env file
  | Throw e => Throw e
  end.

(** The calls that a run makes up to and including the archive succeed;
    what the downloads do is left open. *)
Record Smooth (env : Env) (entries : list DirEntry) (sz : Z) : Prop := {
  sm_key : forall p, readFile env p = Ok tt;
  sm_connect : forall h, sftp_connect env h = Ok tt;
  sm_list : forall p, sftp_list env p = Ok entries;
  sm_mkdir : forall p, mkdirSync env p = Ok tt;
  sm_end : sftp_end env = Ok tt;
  sm_archive : forall s d, archive env s d = Ok tt;
  sm_stat : forall p, statSync env p = Ok sz;
}.

(** The upload of [file] to the backend [kind] succeeds, with the settings
    [s]. *)
Definition uploads (env : Env) (kind : StorageType) (s : gmap string string)
    (localPath file : string) : Prop :=
  forall w, settings w = s ->
    exists p, fst (storage_upload env kind localPath file w) = Ok p.

(** Since the trace was [t0], the download of [vol] has been attempted. *)
Definition downloaded (env : Env) (node : Node) (backupId : Z)
    (t0 : list Event) (vol : string) (w : World) : Prop :=
  exists evs, trace w = t0 ++ evs
    /\ In (EDownloadDir (volumesPathOf env node +:+ "/" +:+ vol)
             (localPathOf env backupId vol)) evs.

(** Since the log entries were [l0], a warning has been logged for every
    way in which the download of [vol] fails. *)
Definition warned (env : Env) (node : Node) (backupId : Z)
    (l0 : list (Z * Level * string)) (vol : string) (w : World) : Prop :=
  forall msg,
    sftp_downloadDir env (volumesPathOf env node +:+ "/" +:+ vol)
      (localPathOf env backupId vol) = Throw msg ->
    exists l, backup_logs w = l0 ++ l
      /\ In (backupId, warn, "Failed to download " +:+ vol +:+ ": " +:+ msg) l.

(** The invariant of a smooth run: the settings are those of the start,
    the log entries and the trace have grown, and for each volume of
    [vs] the download has been attempted, with a warning logged if it
    failed. *)
Definition onCourse (env : Env) (node : Node) (s0 : gmap string string)
    (t0 : list Event) (l0 : list (Z * Level * string)) (i : Z)
    (vs : list string) (w : World) : Prop :=
  settings w = s0
  /\ (exists l, backup_logs w = l0 ++ l)
  /\ (exists evs, trace w = t0 ++ evs)
  /\ forall vol, In vol vs ->
       downloaded env node i t0 vol w /\ warned env node i l0 vol w.

(** The records of the run [i] are completed. *)
Definition done_rows (i : Z) (w : World) : Prop :=
  forall b, In b (backups w) -> id b = i ->
            status b = completed /\ progress b = 100
            /\ is_Some (storage_path b).

(** C2 as the specification words it, for one run: when download, archive
    and upload all succeed, the run ends [completed] whatever the clean-up
    does. *)
Definition cleanup_errors_only_logged (env : Env) (options : BackupOptions)
    (w : World) : Prop :=
  forall node entries sz,
    List.find (fun n => n_id n =? o_nodeId options) (nodes w) = Some node ->
    Smooth env entries sz ->
    uploads env (o_storageType options) (settings w)
      (tempFileOf env (fileOf env options node w))
      (fileOf env options node w) ->
    forall b, In b (backups (snd (createBackup env options w))) ->
              id b = runId options w -> status b = completed.

(** ** Storage backends *)

(** The path that the local backend builds for a file name. *)
Definition localPathFor (env : Env) (name : string) : string :=
  resolve env [local_base env; Path.basename name].

(** The path that the remote backend builds for a file name. *)
Definition remotePathFor (w : World) (name : string) : string :=
  Js.or_else (settings w !! "sftp_path") "/" +:+ "/" +:+ name.

(** C10 as the specification words it, for an unconfigured backend:
    [getSize] returns 0. *)
Definition getSize_zero_when_unconfigured (env : Env) (kind : StorageType)
    (name : string) (w : World) : Prop :=
  fst (storage_isConfigured kind w) = Ok false ->
  fst (storage_getSize env kind name w) = Ok 0.

(** Steps that are log lines or statements on the [backups] table. *)
Definition log_or_db (e : Event) : bool :=
  match e with
  | ELog _ _ | EDb _ => true
  | _ => false
  end.

Definition bookkeeping (w w' : World) : Prop :=
  appended (fun evs => forallb log_or_db evs = true) w w'.

(** The session to the node is as it was. *)
Definition same_session (w w' : World) : Prop :=
  session_open w' = session_open w.

(** ** Concrete scenarios

    A small installation used to run the model: one node [alpha] with two
    volumes, and an environment in which every library call succeeds unless
    the scenario says otherwise. *)

Module Scenario.

Definition alpha : Node :=
  mkNode 1 "alpha" "10.0.0.1" 22 "root" "password" None (Some "secret") None.

Definition listing : list DirEntry :=
  [mkEntry "d" "v1"; mkEntry "d" "v2"; mkEntry "-" "notes.txt";
   mkEntry "d" ".cache"].

(** The environment of a scenario, given the outcomes that vary. *)
Definition world_of
    (listR : Res (list DirEntry))
    (downloadR : string -> Res unit)
    (uploadR : Res unit)
    (unlinkR : Res unit)
    (panel : string -> nat -> HttpRes) : Env :=
  {| cwd := "/srv/app";
     data_dir := "/srv/app/data";
     local_base := "/srv/app/data/backups";
     default_volumes := "/var/lib/pterodactyl/volumes";
     iso_now := fun _ => "2024-01-01T10:00:00.000Z";
     date_now := fun t => 1000 * Z.of_nat t;
     formatSize := fun z => pretty z +:+ " B";
     readFile := fun _ => Ok tt;
     sftp_connect := fun _ => Ok tt;
     sftp_list := fun _ => listR;
     sftp_downloadDir := fun remotePath _ => downloadR remotePath;
     sftp_end := Ok tt;
     mkdirSync := fun _ => Ok tt;
     archive := fun _ _ => Ok tt;
     statSync := fun _ => Ok 2048;
     rmSync := fun _ => Ok tt;
     unlinkSync := fun _ => unlinkR;
     existsSync := fun _ => true;
     copyFile := fun _ _ => uploadR;
     http_resources := panel;
     http_power := fun _ _ _ => Ok tt;
     s3_put := fun _ _ => Ok tt;
     s3_head := fun _ _ => Ok (Some 2048);
     s3_remove := fun _ _ => Ok tt;
     st_connect := fun _ _ _ => Ok tt;
     st_exists := fun _ => Ok true;
     st_mkdir := fun _ => Ok tt;
     st_fastPut := fun _ _ => Ok tt;
     st_stat := fun _ => Ok 2048;
     st_remove := fun _ => Ok tt;
     st_end := Ok tt |}.

Definition no_panel : string -> nat -> HttpRes := fun _ _ => Http404.

(** Every call succeeds. *)
Definition calm : Env :=
  world_of (Ok listing) (fun _ => Ok tt) (Ok tt) (Ok tt) no_panel.

(** The directory listing of the node fails after the connection is up. *)
Definition listing_fails : Env :=
  world_of (Throw "read ECONNRESET") (fun _ => Ok tt) (Ok tt) (Ok tt)
    no_panel.

(** The download of volume [v1] fails. *)
Definition v1_fails : Env :=
  world_of (Ok listing)
    (fun p => if String.eqb p "/var/lib/pterodactyl/volumes/v1"
              then Throw "No such file" else Ok tt)
    (Ok tt) (Ok tt) no_panel.

(** Removing the temporary archive fails. *)
Definition unlink_fails : Env :=
  world_of (Ok listing) (fun _ => Ok tt) (Ok tt)
    (Throw "EBUSY: resource busy or locked") no_panel.

(** The copy into the local storage directory fails. *)
Definition upload_fails : Env :=
  world_of (Ok listing) (fun _ => Ok tt)
    (Throw "ENOSPC: no space left on device") (Ok tt) no_panel.

(** A message of 201 characters. *)
Definition long_message : string :=
  string_of_list_ascii (repeat "x"%char 201).

(** The directory listing fails with a long message. *)
Definition listing_fails_at_length : Env :=
  world_of (Throw long_message) (fun _ => Ok tt) (Ok tt) (Ok tt) no_panel.

(** An empty database with the node [alpha] and no settings. *)
Definition empty_db : World :=
  {| nodes := [alpha]; backups := []; backup_logs := []; backup_seq := 0;
     schedules := []; settings := ∅; session_open := false; trace := [] |}.

(** The same, with a Discord webhook configured. *)
Definition with_webhook : World :=
  {| nodes := [alpha]; backups := []; backup_logs := []; backup_seq := 0;
     schedules := [];
     settings := {[ "discord_webhook_url" := "https://discord.example/hook" ]};
     session_open := false; trace := [] |}.

Definition all_volumes_to_local : BackupOptions :=
  {| o_nodeId := 1; o_volumeName := None; o_storageType := local;
     o_backupId := None |}.

(** A finished run of [alpha] to local storage, created at time [t]. *)
Definition finished (i t : Z) (name : string) : Backup :=
  {| id := i; node_id := 1; volume_name := "all-volumes"; filename := name;
     size := 2048; storage_type := local;
     storage_path := Some ("/srv/app/data/backups/" +:+ name);
     status := completed; progress := 100; error_message := None;
     started_at := Some "2024-01-01T10:00:00.000Z";
     completed_at := Some "2024-01-01T10:05:00.000Z"; created_at := t |}.

Definition two_finished : World :=
  {| nodes := [alpha];
     backups := [finished 1 1000 "old.tar.gz"; finished 2 2000 "new.tar.gz"];
     backup_logs := [(1, info, "Starting backup: old.tar.gz")];
     backup_seq := 2; schedules := []; settings := ∅;
     session_open := false; trace := [] |}.

(** A run submitted through the API: the record exists and is pending. *)
Definition submitted : Backup :=
  {| id := 1; node_id := 1; volume_name := "all-volumes";
     filename := "pending"; size := 0; storage_type := local;
     storage_path := None; status := pending; progress := 0;
     error_message := None; started_at := None; completed_at := None;
     created_at := 500 |}.

Definition one_submitted : World :=
  {| nodes := [alpha]; backups := [submitted]; backup_logs := [];
     backup_seq := 1; schedules := []; settings := ∅;
     session_open := false; trace := [] |}.

Definition resume_submitted : BackupOptions :=
  {| o_nodeId := 1; o_volumeName := None; o_storageType := local;
     o_backupId := Some 1 |}.

(** The table after the submitted run has been carried out. *)
Definition resumed_table : list Backup :=
  backups (snd (createBackup calm resume_submitted one_submitted)).

(** A node with a server volume and a plain volume, a panel that reports
    the server as running until it has been asked three times, and a
    download of the server volume that fails. *)
Definition server : string := "0a1b2c3d-0000-4111-8aaa-0123456789ab".

Definition with_panel : World :=
  {| nodes := [alpha]; backups := []; backup_logs := []; backup_seq := 0;
     schedules := [];
     settings := {[ "ptero_url" := "https://panel.example/";
                    "ptero_key" := "ptlc_key" ]};
     session_open := false; trace := [] |}.

Definition running_server : Env :=
  world_of (Ok [mkEntry "d" server; mkEntry "d" "v2"])
    (fun p => if String.eqb p ("/var/lib/pterodactyl/volumes/" +:+ server)
              then Throw "Permission denied" else Ok tt)
    (Ok tt) (Ok tt)
    (fun _ t => if (t <? 20)%nat then HttpOk "running" else HttpOk "offline").

(** Five completed runs of [alpha] on local storage, oldest first. *)
Definition five_finished : World :=
  {| nodes := [alpha];
     backups := [finished 1 1000 "a.tar.gz"; finished 2 2000 "b.tar.gz";
                 finished 3 3000 "c.tar.gz"; finished 4 4000 "d.tar.gz";
                 finished 5 5000 "e.tar.gz"];
     backup_logs := []; backup_seq := 5; schedules := []; settings := ∅;
     session_open := false; trace := [] |}.

(** Settings of a remote filesystem backend. *)
Definition with_sftp : World :=
  {| nodes := [alpha]; backups := []; backup_logs := []; backup_seq := 0;
     schedules := [];
     settings := {[ "sftp_host" := "files.example";
                    "sftp_user" := "backup";
                    "sftp_path" := "/srv/backups" ]};
     session_open := false; trace := [] |}.

(** The file is not there: nothing exists, and every stat fails. *)
Definition nothing_there : Env :=
  {| cwd := cwd calm; data_dir := data_dir calm;
     local_base := local_base calm;
     default_volumes := default_volumes calm; iso_now := iso_now calm;
     date_now := date_now calm; formatSize := formatSize calm;
     readFile := readFile calm; sftp_connect := sftp_connect calm;
     sftp_list := sftp_list calm; sftp_downloadDir := sftp_downloadDir calm;
     sftp_end := sftp_end calm; mkdirSync := mkdirSync calm;
     archive := archive calm;
     statSync := fun _ => Throw "ENOENT: no such file or directory";
     rmSync := rmSync calm; unlinkSync := unlinkSync calm;
     existsSync := fun _ => false; copyFile := copyFile calm;
     http_resources := http_resources calm; http_power := http_power calm;
     s3_put := s3_put calm;
     s3_head := fun _ _ => Throw "NotFound";
     s3_remove := s3_remove calm; st_connect := st_connect calm;
     st_exists := st_exists calm; st_mkdir := st_mkdir calm;
     st_fastPut := st_fastPut calm;
     st_stat := fun _ => Throw "No such file";
     st_remove := st_remove calm; st_end := st_end calm |}.

End Scenario.

(** * The rest of the server

    The parts of the repository around the backup pipeline: the methods
    of the storage backends that read, the download of an artifact, the
    job registry of the scheduler, and the routes and helpers of the API
    that the properties below are about.  Strings are sequences of
    one-byte characters, as everywhere in this development. *)

(** ** Storage backends: the methods that read (server/storage.ts) *)

(** The library calls that only these methods make. *)
Record Reader := mkReader {
  readdirSync : string -> Res (list string);
  s3_getObject : string -> string -> Res bool;     (* is there a [Body] *)
  writeStream : string -> Res unit;                (* pipeline into a file *)
  s3_listObjects : string -> Res (option (list string));
  st_fastGet : string -> string -> Res unit;
  st_list : string -> Res (list DirEntry);
}.

(** [s.endsWith(suffix)] *)
Definition endsWith (suffix s : string) : bool :=
  (String.length suffix <=? String.length s)%nat
  && String.eqb
       (String.substring (String.length s - String.length suffix)
          (String.length suffix) s) suffix.

Section Storage.
Variable env : Env.
Variable rd : Reader.

Definition Local_list : M (list string) :=
  names ← lift (readdirSync rd (local_base env));
  ret (List.filter (endsWith ".tar.gz") names).

Definition S3_download (name localPath : string) : M unit :=
  conf ← S3_getConfig;
  if negb (Js.truthy (s3_bucket conf)) then throw "S3 Bucket not configured"
  else
    S3_getClient ;;
    body ← lift (s3_getObject rd (default "" (s3_bucket conf)) name);
    if body : bool then lift (writeStream rd localPath) else ret tt.

Definition S3_exists (name : string) : M bool :=
  conf ← S3_getConfig;
  if negb (Js.truthy (s3_bucket conf)) then ret false
  else
    tryCatch
      (S3_getClient ;;
       emit (EStorageHead cloud name) ;;
       lift (s3_head env (default "" (s3_bucket conf)) name) ;;
       ret true)
      (fun _ => ret false).

Definition S3_list : M (list string) :=
  conf ← S3_getConfig;
  if negb (Js.truthy (s3_bucket conf)) then ret []
  else
    tryCatch
      (S3_getClient ;;
       contents ← lift (s3_listObjects rd (default "" (s3_bucket conf)));
       ret (List.filter (endsWith ".tar.gz") (default [] contents)))
      (fun _ => ret []).

Definition Sftp_download (name localPath : string) : M unit :=
  Sftp_getClient env ;;
  tryFinally
    (dir ← Sftp_getPath;
     lift (st_fastGet rd (dir +:+ "/" +:+ name) localPath))
    (Sftp_end env).

Definition Sftp_exists (name : string) : M bool :=
  Sftp_getClient env ;;
  tryFinally
    (dir ← Sftp_getPath;
     lift (st_exists env (dir +:+ "/" +:+ name)))
    (Sftp_end env).

Definition Sftp_list : M (list string) :=
  Sftp_getClient env ;;
  tryFinally
    (tryCatch
       (dir ← Sftp_getPath;
        files ← lift (st_list rd dir);
        ret (map e_name
               (List.filter (fun f => endsWith ".tar.gz" (e_name f)) files)))
       (fun _ => ret []))
    (Sftp_end env).

Definition storage_download (kind : StorageType) (name localPath : string)
  : M unit :=
  match kind with
  | local => Local_download env name localPath
  | cloud => S3_download name localPath
  | remote => Sftp_download name localPath
  end.

Definition storage_exists (kind : StorageType) (name : string) : M bool :=
  match kind with
  | local => Local_exists env name
  | cloud => S3_exists name
  | remote => Sftp_exists name
  end.

Definition storage_list (kind : StorageType) : M (list string) :=
  match kind with
  | local => Local_list
  | cloud => S3_list
  | remote => Sftp_list
  end.

(** *** server/backup.ts: [getBackupFile] *)

(** What is handed to the download route: the file that the stream reads,
    and the name and size of the record. *)
Record BackupFile := mkBackupFile {
  f_stream : string;
  f_filename : string;
  f_size : Z;
}.

Definition getBackupFile (i : Z) : M (option BackupFile) :=
  found ← backupRepo_getById i;
  match found with
  | None => ret None
  | Some backup =>
      if negb (bool_decide (status backup = completed)) then ret None
      else if bool_decide (storage_type backup = local) then
        match storage_path backup with
        | Some filePath =>
            if negb (existsSync env filePath) then ret None
            else ret (Some (mkBackupFile filePath (filename backup)
                              (size backup)))
        | None => ret None
        end
      else
        let tempPath := resolve env [data_dir env; "temp"; filename backup] in
        storage_download (storage_type backup) (filename backup) tempPath ;;
        ret (Some (mkBackupFile tempPath (filename backup) (size backup)))
  end.

End Storage.

(** ** The job registry of the scheduler (server/scheduler.ts)

    The cron library keeps the tasks it was asked to schedule; a task is
    known to the scheduler by its handle, here its position in the list
    of all tasks ever created.  [cron.schedule] creates a running task,
    [task.stop()] stops it for good.  The module variable [jobs] maps the
    id of a schedule to the handle of its task. *)

Record Task := mkTask { t_schedule : Schedule; t_running : bool }.

Record Cron := mkCron { tasks : list Task; jobs : gmap Z nat }.

Definition no_jobs : Cron := mkCron [] ∅.

(** [task.stop()] on the task with handle [h]. *)
Definition stopTask (h : nat) (c : Cron) : Cron :=
  mkCron (alter (fun t => mkTask (t_schedule t) false) h (tasks c)) (jobs c).

Inductive Op := OAdd (s : Schedule) | ORemove (i : Z) | OStop.

Section Scheduler.
Variable cron_validate : string -> bool.

(** [SELECT * FROM schedules WHERE enabled = 1] *)
Definition scheduleRepo_getEnabled : M (list Schedule) :=
  fun w => (Ok (List.filter s_enabled (schedules w)), w).

Definition scheduleRepo_getById (i : Z) : M (option Schedule) :=
  fun w => (Ok (List.find (fun s => s_id s =? i) (schedules w)), w).

Definition addJob (schedule : Schedule) (c : Cron) : M Cron :=
  let c1 :=
    match jobs c !! s_id schedule with
    | Some h => stopTask h c
    | None => c
    end in
  if negb (s_enabled schedule) then ret c1
  else if negb (cron_validate (s_cron_expression schedule)) then
    log warn ("Invalid cron: " +:+ s_cron_expression schedule) ;;
    ret c1
  else
    let h := length (tasks c1) in
    let c2 :=
      mkCron (tasks c1 ++ [mkTask schedule true])
        (<[s_id schedule := h]> (jobs c1)) in
    log debug ("Scheduled: " +:+ s_name schedule +:+ " ("
               +:+ s_cron_expression schedule +:+ ")") ;;
    ret c2.

Definition removeJob (i : Z) (c : Cron) : Cron :=
  match jobs c !! i with
  | Some h => mkCron (tasks (stopTask h c)) (delete i (jobs c))
  | None => c
  end.

(** [for (const job of jobs.values()) job.stop(); jobs.clear()] *)
Definition stopScheduler (c : Cron) : M Cron :=
  let c1 := foldr stopTask c (snd <$> map_to_list (jobs c)) in
  log info "Scheduler stopped" ;;
  ret (mkCron (tasks c1) ∅).

Fixpoint addJobs (l : list Schedule) (c : Cron) : M Cron :=
  match l with
  | [] => ret c
  | s :: rest => c' ← addJob s c; addJobs rest c'
  end.

Definition initScheduler (c : Cron) : M Cron :=
  enabled ← scheduleRepo_getEnabled;
  c' ← addJobs enabled c;
  log info ("Loaded " +:+ pretty (Z.of_nat (base.size (jobs c')))
            +:+ " backup schedules") ;;
  ret c'.

(** A sequence of calls made by the routes of the API. *)
Definition runOp (o : Op) (c : Cron) : M Cron :=
  match o with
  | OAdd s => addJob s c
  | ORemove i => ret (removeJob i c)
  | OStop => stopScheduler c
  end.

Fixpoint runOps (l : list Op) (c : Cron) : M Cron :=
  match l with
  | [] => ret c
  | o :: rest => c' ← runOp o c; runOps rest c'
  end.

End Scheduler.

(** Every running task is the job registered for its schedule. *)
Definition registered (c : Cron) : Prop :=
  forall h t, tasks c !! h = Some t -> t_running t = true ->
              jobs c !! s_id (t_schedule t) = Some h.

(** *** The registry after each call *)

Section Registry.
Variable cron_validate : string -> bool.

(** The schedules for which [addJob] creates a task. *)
Definition loadable (s : Schedule) : bool :=
  s_enabled s && cron_validate (s_cron_expression s).

(** The registry once the old task of the schedule [i], if there is one,
    has been stopped. *)
Definition cleared (i : Z) (c : Cron) : Cron :=
  match jobs c !! i with
  | Some h => stopTask h c
  | None => c
  end.

(** The registry after [addJob]. *)
Definition added (s : Schedule) (c : Cron) : Cron :=
  let c1 :=
    match jobs c !! s_id s with
    | Some h => stopTask h c
    | None => c
    end in
  if s_enabled s && cron_validate (s_cron_expression s)
  then mkCron (tasks c1 ++ [mkTask s true])
         (<[s_id s := length (tasks c1)]> (jobs c1))
  else c1.

(** The registry after [stopScheduler]. *)
Definition stopped_all (c : Cron) : Cron :=
  mkCron (tasks (foldr stopTask c (snd <$> map_to_list (jobs c)))) ∅.

Definition stepped (o : Op) (c : Cron) : Cron :=
  match o with
  | OAdd s => added s c
  | ORemove i => removeJob i c
  | OStop => stopped_all c
  end.

End Registry.

(** ** Request bodies (server/api.ts)

    A value that [express.json()] hands to a route: what [JSON.parse]
    yields.  A number is a finite double, hence a fraction [n/d], or an
    infinity (a literal such as [1e999]); [NaN] cannot occur. *)

Inductive JsVal :=
| JUndefined
| JNull
| JBool (b : bool)
| JNum (n : Z) (d : positive)
| JInf (negative : bool)
| JStr (s : string)
| JObject.                       (* an object or an array *)

(** An object: its own properties, in the order of [Object.keys]. *)
Definition JsObj := list (string * JsVal).

(** [data[k]] *)
Fixpoint js_prop (data : JsObj) (k : string) : JsVal :=
  match data with
  | [] => JUndefined
  | (k', v) :: rest => if String.eqb k' k then v else js_prop rest k
  end.

(** [!!v] *)
Definition js_truthy (v : JsVal) : bool :=
  match v with
  | JUndefined | JNull => false
  | JBool b => b
  | JNum n _ => negb (n =? 0)
  | JInf _ => true
  | JStr s => negb (String.eqb s "")
  | JObject => true
  end.

Definition is_string (v : JsVal) : bool :=
  match v with JStr _ => true | _ => false end.

Definition is_number (v : JsVal) : bool :=
  match v with JNum _ _ | JInf _ => true | _ => false end.

(** [v.length] of a string. *)
Definition js_length (v : JsVal) : nat :=
  match v with JStr s => String.length s | _ => O end.

(** [v < k] and [v > k] for a number [v] and an integer [k]. *)
Definition js_lt (v : JsVal) (k : Z) : bool :=
  match v with
  | JNum n d => n <? k * Z.pos d
  | JInf negative => negative
  | _ => false
  end.

Definition js_gt (v : JsVal) (k : Z) : bool :=
  match v with
  | JNum n d => k * Z.pos d <? n
  | JInf negative => negb negative
  | _ => false
  end.

(** [['key', 'password'].includes(v)] *)
Definition is_auth_type (v : JsVal) : bool :=
  match v with
  | JStr s => String.eqb s "key" || String.eqb s "password"
  | _ => false
  end.

(** The double quote. *)
Definition dquote : string := String (ascii_of_nat 34) EmptyString.

(** [validateNode]: the message of the first check that fails, or
    [null]. *)
Definition validateNode (data : JsObj) : option string :=
  let name := js_prop data "name" in
  let host := js_prop data "host" in
  let port := js_prop data "port" in
  let username := js_prop data "username" in
  let auth_type := js_prop data "auth_type" in
  if negb (js_truthy name) || negb (is_string name)
     || (js_length name <? 1)%nat || (100 <? js_length name)%nat
  then Some "Name is required (1-100 characters)"
  else if negb (js_truthy host) || negb (is_string host)
  then Some "Host is required"
  else if js_truthy port
          && (negb (is_number port) || js_lt port 1 || js_gt port 65535)
  then Some "Port must be between 1 and 65535"
  else if negb (js_truthy username) || negb (is_string username)
  then Some "Username is required"
  else if js_truthy auth_type && negb (is_auth_type auth_type)
  then Some ("auth_type must be " +:+ dquote +:+ "key" +:+ dquote +:+ " or "
             +:+ dquote +:+ "password" +:+ dquote)
  else None.

(** ** Column whitelists (server/db.ts) *)

Definition ALLOWED_NODE_COLUMNS : list string :=
  ["name"; "host"; "port"; "username"; "auth_type"; "ssh_key_path";
   "ssh_password"; "volumes_path"; "status"].

Definition ALLOWED_BACKUP_COLUMNS : list string :=
  ["node_id"; "volume_name"; "filename"; "size"; "storage_type";
   "storage_path"; "status"; "progress"; "error_message"; "started_at";
   "completed_at"].

Definition ALLOWED_SCHEDULE_COLUMNS : list string :=
  ["node_id"; "name"; "cron_expression"; "storage_type"; "retention_count";
   "enabled"; "last_run"].

(** [arr.includes(k)] *)
Definition includes (l : list string) (k : string) : bool :=
  existsb (String.eqb k) l.

(** [arr.join(sep)] *)
Fixpoint js_join (sep : string) (l : list string) : string :=
  match l with
  | [] => ""
  | [x] => x
  | x :: rest => x +:+ sep +:+ js_join sep rest
  end.

(** [sanitizeUpdate]: the text of the [SET] clause and the values to
    bind. *)
Definition sanitizeUpdate (data : JsObj) (allowedColumns : list string)
  : Res (string * list JsVal) :=
  let safeKeys := List.filter (includes allowedColumns) (map fst data) in
  if (length safeKeys =? 0)%nat then Throw "No valid fields to update"
  else Ok (js_join ", " (map (fun k => k +:+ " = ?") safeKeys),
           map (js_prop data) safeKeys).

(** The statement that [nodeRepo.update], [backupRepo.update] and
    [scheduleRepo.update] prepare, and the values they bind to it. *)
Definition update_statement (table : string) (allowedColumns : list string)
    (i : Z) (data : JsObj) : Res (string * list JsVal) :=
  match sanitizeUpdate data allowedColumns with
  | Ok (fields, values) =>
      Ok ("UPDATE " +:+ table +:+ " SET " +:+ fields +:+ " WHERE id = ?",
          values ++ [JNum i 1])
  | Throw e => Throw e
  end.

Definition nodeRepo_update := update_statement "nodes" ALLOWED_NODE_COLUMNS.
Definition backupRepo_update_any :=
  update_statement "backups" ALLOWED_BACKUP_COLUMNS.
Definition scheduleRepo_update :=
  update_statement "schedules" ALLOWED_SCHEDULE_COLUMNS.

(** *** Vocabulary *)

(** A body that [validateNode] lets through. *)
Definition valid_node (data : JsObj) : Prop :=
  (exists name, js_prop data "name" = JStr name
                /\ (1 <= String.length name <= 100)%nat)
  /\ (exists host, js_prop data "host" = JStr host /\ host <> "")
  /\ (js_truthy (js_prop data "port") = false
      \/ exists n d, js_prop data "port" = JNum n d
                     /\ Z.pos d <= n <= 65535 * Z.pos d)
  /\ (exists user, js_prop data "username" = JStr user /\ user <> "")
  /\ (js_truthy (js_prop data "auth_type") = false
      \/ js_prop data "auth_type" = JStr "key"
      \/ js_prop data "auth_type" = JStr "password").

(** The characters of which the statements are made: letters, the
    underscore, the blank, and [=], [?] and [,]. *)
Definition sql_char (c : ascii) : bool :=
  let n := N_of_ascii c in
  ((97 <=? n) && (n <=? 122) || (65 <=? n) && (n <=? 90) || (n =? 95)
   || (n =? 32) || (n =? 61) || (n =? 63) || (n =? 44))%N.

Definition placeholders (s : string) : nat :=
  length (List.filter (Ascii.eqb "?") (list_ascii_of_string s)).

Definition clean (s : string) : bool :=
  forallb sql_char (list_ascii_of_string s).

(** A name without placeholders, made of the characters of a statement. *)
Definition plain_name (k : string) : bool :=
  clean k && (placeholders k =? 0)%nat.

(** ** The route that submits a run (server/api.ts) *)

Section Api.
Variable env : Env.

(** [POST /api/backups]: a pending record is created, the run is started
    under it, and the id of the record is the answer.  The run is not
    awaited by the route; what is described here is the route together
    with the run it has started, once that run has settled. *)
Definition postBackup (nodeId : Z) (volumeName : option string)
    (kind : StorageType) : M Z :=
  i ← backupRepo_create env nodeId (Js.or_else volumeName "all-volumes")
         "pending" kind (Some pending) None;
  tryCatch
    (createBackup env
       {| o_nodeId := nodeId; o_volumeName := volumeName;
          o_storageType := kind; o_backupId := Some i |} ;;
     ret tt)
    (fun err =>
       log error ("Backup " +:+ pretty i +:+ " failed: " +:+ err)) ;;
  ret i.

(** The run that the route starts: [createBackup] under the record that
    the route has created. *)
Definition submittedRun (nodeId : Z) (volumeName : option string)
    (kind : StorageType) (w : World) : Res Z * World :=
  createBackup env
    {| o_nodeId := nodeId; o_volumeName := volumeName;
       o_storageType := kind; o_backupId := Some (fresh_id w) |}
    (snd (backupRepo_create env nodeId
            (Js.or_else volumeName "all-volumes") "pending" kind
            (Some pending) None w)).

End Api.

(** ** More vocabulary *)

(** Nothing is written to the database and the session to the node stays
    as it is; steps may be taken. *)
Definition tables_kept (w w' : World) : Prop :=
  nodes w' = nodes w /\ backups w' = backups w
  /\ backup_logs w' = backup_logs w /\ backup_seq w' = backup_seq w
  /\ schedules w' = schedules w /\ settings w' = settings w
  /\ session_open w' = session_open w.

Definition schedules_kept (w w' : World) : Prop := schedules w' = schedules w.

(** The options with which a schedule starts its run. *)
Definition scheduledOptions (s : Schedule) : BackupOptions :=
  {| o_nodeId := s_node_id s; o_volumeName := None;
     o_storageType := s_storage_type s; o_backupId := None |}.

(** The world in which the run of a schedule starts: the line that
    announces it has been logged. *)
Definition announced (s : Schedule) (w : World) : World :=
  snd (log info ("Running schedule: " +:+ s_name s) w).

Definition is_ok {A} (r : Res A) : bool :=
  match r with Ok _ => true | Throw _ => false end.

(** The node can be reached: its key, when it logs in with one, can be
    read, the connection is accepted, and the volumes directory can be
    listed. *)
Definition node_answers (env : Env) (node : Node) : bool :=
  (if String.eqb (n_auth_type node) "key" && Js.truthy (n_ssh_key_path node)
   then is_ok (readFile env (default "" (n_ssh_key_path node)))
   else true)
  && is_ok (sftp_connect env (n_host node))
  && is_ok (sftp_list env (volumesPathOf env node)).

Definition is_node_test_failure (e : Event) : bool :=
  match e with
  | ELog error msg => Js.startsWith "Node test failed: Error: " msg
  | _ => false
  end.

Definition is_sleep (e : Event) : bool :=
  match e with ESleep _ => true | _ => false end.

(** The number of times a list of steps sleeps, and the time it sleeps
    in all, in milliseconds. *)
Definition naps (evs : list Event) : nat := length (List.filter is_sleep evs).

Definition slept (evs : list Event) : Z :=
  fold_right (fun e acc => match e with ESleep ms => ms + acc | _ => acc end)
    0 evs.

(** The steps taken from [w] to [w'] sleep at most [n] times, for five
    seconds each time. *)
Definition paced (n : nat) (w w' : World) : Prop :=
  appended (fun evs => (naps evs <= n)%nat
                       /\ slept evs = 5000 * Z.of_nat (naps evs)) w w'.

(** The outcome of the connection that [SftpStorage.getClient] opens
    with the settings of [w]. *)
Definition storageConnection (env : Env) (w : World) : Res unit :=
  st_connect env (default "" (settings w !! "sftp_host"))
    (port_or_22 (settings w !! "sftp_port"))
    (default "" (settings w !! "sftp_user")).

Definition is_session_step (e : Event) : bool :=
  match e with EStorageConnect | EStorageEnd => true | _ => false end.

(** The steps of a method of the remote backend on a configured backend:
    when the connection fails, it has been attempted and nothing else
    happened; when it is up, the last step is [client.end()], and the
    connection is opened and ended once. *)
Definition ends_what_it_opens (env : Env) {A} (m : M A) : Prop :=
  forall w,
    fst (storage_isConfigured remote w) = Ok true ->
    match storageConnection env w with
    | Throw e =>
        fst (m w) = Throw e /\ newEvents w (snd (m w)) = [EStorageConnect]
    | Ok _ =>
        exists evs,
          newEvents w (snd (m w)) = EStorageConnect :: evs ++ [EStorageEnd]
          /\ forallb (fun e => negb (is_session_step e)) evs = true
    end.

(** The settings stay, and no step opens or ends a storage connection. *)
Definition within_session (w w' : World) : Prop :=
  settings w' = settings w
  /\ appended (fun evs => forallb (fun e => negb (is_session_step e)) evs
                          = true) w w'.

(** A string of [n] hexadecimal digits. *)
Definition hex_string (n : nat) (s : string) : Prop :=
  String.length s = n
  /\ Forall (fun c => Js.isHex c = true) (list_ascii_of_string s).

(** The shape 8-4-4-4-12 of a UUID. *)
Definition uuid_shaped (s : string) : Prop :=
  exists a b c d e,
    s = a +:+ "-" +:+ b +:+ "-" +:+ c +:+ "-" +:+ d +:+ "-" +:+ e
    /\ hex_string 8 a /\ hex_string 4 b /\ hex_string 4 c
    /\ hex_string 4 d /\ hex_string 12 e.

(** ** Runs, notifications and log entries *)

(** The first steps of [createBackup], once the node has been found: the
    run is opened, announced in the log and to the webhook (backup.ts,
    lines 34-57). *)
Definition opening (env : Env) (options : BackupOptions) (node : Node)
    (volumeName file : string) : M Z :=
  backupId ← openRun env options volumeName file;
  backupLog backupId info ("Starting backup: " +:+ file) ;;
  backupRepo_updateProgress backupId 5 ;;
  sendWebhook wh_info "Backup Started"
    ("**" +:+ n_name node +:+ "** - " +:+ volumeName)
    [("Storage Type", storage_name (o_storageType options))] ;;
  ret backupId.

(** The notifications among a list of steps: their kinds and titles. *)
Definition notices (evs : list Event) : list (WebhookType * string) :=
  flat_map (fun e => match e with
                     | EWebhook k title _ _ => [(k, title)]
                     | _ => []
                     end) evs.

(** The settings stay and no notification is sent. *)
Definition hushed (w w' : World) : Prop :=
  settings w' = settings w /\ appended (fun evs => notices evs = []) w w'.

(** Since the trace was [t0], with the settings [s0] all along, the
    notifications [k] have been sent. *)
Definition notified (s0 : gmap string string) (t0 : list Event)
    (k : list (WebhookType * string)) (w : World) : Prop :=
  settings w = s0 /\ exists evs, trace w = t0 ++ evs /\ notices evs = k.

(** A notification, if a webhook is configured in [s0]. *)
Definition notice (s0 : gmap string string) (k : WebhookType)
    (title : string) : list (WebhookType * string) :=
  if Js.truthy (s0 !! "discord_webhook_url") then [(k, title)] else [].

(** What a finished run has told the webhook, by its outcome. *)
Definition closing_notice {A} (r : Res A) : WebhookType * string :=
  match r with
  | Ok _ => (wh_success, "Backup Completed")
  | Throw _ => (wh_error, "Backup Failed")
  end.

(** The log entries only grow, and the new ones belong to the run [i]. *)
Definition logged_for (i : Z) (w w' : World) : Prop :=
  exists l, backup_logs w' = backup_logs w ++ l
            /\ Forall (fun r => fst (fst r) = i) l.

(** ** More scenarios *)

Module Site.

(** Reads that find nothing. *)
Definition bare : Reader :=
  mkReader (fun _ => Ok []) (fun _ _ => Ok false) (fun _ => Ok tt)
    (fun _ => Ok None) (fun _ _ => Ok tt) (fun _ => Ok []).

(** A cron library that accepts every expression but ["bogus"]. *)
Definition validate (e : string) : bool := negb (String.eqb e "bogus").

Definition nightly : Schedule :=
  mkSchedule 7 1 "nightly" "0 3 * * *" local 3 true None.

(** The same schedule after an edit of its cron expression. *)
Definition nightly_at_two : Schedule :=
  mkSchedule 7 1 "nightly" "0 2 * * *" local 3 true None.

Definition weekly : Schedule :=
  mkSchedule 8 1 "weekly" "bogus" cloud 4 true None.

Definition paused : Schedule :=
  mkSchedule 9 1 "paused" "0 4 * * *" local 2 false None.

Definition planned : World :=
  {| nodes := [Scenario.alpha]; backups := []; backup_logs := [];
     backup_seq := 0; schedules := [nightly; weekly; paused];
     settings := ∅; session_open := false; trace := [] |}.

End Site.

(** ** Sizes for display (server/backup.ts, [formatSize])

    The numbers of [formatSize] are fractions [num/den]: its argument is
    the size of a file, an integer that a double holds exactly, and it
    only divides by 1024, a power of two, so that the double precision
    arithmetic of the source is exact. *)

Module Format.

Definition units : list string := ["B"; "KB"; "MB"; "GB"; "TB"].

(** [s.padStart(n, '0')] *)
Definition pad (n : nat) (s : string) : string :=
  string_of_list_ascii (repeat "0"%char (n - String.length s)) +:+ s.

(** [x.toFixed(digits)] for [x = num/den] below [1e21]: the decimal with
    [digits] places that is closest to [x], the larger one when two are
    equally close; the sign is put in front. *)
Definition toFixed (digits : nat) (num : Z) (den : positive) : string :=
  let scale := 10 ^ Z.of_nat digits in
  let n := (2 * Z.abs num * scale + Z.pos den) / (2 * Z.pos den) in
  (if num <? 0 then "-" else "")
  +:+ pretty (n / scale)
  +:+ (if (digits =? 0)%nat then ""
       else "." +:+ pad digits (pretty (n mod scale))).

(** The loop [while (size >= 1024 && i < units.length - 1)], with
    [fuel] values of [i] still to come. *)
Fixpoint scale (fuel : nat) (num : Z) (den : positive) (i : nat)
  : Z * positive * nat :=
  match fuel with
  | O => (num, den, i)
  | S fuel' =>
      if 1024 * Z.pos den <=? num
      then scale fuel' num (1024 * den) (S i)
      else (num, den, i)
  end.

Definition formatSize (bytes : Z) : string :=
  let '(num, den, i) := scale 4 bytes 1 0 in
  toFixed 2 num den +:+ " " +:+ nth i units "".

End Format.

(** * Properties *)

(** ** Facts about sorting and slicing *)

Section SortFacts.
Context {A : Type} (cmp : A -> A -> Z).

Lemma insert_sorted_perm (x : A) (l : list A) :
  Permutation (insert_sorted cmp x l) (x :: l).
Proof.
  induction l as [|y ys IH]; simpl; [reflexivity|].
  destruct (0 <? cmp x y); [|reflexivity].
  rewrite IH. apply perm_swap.
Qed.

Lemma js_sort_perm (l : list A) : Permutation (js_sort cmp l) l.
Proof.
  induction l as [|x xs IH]; simpl; [reflexivity|].
  rewrite insert_sorted_perm. now constructor.
Qed.

Lemma js_sort_In (x : A) (l : list A) : In x (js_sort cmp l) <-> In x l.
Proof.
  split; apply Permutation_in; [|symmetry]; apply js_sort_perm.
Qed.

Lemma js_sort_length (l : list A) : length (js_sort cmp l) = length l.
Proof. apply Permutation_length, js_sort_perm. Qed.
End SortFacts.

Lemma insert_newest_first (x : Backup) (l : list Backup) :
  newest_to_oldest l -> newest_to_oldest (insert_sorted newest_first x l).
Proof.
  unfold newest_to_oldest.
  induction 1 as [|y ys Hs IH Hy]; simpl.
  - repeat constructor.
  - unfold newest_first at 1.
    destruct (0 <? created_at y - created_at x) eqn:E.
    + apply Z.ltb_lt in E. constructor; [exact IH|].
      rewrite List.Forall_forall in *. intros z Hz.
      apply (Permutation_in _ (insert_sorted_perm newest_first x ys)) in Hz.
      destruct Hz as [<-|Hz]; [lia|auto].
    + apply Z.ltb_ge in E. constructor; [now constructor|].
      constructor; [lia|].
      rewrite List.Forall_forall in *. intros z Hz. specialize (Hy z Hz). lia.
Qed.

Lemma js_sort_newest_first (l : list Backup) :
  newest_to_oldest (js_sort newest_first l).
Proof.
  induction l as [|x xs IH]; simpl; [constructor|].
  now apply insert_newest_first.
Qed.

Lemma In_skipn_inv {A} (x : A) (n : nat) (l : list A) :
  In x (skipn n l) -> In x l.
Proof.
  intros H. rewrite <- (firstn_skipn n l). apply in_or_app. now right.
Qed.

Lemma In_firstn_inv {A} (x : A) (n : nat) (l : list A) :
  In x (firstn n l) -> In x l.
Proof.
  intros H. rewrite <- (firstn_skipn n l). apply in_or_app. now left.
Qed.

(** In a list that runs from newest to oldest, whatever is dropped from the
    front part is older than what is kept. *)
Lemma newest_to_oldest_split (n : nat) (l : list Backup) :
  newest_to_oldest l ->
  forall k d, In k (firstn n l) -> In d (skipn n l) ->
              created_at d <= created_at k.
Proof.
  unfold newest_to_oldest. intros Hs. revert n.
  induction Hs as [|y ys Hs IH Hy]; intros [|n] k d Hk Hd; simpl in *;
    try contradiction.
  destruct Hk as [<-|Hk].
  - rewrite List.Forall_forall in Hy. apply Hy. eapply In_skipn_inv; eauto.
  - eauto.
Qed.

(** ** Retention (scheduler.ts) *)

Lemma toDelete_drop (keep : Z) (cand : list Backup) :
  toDelete keep cand = skipn (keptCount keep (length cand)) cand.
Proof.
  unfold toDelete, keptCount, js_slice_from.
  destruct (keep <? Z.of_nat (length cand)); [reflexivity|].
  now rewrite skipn_all.
Qed.

Ltac split_ltb :=
  repeat match goal with
         | |- context [?a <? ?b] =>
             let E := fresh "E" in
             destruct (a <? b) eqn:E;
             [apply Z.ltb_lt in E | apply Z.ltb_ge in E]
         end.

Lemma toDelete_length (keep : Z) (cand : list Backup) :
  Z.of_nat (length (toDelete keep cand))
  <= Z.max 0 (Z.of_nat (length cand) - keep).
Proof.
  rewrite toDelete_drop, length_skipn. unfold keptCount, js_slice_start.
  split_ltb; lia.
Qed.

(** With a retention count between 0 and the number of candidates, exactly
    the surplus is deleted. *)
Lemma toDelete_length_exact (keep : Z) (cand : list Backup) :
  0 <= keep <= Z.of_nat (length cand) ->
  Z.of_nat (length (toDelete keep cand)) = Z.of_nat (length cand) - keep.
Proof.
  intros H. rewrite toDelete_drop, length_skipn.
  unfold keptCount, js_slice_start. split_ltb; lia.
Qed.

Lemma filter_filter {A} (f g : A -> bool) (l : list A) :
  List.filter f (List.filter g l) = List.filter (fun x => g x && f x) l.
Proof.
  induction l as [|x xs IH]; simpl; [reflexivity|].
  destruct (g x); simpl; [destruct (f x)|]; now rewrite IH.
Qed.

Lemma forEach_cons {A} (x : A) (xs : list A) (f : A -> M unit) (w : World) :
  forEach (x :: xs) f w
  = match f x w with
    | (Ok _, w') => forEach xs f w'
    | (Throw e, w') => (Throw e, w')
    end.
Proof. reflexivity. Qed.

Lemma deleteEach_run (del : list Backup) (w : World) :
  fst (deleteEach del w) = Ok tt
  /\ backups (snd (deleteEach del w)) = survivors del (backups w).
Proof.
  revert w. induction del as [|d ds IH]; intros w.
  - split; [reflexivity|]. unfold survivors. simpl.
    induction (backups w) as [|b bs IHb]; simpl; [reflexivity|]. now f_equal.
  - unfold deleteEach in *. rewrite forEach_cons.
    match goal with
    | |- context [match ?m w with _ => _ end] =>
        destruct (m w) as [r w1] eqn:E
    end.
    assert (r = Ok tt /\
            backups w1
            = List.filter (fun b => negb (id b =? id d)) (backups w))
      as [-> Hb] by (inversion E; subst; split; reflexivity).
    destruct (IH w1) as [H1 H2]. split; [exact H1|].
    rewrite H2, Hb. unfold survivors. simpl.
    rewrite filter_filter. apply filter_ext. intros b.
    rewrite Z.eqb_sym. destruct (id d =? id b); reflexivity.
Qed.

Lemma filter_perm {A} (f : A -> bool) (l l' : list A) :
  Permutation l l' -> Permutation (List.filter f l) (List.filter f l').
Proof.
  induction 1 as [|x l l' _ IH|x y l|l l' l'' _ IH1 _ IH2]; simpl.
  - constructor.
  - destruct (f x); [now constructor | exact IH].
  - destruct (f x), (f y); try reflexivity. apply perm_swap.
  - now rewrite IH1.
Qed.

Lemma id_determines_row (rows : list Backup) (a b : Backup) :
  List.NoDup (map id rows) -> In a rows -> In b rows -> id a = id b -> a = b.
Proof.
  induction rows as [|r rs IH]; simpl; intros Hnd Ha Hb Hid; [contradiction|].
  inversion Hnd as [|? ? Hnotin Hnd']; subst.
  destruct Ha as [->|Ha], Hb as [->|Hb]; auto.
  - exfalso. apply Hnotin. rewrite Hid. now apply in_map.
  - exfalso. apply Hnotin. rewrite <- Hid. now apply in_map.
Qed.

Lemma applyRetention_run (nodeId : Z) (kind : StorageType) (keep : Z)
    (w : World) :
  applyRetention nodeId kind keep w
  = deleteEach (toDelete keep (candidatesOf nodeId kind (backups w))) w.
Proof. reflexivity. Qed.

Lemma candidatesOf_perm (nodeId : Z) (kind : StorageType)
    (rows : list Backup) :
  Permutation (candidatesOf nodeId kind rows) (completedFor nodeId kind rows).
Proof.
  unfold candidatesOf, retentionCandidates, completedFor.
  rewrite js_sort_perm.
  rewrite (filter_perm _ _ _ (js_sort_perm newest_first _)).
  now rewrite filter_filter.
Qed.

Lemma completedFor_In (nodeId : Z) (kind : StorageType) (rows : list Backup)
    (b : Backup) :
  In b (completedFor nodeId kind rows)
  <-> In b rows /\ node_id b = nodeId /\ storage_type b = kind
      /\ status b = completed.
Proof.
  unfold completedFor. rewrite filter_In, !andb_true_iff, Z.eqb_eq,
    !bool_decide_eq_true. tauto.
Qed.

Lemma candidatesOf_In (nodeId : Z) (kind : StorageType) (rows : list Backup)
    (b : Backup) :
  In b (candidatesOf nodeId kind rows)
  <-> In b (completedFor nodeId kind rows).
Proof.
  split; apply Permutation_in; [|symmetry]; apply candidatesOf_perm.
Qed.

Lemma survivors_In (del rows : list Backup) (b : Backup) :
  In b (survivors del rows)
  <-> In b rows /\ forall d, In d del -> id d <> id b.
Proof.
  unfold survivors. rewrite filter_In, negb_true_iff.
  split; intros [Hb H]; split; auto.
  - intros d Hd Hid.
    assert (existsb (fun d => id d =? id b) del = true) as E
      by (apply existsb_exists; exists d; split;
          [exact Hd | now apply Z.eqb_eq]).
    congruence.
  - destruct (existsb _ del) eqn:E; [|reflexivity].
    apply existsb_exists in E as (d & Hd & Hid). apply Z.eqb_eq in Hid.
    now elim (H d Hd).
Qed.

Section Retention.
Variables (nodeId : Z) (kind : StorageType) (keep : Z) (w : World).
Hypothesis unique_ids : List.NoDup (map id (backups w)).

Lemma after_survivors :
  afterRetention nodeId kind keep w
  = survivors (toDelete keep (candidatesOf nodeId kind (backups w)))
      (backups w).
Proof.
  unfold afterRetention. rewrite applyRetention_run.
  apply deleteEach_run.
Qed.

Lemma del_in_cand (b : Backup) :
  In b (toDelete keep (candidatesOf nodeId kind (backups w))) ->
  In b (candidatesOf nodeId kind (backups w)).
Proof. rewrite toDelete_drop. apply In_skipn_inv. Qed.

Lemma cand_in_before (b : Backup) :
  In b (candidatesOf nodeId kind (backups w)) -> In b (backups w).
Proof. intros H. apply candidatesOf_In, completedFor_In in H. tauto. Qed.

(** The rows that disappear are exactly the rows chosen for deletion. *)
Lemma deleted_iff (b : Backup) :
  In b (backups w) /\ ~ In b (afterRetention nodeId kind keep w)
  <-> In b (toDelete keep (candidatesOf nodeId kind (backups w))).
Proof.
  rewrite after_survivors, survivors_In.
  set (del := toDelete keep (candidatesOf nodeId kind (backups w))).
  split.
  - intros [Hb Hn].
    destruct (existsb (fun d => id d =? id b) del) eqn:E.
    + apply existsb_exists in E as (d & Hd & Hid). apply Z.eqb_eq in Hid.
      assert (d = b) as <-; [|exact Hd].
      apply (id_determines_row (backups w)); auto.
      now apply cand_in_before, del_in_cand.
    + exfalso. apply Hn. split; [exact Hb|]. intros d Hd Hid.
      assert (existsb (fun d => id d =? id b) del = true) as E'
        by (apply existsb_exists; exists d; split;
            [exact Hd | now apply Z.eqb_eq]).
      congruence.
  - intros Hd. split; [now apply cand_in_before, del_in_cand|].
    intros [_ H]. now apply (H b Hd).
Qed.

Lemma deleted_count :
  Z.of_nat (length (backups w))
  - Z.of_nat (length (afterRetention nodeId kind keep w))
  <= Z.of_nat (length (toDelete keep (candidatesOf nodeId kind (backups w)))).
Proof.
  pose proof deleted_iff as Hdel.
  rewrite after_survivors in *.
  set (del := toDelete keep (candidatesOf nodeId kind (backups w))) in *.
  unfold survivors in *.
  pose proof (filter_length
                (fun b => existsb (fun d => id d =? id b) del) (backups w))
    as L.
  cbv beta in L.
  assert (Nat.le
            (length (List.filter
                       (fun b => existsb (fun d => id d =? id b) del)
                       (backups w)))
            (length del)) as Hle; [|lia].
  apply List.NoDup_incl_length.
  - apply List.NoDup_filter. eapply List.NoDup_map_inv. exact unique_ids.
  - intros b Hb. apply filter_In in Hb as [Hb E]. apply Hdel.
    split; [exact Hb|]. rewrite filter_In. intros [_ H].
    rewrite E in H. discriminate.
Qed.

Lemma kept_in_front (k : Backup) :
  In k (completedFor nodeId kind (afterRetention nodeId kind keep w)) ->
  In k (firstn (keptCount keep
                  (length (candidatesOf nodeId kind (backups w))))
          (candidatesOf nodeId kind (backups w))).
Proof.
  intros Hk. apply completedFor_In in Hk as (Hk & Hn & Hs & Hc).
  assert (In k (backups w)) as Hb
    by (rewrite after_survivors in Hk; apply survivors_In in Hk; tauto).
  assert (In k (candidatesOf nodeId kind (backups w))) as Hcand
    by (apply candidatesOf_In, completedFor_In; tauto).
  rewrite <- (firstn_skipn
                (keptCount keep
                   (length (candidatesOf nodeId kind (backups w))))
                (candidatesOf nodeId kind (backups w))) in Hcand.
  apply in_app_or in Hcand as [H|H]; [exact H|].
  exfalso. rewrite <- toDelete_drop in H.
  apply deleted_iff in H. tauto.
Qed.
End Retention.

Lemma candidatesOf_sorted (nodeId : Z) (kind : StorageType)
    (rows : list Backup) :
  newest_to_oldest (candidatesOf nodeId kind rows).
Proof. apply js_sort_newest_first. Qed.

(** C6.  [applyRetention] with retention count [keep], on a table whose ids
    are unique (they are the primary key): it returns normally; it only
    removes rows; the number of rows it removes is at most the number of
    completed runs of that node and storage kind minus [keep] (and never
    negative); every row it removes is a completed run of that node and
    storage kind, so no running or failed run is removed; and every row it
    removes is at most as recent, by creation time, as every completed
    run of that node and kind that it leaves: the oldest go first. *)
Theorem retention_prunes_oldest_completed
    (nodeId : Z) (kind : StorageType) (keep : Z) (w : World) :
  List.NoDup (map id (backups w)) ->
  fst (applyRetention nodeId kind keep w) = Ok tt
  /\ incl (afterRetention nodeId kind keep w) (backups w)
  /\ Z.of_nat (length (backups w))
     - Z.of_nat (length (afterRetention nodeId kind keep w))
     <= Z.max 0 (Z.of_nat (length (completedFor nodeId kind (backups w)))
                 - keep)
  /\ (forall b,
        In b (backups w) -> ~ In b (afterRetention nodeId kind keep w) ->
        node_id b = nodeId /\ storage_type b = kind /\ status b = completed)
  /\ (forall d k,
        In d (backups w) -> ~ In d (afterRetention nodeId kind keep w) ->
        In k (completedFor nodeId kind (afterRetention nodeId kind keep w)) ->
        created_at d <= created_at k).
Proof.
  intros Hids. repeat split.
  - rewrite applyRetention_run. apply deleteEach_run.
  - intros b. rewrite after_survivors. intros H.
    apply survivors_In in H. tauto.
  - etransitivity; [now apply deleted_count|].
    etransitivity; [apply toDelete_length|].
    now rewrite (Permutation_length
                   (candidatesOf_perm nodeId kind (backups w))).
  - assert (In b (toDelete keep (candidatesOf nodeId kind (backups w)))) as Hd
      by (apply deleted_iff; auto).
    apply del_in_cand, candidatesOf_In, completedFor_In in Hd. tauto.
  - assert (In b (toDelete keep (candidatesOf nodeId kind (backups w)))) as Hd
      by (apply deleted_iff; auto).
    apply del_in_cand, candidatesOf_In, completedFor_In in Hd. tauto.
  - assert (In b (toDelete keep (candidatesOf nodeId kind (backups w)))) as Hd
      by (apply deleted_iff; auto).
    apply del_in_cand, candidatesOf_In, completedFor_In in Hd. tauto.
  - intros d k Hd Hnd Hk.
    assert (In d (toDelete keep (candidatesOf nodeId kind (backups w)))) as Hdel
      by (apply deleted_iff; auto).
    rewrite toDelete_drop in Hdel.
    apply (newest_to_oldest_split
             (keptCount keep (length (candidatesOf nodeId kind (backups w))))
             (candidatesOf nodeId kind (backups w)));
      [apply candidatesOf_sorted | now apply kept_in_front | exact Hdel].
Qed.

Lemma retention_prunes_oldest_completed_witness :
  List.NoDup (map id (backups Scenario.two_finished))
  /\ map id (afterRetention 1 local 1 Scenario.two_finished) = [2]
  /\ Z.of_nat (length (backups Scenario.two_finished))
     - Z.of_nat (length (afterRetention 1 local 1 Scenario.two_finished))
     <= Z.max 0 (Z.of_nat (length (completedFor 1 local
                                     (backups Scenario.two_finished))) - 1).
Proof.
  assert (List.NoDup (map id (backups Scenario.two_finished))) as H.
  { simpl. constructor; [simpl; intros [E|[]]; discriminate|].
    constructor; [simpl; tauto | constructor]. }
  split; [exact H|]. split; [reflexivity|].
  exact (proj1 (proj2 (proj2
           (retention_prunes_oldest_completed 1 local 1
              Scenario.two_finished H)))).
Defined.

(** ** Reasoning about computations *)

Lemma bind_run {A B} (m : M A) (k : A -> M B) (w : World) :
  (m ≫= k) w
  = match m w with
    | (Ok a, w') => k a w'
    | (Throw e, w') => (Throw e, w')
    end.
Proof. reflexivity. Qed.

Lemma tryCatch_run {A} (m : M A) (h : string -> M A) (w : World) :
  tryCatch m h w
  = match m w with
    | (Ok a, w') => (Ok a, w')
    | (Throw e, w') => h e w'
    end.
Proof. reflexivity. Qed.

Section Rel.
Variable R : World -> World -> Prop.
Hypothesis R_refl : forall w, R w w.
Hypothesis R_trans : forall a b c, R a b -> R b c -> R a c.

Lemma rel_pure {A} (m : M A) : (forall w, snd (m w) = w) -> rel R m.
Proof. intros H w. rewrite H. apply R_refl. Qed.

Lemma rel_ret {A} (a : A) : rel R (ret a).
Proof. now apply rel_pure. Qed.

Lemma rel_mret {A} (a : A) : rel R (mret a).
Proof. now apply rel_pure. Qed.

Lemma rel_throw {A} (e : string) : rel R (@throw A e).
Proof. now apply rel_pure. Qed.

Lemma rel_lift {A} (r : Res A) : rel R (lift r).
Proof. now apply rel_pure. Qed.

Lemma rel_modify (f : World -> World) :
  (forall w, R w (f w)) -> rel R (modify f).
Proof. intros H w. apply H. Qed.

Lemma rel_bind {A B} (m : M A) (k : A -> M B) :
  rel R m -> (forall a, rel R (k a)) -> rel R (m ≫= k).
Proof.
  intros Hm Hk w. rewrite bind_run. specialize (Hm w).
  destruct (m w) as [[a|e] w']; simpl in *; [|exact Hm].
  eapply R_trans; [exact Hm | apply Hk].
Qed.

Lemma rel_tryCatch {A} (m : M A) (h : string -> M A) :
  rel R m -> (forall e, rel R (h e)) -> rel R (tryCatch m h).
Proof.
  intros Hm Hh w. rewrite tryCatch_run. specialize (Hm w).
  destruct (m w) as [[a|e] w']; simpl in *; [exact Hm|].
  eapply R_trans; [exact Hm | apply Hh].
Qed.

Lemma rel_tryFinally {A} (m : M A) (f : M unit) :
  rel R m -> rel R f -> rel R (tryFinally m f).
Proof.
  intros Hm Hf w. unfold tryFinally. specialize (Hm w).
  destruct (m w) as [r w']; simpl in *. specialize (Hf w').
  destruct (f w') as [[u|e] w'']; simpl in *;
    (eapply R_trans; [exact Hm | exact Hf]).
Qed.

Lemma rel_forEach {A} (l : list A) (f : A -> M unit) :
  (forall x, rel R (f x)) -> rel R (forEach l f).
Proof.
  intros H. induction l as [|x xs IH]; simpl.
  - apply rel_ret.
  - apply rel_bind; auto.
Qed.
End Rel.

(** The closing steps of a proof of [rel R m]: walk through the
    computation; [leaf] proves [R w (f w)] for the world updates met on the
    way, and the hint database [rel] holds what is known about loops. *)
Create HintDb rel.
Create HintDb total.

Ltac head_of t :=
  match t with
  | ?f _ => head_of f
  | _ => t
  end.

Ltac rel_walk refl trans leaf :=
  repeat first
    [ assumption
    | solve [eauto 2 with rel]
    | apply (rel_bind _ trans); [|intros ?]
    | apply (rel_tryCatch _ trans); [|intros ?]
    | apply (rel_tryFinally _ trans)
    | apply (rel_forEach _ refl trans); intros ?
    | apply (rel_pure _ refl); intros ?; reflexivity
    | apply rel_modify; intros ?; leaf
    | match goal with
      | |- rel _ (if ?b then _ else _) => destruct b
      | |- rel _ (match ?x with _ => _ end) => destruct x
      | |- rel _ (let _ := _ in _) => cbv zeta
      end
    | match goal with
      | |- rel _ ?m => let h := head_of m in progress unfold h
      end ].

(** *** [quiet] computations *)

Lemma appended_refl (E : list Event -> Prop) (w : World) :
  E [] -> appended E w w.
Proof. intros H. exists []. now rewrite app_nil_r. Qed.

Lemma appended_trans (E : list Event -> Prop) (a b c : World) :
  (forall x y, E x -> E y -> E (x ++ y)) ->
  appended E a b -> appended E b c -> appended E a c.
Proof.
  intros HE (x & Hx & Ex) (y & Hy & Ey). exists (x ++ y).
  split; [|now apply HE]. now rewrite Hy, Hx, app_assoc.
Qed.

Lemma forallb_app_true {A} (f : A -> bool) (x y : list A) :
  forallb f x = true -> forallb f y = true -> forallb f (x ++ y) = true.
Proof. intros Hx Hy. now rewrite forallb_app, Hx, Hy. Qed.

Lemma quiet_refl (E : Event -> bool) (w : World) : quiet E w w.
Proof.
  unfold quiet. repeat split; try reflexivity.
  - exists []. now rewrite app_nil_r.
  - now apply appended_refl.
Qed.

Lemma quiet_trans (E : Event -> bool) (a b c : World) :
  quiet E a b -> quiet E b c -> quiet E a c.
Proof.
  unfold quiet.
  intros (N1 & S1 & C1 & B1 & Q1 & (l1 & L1) & T1)
         (N2 & S2 & C2 & B2 & Q2 & (l2 & L2) & T2).
  repeat split; try congruence.
  - exists (l1 ++ l2). now rewrite L2, L1, app_assoc.
  - eapply appended_trans; eauto. apply forallb_app_true.
Qed.

Lemma quiet_weaken (E E' : Event -> bool) (w w' : World) :
  (forall e, E e = true -> E' e = true) -> quiet E w w' -> quiet E' w w'.
Proof.
  unfold quiet. intros H (N & S & C & B & Q & L & (evs & T & F)).
  repeat split; auto. exists evs. split; [exact T|].
  rewrite forallb_forall in *. auto.
Qed.

Ltac quiet_leaf :=
  unfold quiet, appended; simpl; repeat split; try reflexivity;
  first
    [ exists []; split; [now rewrite app_nil_r | reflexivity]
    | exists []; now rewrite app_nil_r
    | eexists; split; [reflexivity | reflexivity]
    | eexists; reflexivity ].

Ltac quiet_walk E :=
  rel_walk (quiet_refl E) (quiet_trans E) quiet_leaf.

Section Quiet.
Variable env : Env.

Lemma quiet_log (lvl : Level) (msg : string) : rel (quiet plain) (log lvl msg).
Proof. quiet_walk plain. Qed.

Lemma quiet_backupLog (i : Z) (lvl : Level) (msg : string) :
  rel (quiet plain) (backupLog i lvl msg).
Proof. quiet_walk plain. Qed.

Lemma quiet_sendWebhook (k : WebhookType) (t d : string)
    (f : list (string * string)) :
  rel (quiet plain) (sendWebhook k t d f).
Proof. quiet_walk plain. Qed.

Lemma quiet_storage_upload (kind : StorageType) (a b : string) :
  rel (quiet plain) (storage_upload env kind a b).
Proof. quiet_walk plain. Qed.

Lemma quiet_storage_delete (kind : StorageType) (a : string) :
  rel (quiet plain) (storage_delete env kind a).
Proof. quiet_walk plain. Qed.

Lemma quiet_connectToNode (node : Node) :
  rel (quiet plain) (connectToNode env node).
Proof. quiet_walk plain. Qed.

Lemma quiet_getServerState (v : string) :
  rel (quiet not_db) (getServerState env v).
Proof. quiet_walk not_db. Qed.

Lemma quiet_setServerState (v : string) (s : Signal) :
  rel (quiet not_db) (setServerState env v s).
Proof. quiet_walk not_db. Qed.

Lemma quiet_waitOffline (v : string) (j : nat) :
  rel (quiet not_db) (waitOffline env v j).
Proof.
  induction j as [|j IH]; simpl; quiet_walk not_db.
Qed.
End Quiet.

(** *** Computations that do not throw *)

Lemma total_pure {A} (m : M A) (a : World -> A) :
  (forall w, fst (m w) = Ok (a w)) -> total m.
Proof. intros H w. eauto. Qed.

Lemma total_ret {A} (a : A) : total (ret a).
Proof. intros w. now exists a. Qed.

Lemma total_modify (f : World -> World) : total (modify f).
Proof. intros w. now exists tt. Qed.

Lemma total_bind {A B} (m : M A) (k : A -> M B) :
  total m -> (forall a, total (k a)) -> total (m ≫= k).
Proof.
  intros Hm Hk w. rewrite bind_run. destruct (Hm w) as [a Ha].
  destruct (m w) as [r w']. simpl in Ha. subst r. apply Hk.
Qed.

Lemma total_tryCatch {A} (m : M A) (h : string -> M A) :
  (forall e, total (h e)) -> total (tryCatch m h).
Proof.
  intros Hh w. rewrite tryCatch_run.
  destruct (m w) as [[a|e] w']; [now exists a | apply Hh].
Qed.

Ltac total_walk :=
  repeat first
    [ assumption
    | solve [eauto 2 with total]
    | apply total_bind; [|intros ?]
    | apply total_tryCatch; intros ?
    | apply total_ret
    | apply total_modify
    | eapply total_pure; intros ?; reflexivity
    | match goal with
      | |- total (if ?b then _ else _) => destruct b
      | |- total (match ?x with _ => _ end) => destruct x
      end
    | match goal with
      | |- total ?m => let h := head_of m in progress unfold h
      end ].

Lemma total_run {A} (m : M A) (w : World) :
  total m -> exists a, m w = (Ok a, snd (m w)).
Proof.
  intros H. destruct (H w) as [a Ha]. exists a.
  destruct (m w) as [r w']. simpl in *. now subst.
Qed.

(** ** Safe backup: the stop and start around a download *)

Lemma stopsAnswered_app (x y : list Event) :
  stopsAnswered x = true -> stopsAnswered y = true ->
  stopsAnswered (x ++ y) = true.
Proof.
  induction x as [|e x IH]; simpl; intros Hx Hy; [exact Hy|].
  destruct e; auto. destruct sig; auto.
  apply andb_true_iff in Hx as [H1 H2].
  rewrite existsb_app, H1. simpl. auto.
Qed.

Lemma stopsAnswered_no_stop (x : list Event) :
  forallb (fun e => negb (is_stop e)) x = true -> stopsAnswered x = true.
Proof.
  induction x as [|e x IH]; simpl; intros H; [reflexivity|].
  apply andb_true_iff in H as [H1 H2].
  destruct e; auto. destruct sig; auto. discriminate.
Qed.

(** Stops of [v] that are still open are answered by a start of [v] that
    comes later. *)
Lemma stopsAnswered_pending (v : string) (x y : list Event) :
  forallb (stop_phase v) x = true ->
  existsb (is_start_of v) y = true ->
  stopsAnswered y = true ->
  stopsAnswered (x ++ y) = true.
Proof.
  induction x as [|e x IH]; simpl; intros Hx Hs Hy; [exact Hy|].
  apply andb_true_iff in Hx as [H1 H2].
  destruct e; auto. destruct sig; auto.
  simpl in H1. apply String.eqb_eq in H1 as ->.
  rewrite existsb_app, Hs, orb_true_r. simpl. auto.
Qed.

Lemma safe_trace_app (x y : list Event) :
  safe_trace x = true -> safe_trace y = true -> safe_trace (x ++ y) = true.
Proof.
  unfold safe_trace. rewrite !andb_true_iff. intros [A1 A2] [B1 B2].
  split; [now apply forallb_app_true | now apply stopsAnswered_app].
Qed.

Lemma safe_trace_plain (x : list Event) :
  forallb (fun e => negb (is_workload e)) x = true -> safe_trace x = true.
Proof.
  intros H. unfold safe_trace. apply andb_true_iff. split.
  - rewrite forallb_forall in *. intros e He. specialize (H e He).
    destruct e; simpl in *; auto; discriminate.
  - apply stopsAnswered_no_stop. rewrite forallb_forall in *.
    intros e He. specialize (H e He). destruct e; simpl in *; auto.
    discriminate.
Qed.

Lemma guarded_refl (w : World) : guarded w w.
Proof. now apply appended_refl. Qed.

Lemma guarded_trans (a b c : World) :
  guarded a b -> guarded b c -> guarded a c.
Proof. apply appended_trans, safe_trace_app. Qed.

Lemma quiet_plain_guarded (w w' : World) :
  quiet plain w w' -> guarded w w'.
Proof.
  intros (_ & _ & _ & _ & _ & _ & (evs & T & F)). exists evs.
  split; [exact T|]. apply safe_trace_plain.
  rewrite forallb_forall in *. intros e He. specialize (F e He).
  unfold plain in F. now apply andb_true_iff in F as [_ F].
Qed.

Section Workload.
Variable env : Env.

Lemma total_backupLog (i : Z) (lvl : Level) (msg : string) :
  total (backupLog i lvl msg).
Proof. total_walk. Qed.

Lemma total_getServerState (v : string) : total (getServerState env v).
Proof. total_walk. Qed.

Lemma total_setServerState (v : string) (s : Signal) :
  total (setServerState env v s).
Proof. total_walk. Qed.

Lemma total_waitOffline (v : string) (j : nat) : total (waitOffline env v j).
Proof.
  induction j as [|j IH]; simpl; [apply total_ret|].
  apply total_bind; [total_walk|intros _].
  apply total_bind; [apply total_getServerState|intros s].
  destruct (bool_decide _); [apply total_ret | exact IH].
Qed.

Lemma total_safeStop (i : Z) (v : string) : total (safeStop env i v).
Proof.
  unfold safeStop. destruct (Js.isUuid v); [|apply total_ret].
  apply total_tryCatch. intros _. apply total_ret.
Qed.

Lemma total_safeStart (i : Z) (v : string) (b : bool) :
  total (safeStart env i v b).
Proof.
  unfold safeStart. destruct b; [|apply total_ret].
  apply total_bind; [apply total_backupLog|intros _].
  apply total_tryCatch. intros _. apply total_backupLog.
Qed.

End Workload.

Lemma forallb_weaken {A} (f g : A -> bool) (l : list A) :
  (forall x, f x = true -> g x = true) ->
  forallb f l = true -> forallb g l = true.
Proof. intros H. rewrite !forallb_forall. auto. Qed.

Lemma stop_steps_refl (v : string) (w : World) : stop_steps v w w.
Proof. now apply appended_refl. Qed.

Lemma stop_steps_trans (v : string) (a b c : World) :
  stop_steps v a b -> stop_steps v b c -> stop_steps v a c.
Proof. apply appended_trans. intros x y. apply forallb_app_true. Qed.

Lemma start_steps_refl (v : string) (w : World) : start_steps v w w.
Proof. now apply appended_refl. Qed.

Lemma start_steps_trans (v : string) (a b c : World) :
  start_steps v a b -> start_steps v b c -> start_steps v a c.
Proof. apply appended_trans. intros x y. apply forallb_app_true. Qed.

Lemma idle_steps_refl (w : World) : idle_steps w w.
Proof. now apply appended_refl. Qed.

Lemma idle_steps_trans (a b c : World) :
  idle_steps a b -> idle_steps b c -> idle_steps a c.
Proof. apply appended_trans. intros x y. apply forallb_app_true. Qed.

Lemma grows_refl (w : World) : grows w w.
Proof. now apply appended_refl. Qed.

Lemma grows_trans (a b c : World) : grows a b -> grows b c -> grows a c.
Proof. now apply appended_trans. Qed.

Ltac steps_leaf :=
  unfold stop_steps, start_steps, idle_steps, guarded, grows, appended; simpl;
  first
    [ exists []; split; [now rewrite app_nil_r | reflexivity]
    | eexists; split;
      [reflexivity | simpl; rewrite ?String.eqb_refl; reflexivity] ].

Ltac stop_walk v :=
  rel_walk (stop_steps_refl v) (stop_steps_trans v) steps_leaf.
Ltac start_walk v :=
  rel_walk (start_steps_refl v) (start_steps_trans v) steps_leaf.
Ltac grows_walk :=
  rel_walk grows_refl grows_trans steps_leaf.
Ltac idle_walk :=
  rel_walk idle_steps_refl idle_steps_trans steps_leaf.

Section SafeBackup.
Variable env : Env.

Lemma idle_getServerState (v : string) :
  rel idle_steps (getServerState env v).
Proof. idle_walk. Qed.

Lemma stop_getServerState (v : string) :
  rel (stop_steps v) (getServerState env v).
Proof. stop_walk v. Qed.

Lemma stop_waitOffline (v : string) (j : nat) :
  rel (stop_steps v) (waitOffline env v j).
Proof. induction j as [|j IH]; simpl; stop_walk v. Qed.

Lemma idle_stop_steps (v : string) (w w' : World) :
  idle_steps w w' -> (forall e, idle e = true -> stop_phase v e = true) ->
  stop_steps v w w'.
Proof.
  intros (evs & T & F) H. exists evs. split; [exact T|].
  eapply forallb_weaken; eauto.
Qed.

(** What [safeStop] does: it never throws; it answers [true] only for a
    UUID-shaped name; its steps are those of the stop phase, and when it
    answers [false] no request was sent. *)
Lemma safeStop_spec (i : Z) (v : string) (w : World) :
  exists b,
    safeStop env i v w = (Ok b, snd (safeStop env i v w))
    /\ (b = true -> Js.isUuid v = true)
    /\ stop_steps v w (snd (safeStop env i v w))
    /\ (b = false -> idle_steps w (snd (safeStop env i v w))).
Proof.
  unfold safeStop. destruct (Js.isUuid v) eqn:U.
  2:{ exists false. repeat split; try discriminate.
      - apply stop_steps_refl.
      - intros _. apply idle_steps_refl. }
  rewrite tryCatch_run, bind_run.
  pose proof (idle_getServerState v w) as Hi.
  pose proof (stop_getServerState v w) as Hs.
  destruct (getServerState env v w) as [[st|e] w1]; simpl in Hi, Hs.
  2:{ exists false. simpl. repeat split; auto; discriminate. }
  destruct (Js.truthy st && negb (bool_decide (st = Some "offline"))).
  2:{ exists false. simpl. repeat split; auto; discriminate. }
  rewrite bind_run.
  match goal with
  | |- context [tryCatch ?m ?h w1] =>
      destruct (total_run (tryCatch m h) w1) as [u Hu];
      [apply total_tryCatch; intros _; apply total_ret|];
      assert (stop_steps v w1 (snd (tryCatch m h w1))) as Hstop
  end.
  { match goal with
    | |- stop_steps v w1 (snd (?m w1)) =>
        assert (rel (stop_steps v) m) as Hr; [|apply Hr]
    end.
    apply (rel_tryCatch _ (stop_steps_trans v)); [|intros ?; stop_walk v].
    apply (rel_bind _ (stop_steps_trans v)); [stop_walk v|intros ?].
    apply (rel_bind _ (stop_steps_trans v)); [stop_walk v|intros ?].
    apply stop_waitOffline. }
  rewrite Hu. exists true. simpl. repeat split; auto; try discriminate.
  eapply stop_steps_trans; eauto.
Qed.

Lemma setServerState_first (v : string) (s : Signal) (w : World) :
  exists evs,
    trace (snd (setServerState env v s w))
    = trace w ++ ESetServerState v s :: evs.
Proof.
  unfold setServerState. rewrite bind_run. simpl.
  match goal with
  | |- context [?k ?w1] =>
      match type of w1 with
      | World =>
          match k with
          | mbind _ _ =>
              assert (rel grows k) as Hr by grows_walk;
              destruct (Hr w1) as (evs & T & _)
          end
      end
  end.
  exists evs. rewrite T. simpl. now rewrite <- app_assoc.
Qed.

Lemma start_safeStart (i : Z) (v : string) (b : bool) :
  rel (start_steps v) (safeStart env i v b).
Proof. start_walk v. Qed.

(** When the server was running, [safeStart] asks for its start. *)
Lemma safeStart_asks (i : Z) (v : string) (w : World) :
  exists evs,
    trace (snd (safeStart env i v true w)) = trace w ++ evs
    /\ existsb (is_start_of v) evs = true.
Proof.
  unfold safeStart. rewrite bind_run.
  destruct (total_run (backupLog i info
              ("[Safe Backup] Restoring server " +:+ v +:+ "...")) w
              (total_backupLog _ _ _)) as [u Hu].
  rewrite Hu.
  assert (grows w (snd (backupLog i info
            ("[Safe Backup] Restoring server " +:+ v +:+ "...") w)))
    as (e1 & T1 & _).
  { match goal with
    | |- grows w (snd (?m w)) => assert (rel grows m) as Hr by grows_walk
    end. apply Hr. }
  set (w1 := snd (backupLog i info
               ("[Safe Backup] Restoring server " +:+ v +:+ "...") w)) in *.
  clearbody w1.
  rewrite tryCatch_run, bind_run.
  destruct (setServerState_first v start w1) as (e2 & T2).
  destruct (setServerState env v start w1) as [[ok|e] w2]; simpl in T2.
  - simpl. exists (e1 ++ ESetServerState v start :: e2).
    split; [now rewrite T2, T1, <- app_assoc|].
    rewrite existsb_app. simpl. rewrite String.eqb_refl.
    apply orb_true_r.
  - assert (grows w2 (snd (backupLog i warn "Failed to restart server" w2)))
      as (e3 & T3 & _).
    { match goal with
      | |- grows w2 (snd (?m w2)) => assert (rel grows m) as Hr by grows_walk
      end. apply Hr. }
    exists (e1 ++ (ESetServerState v start :: e2) ++ e3).
    split; [now rewrite T3, T2, T1, <- !app_assoc|].
    rewrite existsb_app. simpl. rewrite String.eqb_refl.
    apply orb_true_r.
Qed.

Lemma rel_ret_bind (R : World -> World -> Prop) {A B} (a : A)
    (k : A -> M B) :
  rel R (k a) -> rel R (ret a ≫= k).
Proof. intros H w. exact (H w). Qed.

Lemma guarded_phases (v : string) (x y : list Event) (b : bool) :
  Js.isUuid v = true ->
  forallb (stop_phase v) x = true ->
  forallb (start_phase v) y = true ->
  (b = false -> forallb idle x = true) ->
  (b = true -> existsb (is_start_of v) y = true) ->
  safe_trace (x ++ y) = true.
Proof.
  intros U Hx Hy Hidle Hstart. unfold safe_trace.
  apply andb_true_iff. split.
  - apply forallb_app_true.
    + eapply forallb_weaken; [|exact Hx]. intros e He.
      destruct e; simpl in *; auto.
      * apply String.eqb_eq in He as ->. exact U.
      * destruct sig; try discriminate.
        apply String.eqb_eq in He as ->. exact U.
    + eapply forallb_weaken; [|exact Hy]. intros e He.
      destruct e; simpl in *; auto; try discriminate.
      destruct sig; try discriminate.
      apply String.eqb_eq in He as ->. exact U.
  - assert (stopsAnswered y = true) as Sy.
    { apply stopsAnswered_no_stop.
      eapply forallb_weaken; [|exact Hy]. intros e He.
      destruct e; simpl in *; auto. destruct sig; auto; discriminate. }
    destruct b.
    + apply (stopsAnswered_pending v); auto.
    + apply stopsAnswered_app; [|exact Sy].
      apply stopsAnswered_no_stop.
      eapply forallb_weaken; [|apply Hidle; reflexivity]. intros e He.
      destruct e; simpl in *; auto; discriminate.
Qed.

Lemma guarded_backupVolume (i : Z) (vp td : string) (n k : nat)
    (vol : string) :
  rel guarded (backupVolume env i vp td n k vol).
Proof.
  unfold backupVolume. cbv zeta.
  destruct (Js.isUuid vol) eqn:U.
  2:{ apply (rel_bind _ guarded_trans);
        [rel_walk guarded_refl guarded_trans steps_leaf|intros _].
      unfold safeStop. rewrite U. apply rel_ret_bind.
      unfold safeStart.
      rel_walk guarded_refl guarded_trans steps_leaf. }
  intros w. rewrite bind_run.
  match goal with
  | |- context [fs_mkdir env ?p w] =>
      assert (rel (stop_steps vol) (fs_mkdir env p)) as H1
        by stop_walk vol;
      assert (rel idle_steps (fs_mkdir env p)) as H1i by idle_walk;
      assert (rel guarded (fs_mkdir env p)) as H1g
        by rel_walk guarded_refl guarded_trans steps_leaf;
      specialize (H1 w); specialize (H1i w); specialize (H1g w);
      destruct (fs_mkdir env p w) as [[u|e] w1]
  end; simpl in H1, H1i, H1g; [|exact H1g].
  rewrite bind_run.
  destruct (safeStop_spec i vol w1) as (b & Hb & _ & Hs & Hi).
  rewrite Hb.
  set (w2 := snd (safeStop env i vol w1)) in *. clearbody w2.
  (* the steps from the start of the body to the end of the stop phase *)
  assert (stop_steps vol w w2) as (x & Tx & Fx)
    by (eapply stop_steps_trans; eauto).
  assert (b = false -> idle_steps w w2) as Hidle
    by (intros E; eapply idle_steps_trans; eauto).
  (* the rest of the body *)
  match goal with
  | |- guarded w (snd (?m w2)) =>
      assert (rel (start_steps vol) m) as Hy by start_walk vol;
      destruct (Hy w2) as (y & Ty & Fy);
      assert (b = true ->
              exists y', trace (snd (m w2)) = trace w2 ++ y'
                         /\ existsb (is_start_of vol) y' = true) as Hask
  end.
  { intros ->. rewrite bind_run.
    match goal with
    | |- context [backupLog i info ?msg w2] =>
        destruct (total_run (backupLog i info msg) w2
                    (total_backupLog _ _ _)) as [u1 E1];
        assert (grows w2 (snd (backupLog i info msg w2)))
          as (e1 & T1 & _);
        [ assert (rel grows (backupLog i info msg)) as Hr by grows_walk;
          apply Hr | ];
        rewrite E1;
        set (w3 := snd (backupLog i info msg w2)) in *; clearbody w3
    end.
    rewrite bind_run.
    match goal with
    | |- context [tryCatch ?m ?h w3] =>
        destruct (total_run (tryCatch m h) w3) as [u2 E2];
        [apply total_tryCatch; intros ?; apply total_backupLog|];
        assert (grows w3 (snd (tryCatch m h w3))) as (e2 & T2 & _);
        [ assert (rel grows (tryCatch m h)) as Hr by grows_walk;
          apply Hr | ];
        rewrite E2;
        set (w4 := snd (tryCatch m h w3)) in *; clearbody w4
    end.
    rewrite bind_run.
    destruct (safeStart_asks i vol w4) as (e3 & T3 & F3).
    destruct (total_run (safeStart env i vol true) w4
                (total_safeStart _ _ _ _)) as [u3 E3].
    rewrite E3.
    set (w5 := snd (safeStart env i vol true w4)) in *. clearbody w5.
    match goal with
    | |- context [backupRepo_updateProgress i ?p w5] =>
        assert (grows w5 (snd (backupRepo_updateProgress i p w5)))
          as (e4 & T4 & _);
        [ assert (rel grows (backupRepo_updateProgress i p)) as Hr
            by grows_walk;
          apply Hr | ]
    end.
    exists (e1 ++ e2 ++ e3 ++ e4).
    split; [now rewrite T4, T3, T2, T1, <- !app_assoc|].
    rewrite !existsb_app, F3. now rewrite !orb_true_r. }
  exists (x ++ y). split; [now rewrite Ty, Tx, <- app_assoc|].
  apply (guarded_phases vol x y b); auto.
  - intros E. destruct (Hidle E) as (x' & Tx' & Fx').
    rewrite Tx in Tx'. apply app_inv_head in Tx'. now subst.
  - intros E. destruct (Hask E) as (y' & Ty' & Fy').
    rewrite Ty in Ty'. apply app_inv_head in Ty'. now subst.
Qed.

Lemma guarded_forVolumes (i : Z) (vp td : string) (n k : nat)
    (vols : list string) :
  rel guarded (forVolumes env i vp td n k vols).
Proof.
  revert k. induction vols as [|v vs IH]; intros k; simpl.
  - apply (rel_ret _ guarded_refl).
  - apply (rel_bind _ guarded_trans);
      [apply guarded_backupVolume | intros _; apply IH].
Qed.

Lemma guarded_createBackup (options : BackupOptions) :
  rel guarded (createBackup env options).
Proof.
  pose proof guarded_forVolumes.
  rel_walk guarded_refl guarded_trans steps_leaf.
Qed.
End SafeBackup.

(** What the two checks of a trace mean. *)
Lemma uuid_call_spec (evs : list Event) :
  forallb uuid_call evs = true ->
  forall v,
    In (EGetServerState v) evs \/ (exists s, In (ESetServerState v s) evs) ->
    Js.isUuid v = true.
Proof.
  rewrite forallb_forall. intros H v [Hin|[s Hin]]; exact (H _ Hin).
Qed.

Lemma stopsAnswered_spec (evs : list Event) :
  stopsAnswered evs = true ->
  forall l1 l2 v,
    evs = l1 ++ ESetServerState v stop :: l2 ->
    In (ESetServerState v start) l2.
Proof.
  intros H l1 l2 v ->. induction l1 as [|e l1 IH]; simpl in H.
  - apply andb_true_iff in H as [H _].
    apply existsb_exists in H as (e & He & Hs).
    destruct e; try discriminate. destruct sig; try discriminate.
    simpl in Hs. apply String.eqb_eq in Hs as ->. exact He.
  - apply IH. destruct e; auto. destruct sig; auto.
    now apply andb_true_iff in H as [_ H].
Qed.

(** C7.  In every run of [createBackup], whatever the environment answers
    (in particular whether a download succeeds or throws): a workload-state
    call, [getServerState] or [setServerState], is only ever made for a
    volume whose name has the canonical UUID format, so none is made for a
    volume whose name has not; and every stop that was requested is
    followed, later in the run, by a start request for the same server. *)
Theorem workload_calls_are_guarded (env : Env) (options : BackupOptions)
    (w : World) :
  forallb uuid_call (newEvents w (snd (createBackup env options w))) = true
  /\ stopsAnswered (newEvents w (snd (createBackup env options w))) = true.
Proof.
  destruct (guarded_createBackup env options w) as (evs & T & S).
  unfold newEvents. rewrite T, skipn_app, Nat.sub_diag, skipn_all. simpl.
  now apply andb_true_iff in S.
Qed.

(** A server that is running is stopped, waited for, and started again
    although the download of its volume fails; the plain volume [v2] is
    downloaded without any call to the panel. *)
Example safe_backup_of_a_running_server :
  List.filter
    (fun e => is_workload e
              || match e with EDownloadDir _ _ => true | _ => false end)
    (trace (snd (createBackup Scenario.running_server
                   Scenario.all_volumes_to_local Scenario.with_panel)))
  = [EGetServerState Scenario.server;
     ESetServerState Scenario.server stop;
     EGetServerState Scenario.server;
     EGetServerState Scenario.server;
     EGetServerState Scenario.server;
     EDownloadDir ("/var/lib/pterodactyl/volumes/" +:+ Scenario.server)
       ("/srv/app/data/temp/backup-1/" +:+ Scenario.server);
     ESetServerState Scenario.server start;
     EDownloadDir "/var/lib/pterodactyl/volumes/v2"
       "/srv/app/data/temp/backup-1/v2"].
Proof. vm_compute. reflexivity. Qed.


(** ** Rules for triples *)

Lemma triple_bind {A B} (P : World -> Prop) (m : M A) (k : A -> M B)
    (R : A -> World -> Prop) (Q : B -> World -> Prop)
    (E : string -> World -> Prop) :
  triple P m R E -> (forall a, triple (R a) (k a) Q E) ->
  triple P (m ≫= k) Q E.
Proof.
  intros Hm Hk w Hw. rewrite bind_run. specialize (Hm w Hw).
  destruct (m w) as [[a|e] w']; [now apply Hk | exact Hm].
Qed.

Lemma triple_tryCatch {A} (P : World -> Prop) (m : M A)
    (h : string -> M A) (Q : A -> World -> Prop)
    (E' E : string -> World -> Prop) :
  triple P m Q E' -> (forall e, triple (E' e) (h e) Q E) ->
  triple P (tryCatch m h) Q E.
Proof.
  intros Hm Hh w Hw. rewrite tryCatch_run. specialize (Hm w Hw).
  destruct (m w) as [[a|e] w']; [exact Hm | now apply Hh].
Qed.

Lemma triple_conseq {A} (P P' : World -> Prop) (m : M A)
    (Q Q' : A -> World -> Prop) (E E' : string -> World -> Prop) :
  triple P' m Q' E' ->
  (forall w, P w -> P' w) ->
  (forall a w, Q' a w -> Q a w) ->
  (forall e w, E' e w -> E e w) ->
  triple P m Q E.
Proof.
  intros H HP HQ HE w Hw. specialize (H w (HP w Hw)).
  destruct (m w) as [[a|e] w']; auto.
Qed.

Lemma triple_ret {A} (P : World -> Prop) (a : A)
    (E : string -> World -> Prop) :
  triple P (ret a) (fun b w => b = a /\ P w) E.
Proof. intros w Hw. simpl. auto. Qed.

(** Reading the world does not change it. *)
Lemma triple_read {A} (P : World -> Prop) (m : M A) (f : World -> A)
    (E : string -> World -> Prop) :
  (forall w, m w = (Ok (f w), w)) ->
  triple P m (fun a w => (exists w0, a = f w0) /\ P w) E.
Proof. intros H w Hw. rewrite H. eauto. Qed.

(** A computation related by [R] to its start keeps whatever [R]
    preserves. *)
Lemma triple_rel {A} (R : World -> World -> Prop) (P P' : World -> Prop)
    (m : M A) :
  rel R m -> (forall w w', P w -> R w w' -> P' w') ->
  triple P m (fun _ => P') (fun _ => P').
Proof.
  intros Hr HP w Hw. specialize (Hr w).
  destruct (m w) as [[a|e] w']; simpl in Hr; eauto.
Qed.

Lemma triple_rel_total {A} (R : World -> World -> Prop)
    (P P' : World -> Prop) (m : M A) :
  rel R m -> total m -> (forall w w', P w -> R w w' -> P' w') ->
  triple P m (fun _ => P') (fun _ _ => False).
Proof.
  intros Hr Ht HP w Hw. specialize (Hr w). destruct (Ht w) as [a Ha].
  destruct (m w) as [[b|e] w']; simpl in *; [eauto | discriminate].
Qed.

(** ** The invariant of a run record: proofs *)

Lemma eqb_iff (a b : bool) :
  Bool.eqb a b = true <-> (a = true <-> b = true).
Proof. destruct a, b; simpl; intuition discriminate. Qed.

Lemma is_set_iff (o : option string) : is_set o = true <-> is_Some o.
Proof.
  destruct o; simpl; split; intros H; eauto; try discriminate.
  destruct H; discriminate.
Qed.

(** The invariant in the words of the claim. *)
Lemma row_okb_iff (b : Backup) :
  row_okb b = true
  <-> ((is_Some (storage_path b) <-> status b = completed)
       /\ (status b = completed <-> progress b = 100)).
Proof.
  unfold row_okb.
  now rewrite andb_true_iff, !eqb_iff, is_set_iff, bool_decide_eq_true,
    Z.eqb_eq.
Qed.

Lemma history_quiet (t0 : list Event) (w w' : World) :
  history_ok t0 w -> quiet not_db w w' -> history_ok t0 w'.
Proof.
  intros [Hb (evs & T & H)] (_ & _ & _ & B & _ & _ & (x & Tx & Fx)).
  split; [now rewrite B|]. exists (evs ++ x).
  split; [now rewrite Tx, T, app_assoc|].
  intros rows Hin. apply in_app_or in Hin as [Hin|Hin]; [auto|].
  rewrite forallb_forall in Fx. specialize (Fx _ Hin). discriminate.
Qed.

Lemma run_open_quiet (t0 : list Event) (i : Z) (w w' : World) :
  run_open t0 i w -> quiet not_db w w' -> run_open t0 i w'.
Proof.
  intros [H O] Q. split; [eapply history_quiet; eauto|].
  destruct Q as (_ & _ & _ & B & _). now rewrite B.
Qed.

Lemma history_write (t0 : list Event) (w : World) (rows : list Backup) :
  history_ok t0 w -> table_ok rows -> history_ok t0 (with_backups rows w).
Proof.
  intros [Hb (evs & T & H)] Hr. split; [exact Hr|].
  exists (evs ++ [EDb rows]). simpl. split; [now rewrite T, app_assoc|].
  intros r Hin. apply in_app_or in Hin as [Hin|[Hin|[]]]; [auto|].
  now inversion Hin; subst.
Qed.

Lemma update_keeps_open (i : Z) (f : Backup -> Backup)
    (rows : list Backup) :
  keeps_open f -> (forall b, id (f b) = id b) ->
  table_ok rows -> open_run i rows ->
  table_ok (map (fun b => if id b =? i then f b else b) rows)
  /\ open_run i (map (fun b => if id b =? i then f b else b) rows).
Proof.
  unfold table_ok, open_run. intros Hf Hid.
  induction rows as [|b bs IH]; simpl; [auto|].
  rewrite !andb_true_iff. intros [Hb Hbs] [Ob Obs].
  destruct (IH Hbs Obs) as [IH1 IH2].
  destruct (id b =? i) eqn:E; [|rewrite E; auto].
  simpl in Ob. apply negb_true_iff, bool_decide_eq_false in Ob.
  destruct (Hf b Hb Ob) as [F1 F2].
  rewrite Hid, E. simpl. repeat split; auto.
  now apply negb_true_iff, bool_decide_eq_false.
Qed.

Lemma triple_update_open (t0 : list Event) (i : Z) (f : Backup -> Backup) :
  keeps_open f -> (forall b, id (f b) = id b) ->
  triple (run_open t0 i) (update_rows i f)
    (fun _ => run_open t0 i) (fun _ _ => False).
Proof.
  intros Hf Hid w [H O]. simpl.
  destruct (update_keeps_open i f (backups w) Hf Hid (proj1 H) O) as [T O'].
  split; [now apply history_write | exact O'].
Qed.

Lemma keeps_open_progress (v : Z) : v <> 100 -> keeps_open (set_progress v).
Proof.
  intros Hv b Hb Hs. split; [|exact Hs].
  apply row_okb_iff in Hb as [H1 H2]. apply row_okb_iff. simpl.
  split; [exact H1|]. split; [tauto | intros; contradiction].
Qed.

Lemma keeps_open_failed (msg : string) : keeps_open (set_failed msg).
Proof.
  intros b Hb Hs. split; [|simpl; discriminate].
  apply row_okb_iff in Hb as [H1 H2]. apply row_okb_iff. simpl.
  split; split; try discriminate; intros H; tauto.
Qed.

Lemma triple_updateProgress (t0 : list Event) (i v : Z) :
  v <> 100 ->
  triple (run_open t0 i) (backupRepo_updateProgress i v)
    (fun _ => run_open t0 i) (fun _ _ => False).
Proof.
  intros Hv. apply triple_update_open; [now apply keeps_open_progress|].
  reflexivity.
Qed.

Lemma triple_fail (t0 : list Event) (i : Z) (msg : string) :
  triple (run_open t0 i) (backupRepo_fail i msg)
    (fun _ => run_open t0 i) (fun _ _ => False).
Proof.
  apply triple_update_open; [apply keeps_open_failed | reflexivity].
Qed.

Lemma update_table_ok (i : Z) (f : Backup -> Backup) (rows : list Backup) :
  (forall b, row_okb b = true -> status b <> completed ->
             row_okb (f b) = true) ->
  table_ok rows -> open_run i rows ->
  table_ok (map (fun b => if id b =? i then f b else b) rows).
Proof.
  unfold table_ok, open_run. intros Hf.
  induction rows as [|b bs IH]; simpl; [auto|].
  rewrite !andb_true_iff. intros [Hb Hbs] [Ob Obs].
  split; [|auto]. destruct (id b =? i) eqn:E; [|exact Hb].
  simpl in Ob. apply negb_true_iff, bool_decide_eq_false in Ob. auto.
Qed.

Lemma max_id_ge (rows : list Backup) (b : Backup) :
  In b rows -> id b <= max_id rows.
Proof.
  induction rows as [|r rs IH]; simpl; [contradiction|].
  intros [->|H]; [lia|]. specialize (IH H). lia.
Qed.

Lemma open_run_fresh (w : World) : open_run (fresh_id w) (backups w).
Proof.
  unfold open_run. apply forallb_forall. intros b Hb.
  apply max_id_ge in Hb. unfold fresh_id.
  destruct (id b =? _) eqn:E; [apply Z.eqb_eq in E; lia | reflexivity].
Qed.

#[local] Hint Resolve quiet_waitOffline : rel.

Section RunInvariant.
Variable env : Env.
Variable t0 : list Event.

Lemma open_quiet {A} (i : Z) (m : M A) :
  rel (quiet not_db) m ->
  triple (run_open t0 i) m (fun _ => run_open t0 i)
    (fun _ => run_open t0 i).
Proof. intros H. eapply triple_rel; eauto using run_open_quiet. Qed.

Lemma fine_quiet_total {A} (m : M A) (E : string -> World -> Prop) :
  rel (quiet not_db) m -> total m ->
  triple (history_ok t0) m (fun _ => history_ok t0) E.
Proof.
  intros H T. eapply triple_conseq;
    [eapply (triple_rel_total _ _ _ _ H T) | | |]; simpl; eauto.
  - intros w w' Hw Q. eapply history_quiet; eauto.
  - contradiction.
Qed.

Lemma open_progress (i v : Z) :
  v <> 100 ->
  triple (run_open t0 i) (backupRepo_updateProgress i v)
    (fun _ => run_open t0 i) (fun _ => run_open t0 i).
Proof.
  intros Hv. eapply triple_conseq;
    [apply (triple_updateProgress t0 i v Hv) | | |]; simpl; auto.
  contradiction.
Qed.

Lemma volumeProgress_bound (k n : nat) :
  (k < n)%nat -> 15 <= volumeProgress k n <= 75.
Proof.
  intros H. unfold volumeProgress.
  assert (0 <= (Z.of_nat k + 1) * 60 / Z.of_nat n <= 60); [|lia].
  split; [apply Z.div_pos; lia|].
  apply Z.div_le_upper_bound; lia.
Qed.

Lemma open_backupVolume (i : Z) (vp td : string) (n k : nat)
    (vol : string) :
  (k < n)%nat ->
  triple (run_open t0 i) (backupVolume env i vp td n k vol)
    (fun _ => run_open t0 i) (fun _ => run_open t0 i).
Proof.
  intros Hk. unfold backupVolume. cbv zeta.
  eapply triple_bind; [apply open_quiet; quiet_walk not_db|intros ?].
  eapply triple_bind; [apply open_quiet; quiet_walk not_db|intros ?].
  eapply triple_bind; [apply open_quiet; quiet_walk not_db|intros ?].
  eapply triple_bind; [apply open_quiet; quiet_walk not_db|intros ?].
  eapply triple_bind; [apply open_quiet; quiet_walk not_db|intros ?].
  apply open_progress. pose proof (volumeProgress_bound k n Hk). lia.
Qed.

Lemma open_forVolumes (i : Z) (vp td : string) (n k : nat)
    (vols : list string) :
  (k + length vols <= n)%nat ->
  triple (run_open t0 i) (forVolumes env i vp td n k vols)
    (fun _ => run_open t0 i) (fun _ => run_open t0 i).
Proof.
  revert k. induction vols as [|v vs IH]; intros k Hk; simpl in *.
  - intros w Hw. exact Hw.
  - eapply triple_bind; [apply open_backupVolume; lia|intros ?].
    apply IH. lia.
Qed.

Ltac open_steps :=
  repeat (cbv zeta;
          eapply triple_bind;
          [ first [ apply open_quiet; solve [quiet_walk not_db]
                  | apply open_progress; lia
                  | apply open_forVolumes; simpl; lia ]
          | intros ? ]).

Lemma keeps_ok_completed (p : string) (sz : Z) (stamp : string) (b : Backup) :
  row_okb
    (apply_patch
       {| p_filename := None; p_size := Some sz;
          p_storage_path := Some p; p_status := Some completed;
          p_progress := Some 100; p_started_at := None;
          p_completed_at := Some stamp |} b) = true.
Proof. apply row_okb_iff. simpl. split; split; eauto. Qed.

Lemma open_pipeline (options : BackupOptions) (node : Node)
    (volumeName file : string) (i startTime : Z) :
  triple (run_open t0 i)
    (pipeline env options node volumeName file i startTime)
    (fun _ => history_ok t0) (fun _ => run_open t0 i).
Proof.
  unfold pipeline. open_steps.
  eapply triple_bind with (R := fun _ => history_ok t0).
  - intros w [H O]. simpl. apply history_write; [exact H|].
    apply update_table_ok; [|apply H|exact O].
    intros b _ _. apply keeps_ok_completed.
  - intros _.
    repeat (cbv zeta; eapply triple_bind;
            [apply fine_quiet_total; [quiet_walk not_db | total_walk]
            |intros ?]).
    intros w Hw. exact Hw.
Qed.

Lemma open_onFailure (node : Node) (volumeName : string) (i : Z)
    (msg : string) :
  triple (run_open t0 i) (onFailure node volumeName i msg)
    (fun _ => history_ok t0) (fun _ => history_ok t0).
Proof.
  unfold onFailure.
  eapply triple_conseq with (P' := run_open t0 i)
    (Q' := fun _ => run_open t0 i) (E' := fun _ => run_open t0 i);
    [| auto | intros ? ? [? ?]; auto | intros ? ? [? ?]; auto].
  eapply triple_bind with (R := fun _ => run_open t0 i).
  { eapply triple_conseq; [apply triple_fail| | |]; simpl; eauto.
    intros; contradiction. }
  intros ?.
  repeat (eapply triple_bind;
          [apply open_quiet; solve [quiet_walk not_db]|intros ?]).
  intros w Hw. exact Hw.
Qed.

Lemma fine_quiet {A} (i : Z) (m : M A) :
  rel (quiet not_db) m ->
  triple (run_open t0 i) m (fun _ => run_open t0 i)
    (fun _ => history_ok t0).
Proof.
  intros H. eapply triple_conseq; [apply (open_quiet i m H)| | |]; auto.
  now intros ? ? [? ?].
Qed.

Lemma fine_progress (i v : Z) :
  v <> 100 ->
  triple (run_open t0 i) (backupRepo_updateProgress i v)
    (fun _ => run_open t0 i) (fun _ => history_ok t0).
Proof.
  intros H. eapply triple_conseq; [apply (open_progress i v H)| | |]; auto.
  now intros ? ? [? ?].
Qed.

Lemma keeps_open_started (file stamp : string) :
  keeps_open
    (apply_patch
       {| p_filename := Some file; p_size := None; p_storage_path := None;
          p_status := Some running; p_progress := None;
          p_started_at := Some stamp; p_completed_at := None |}).
Proof.
  intros b Hb Hs. split; [|simpl; discriminate].
  apply row_okb_iff in Hb as [H1 H2]. apply row_okb_iff. simpl.
  split; split; try discriminate; intros H; tauto.
Qed.

Lemma table_ok_app (x y : list Backup) :
  table_ok x -> table_ok y -> table_ok (x ++ y).
Proof. apply forallb_app_true. Qed.

Lemma open_create (nodeId : Z) (volume file : string) (kind : StorageType) :
  triple (history_ok t0)
    (backupRepo_create env nodeId volume file kind (Some running) None)
    (fun i => run_open t0 i) (fun _ _ => False).
Proof.
  intros w H. unfold backupRepo_create. cbv zeta. split.
  - apply (history_write t0 w _ H).
    apply table_ok_app; [apply H | reflexivity].
  - unfold open_run. simpl. apply forallb_app_true.
    + apply open_run_fresh.
    + simpl. now rewrite orb_true_r.
Qed.

Lemma open_openRun (options : BackupOptions) (volumeName file : string) :
  triple (fun w => history_ok t0 w /\ resumable options w)
    (openRun env options volumeName file)
    (fun i => run_open t0 i) (fun _ _ => False).
Proof.
  unfold openRun. destruct (o_backupId options) as [i|] eqn:E.
  2:{ eapply triple_conseq; [apply open_create| | |]; simpl; auto.
      now intros w [H _]. }
  destruct (negb (i =? 0)).
  2:{ eapply triple_conseq; [apply open_create| | |]; simpl; auto.
      now intros w [H _]. }
  intros w [H R]. specialize (R i E). simpl.
  destruct (update_keeps_open i _ (backups w)
              (keeps_open_started file (iso_now env (length (trace w))))
              (fun b => eq_refl) (proj1 H) R) as [T O].
  split; [now apply history_write | exact O].
Qed.

Lemma fine_createBackup (options : BackupOptions) :
  triple (fun w => history_ok t0 w /\ resumable options w)
    (createBackup env options)
    (fun _ => history_ok t0) (fun _ => history_ok t0).
Proof.
  unfold createBackup.
  eapply triple_bind;
    [apply (triple_read _ _ (fun w => length (trace w))); reflexivity
    |intros t].
  cbv zeta.
  eapply triple_bind;
    [apply (triple_read _ _
              (fun w => List.find (fun n => n_id n =? o_nodeId options)
                          (nodes w))); reflexivity
    |intros found].
  eapply triple_conseq with
    (P' := fun w => history_ok t0 w /\ resumable options w)
    (Q' := fun _ => history_ok t0) (E' := fun _ => history_ok t0);
    [| now intros w [_ [_ H]] | auto | auto].
  destruct found as [node|]; [|intros w HP; apply HP].
  eapply triple_bind with (R := fun i => run_open t0 i).
  { eapply triple_conseq; [apply open_openRun| | |]; simpl; eauto.
    intros; contradiction. }
  intros i.
  eapply triple_bind; [apply fine_quiet; solve [quiet_walk not_db]|intros ?].
  eapply triple_bind; [apply fine_progress; lia|intros ?].
  eapply triple_bind; [apply fine_quiet; solve [quiet_walk not_db]|intros ?].
  eapply triple_tryCatch; [apply open_pipeline|].
  intros e. apply open_onFailure.
Qed.
End RunInvariant.

Lemma table_ok_iff (rows : list Backup) :
  table_ok rows <-> forall b, In b rows -> row_ok b.
Proof.
  unfold table_ok, row_ok. rewrite forallb_forall.
  split; intros H b Hb; apply row_okb_iff; auto.
Qed.

(** C5.  Take a table in which every run record satisfies the invariant,
    and let [createBackup] run, either under a new record or under the
    record it was submitted with, which is not completed.  Then in every
    state of the table that the run writes, and in the table it leaves,
    every run record satisfies: [storage_path] is set if and only if the
    status is [completed], which holds if and only if the progress is
    100. *)
Theorem run_record_invariant (env : Env) (options : BackupOptions)
    (w : World) :
  (forall b, In b (backups w) -> row_ok b) ->
  (forall i b, o_backupId options = Some i -> In b (backups w) ->
               id b = i -> status b <> completed) ->
  forall rows b,
    rows = backups (snd (createBackup env options w))
    \/ In (EDb rows) (newEvents w (snd (createBackup env options w))) ->
    In b rows ->
    (is_Some (storage_path b) <-> status b = completed)
    /\ (status b = completed <-> progress b = 100).
Proof.
  intros Hok Hopen.
  assert (history_ok (trace w) w /\ resumable options w) as HP.
  { split.
    - split; [now apply table_ok_iff|]. exists [].
      split; [now rewrite app_nil_r | intros ? []].
    - intros i Hi. apply forallb_forall. intros b Hb.
      destruct (id b =? i) eqn:E; [|reflexivity]. apply Z.eqb_eq in E.
      simpl. apply negb_true_iff, bool_decide_eq_false. eauto. }
  pose proof (fine_createBackup env (trace w) options w HP) as H.
  assert (history_ok (trace w) (snd (createBackup env options w)))
    as [Hfin (evs & T & Hevs)]
    by (destruct (createBackup env options w) as [[a|e] w']; exact H).
  intros rows b Hrows Hb.
  assert (table_ok rows) as Hr.
  { destruct Hrows as [->|Hin]; [exact Hfin|]. apply Hevs.
    unfold newEvents in Hin.
    now rewrite T, skipn_app, Nat.sub_diag, skipn_all in Hin. }
  now apply (proj1 (table_ok_iff rows) Hr).
Qed.

Lemma run_record_invariant_witness : Forall row_ok Scenario.resumed_table.
Proof.
  apply List.Forall_forall. intros b Hb.
  apply (run_record_invariant Scenario.calm Scenario.resume_submitted
           Scenario.one_submitted) with (rows := Scenario.resumed_table).
  - intros r [<-|[]]. apply row_okb_iff. reflexivity.
  - intros i r _ [<-|[]] _. discriminate.
  - left. reflexivity.
  - exact Hb.
Defined.


(** ** What a run leaves untouched *)

Lemma steady_refl (w : World) : steady w w.
Proof.
  unfold steady. repeat split; try reflexivity.
  - exists []. now rewrite app_nil_r.
  - apply grows_refl.
Qed.

Lemma steady_trans (a b c : World) : steady a b -> steady b c -> steady a c.
Proof.
  unfold steady.
  intros (S1 & N1 & I1 & (l1 & L1) & G1) (S2 & N2 & I2 & (l2 & L2) & G2).
  repeat split; try congruence.
  - exists (l1 ++ l2). now rewrite L2, L1, app_assoc.
  - eapply grows_trans; eauto.
Qed.

Lemma map_id_update (i : Z) (f : Backup -> Backup) (rows : list Backup) :
  (forall b, id (f b) = id b) ->
  map id (map (fun b => if id b =? i then f b else b) rows) = map id rows.
Proof.
  intros H. rewrite map_map. apply map_ext. intros b.
  destruct (id b =? i); auto.
Qed.

Ltac steady_leaf :=
  unfold steady, grows, appended; simpl; repeat split; try reflexivity;
  first
    [ apply map_id_update; reflexivity
    | exists []; split; [now rewrite app_nil_r | exact I]
    | exists []; now rewrite app_nil_r
    | eexists; split; [reflexivity | exact I]
    | eexists; reflexivity ].

Ltac steady_walk := rel_walk steady_refl steady_trans steady_leaf.

(** Unfold the monad and the statements on the tables. *)
Ltac monad_red :=
  cbv beta iota delta
    [mbind M_bind bind mret M_ret ret throw modify emit lift now log
     backupLog backupLogRepo_add settingsRepo_get update_rows
     backupRepo_fail backupRepo_updateProgress backupRepo_update
     sendWebhook tryCatch].

Section Steady.
Variable env : Env.

Lemma steady_waitOffline (v : string) (j : nat) :
  rel steady (waitOffline env v j).
Proof. induction j as [|j IH]; simpl; steady_walk. Qed.

Lemma steady_forVolumes (i : Z) (vp td : string) (n k : nat)
    (vols : list string) :
  rel steady (forVolumes env i vp td n k vols).
Proof.
  pose proof steady_waitOffline.
  revert k. induction vols as [|v vs IH]; intros k; simpl; steady_walk.
Qed.

Lemma steady_pipeline (options : BackupOptions) (node : Node)
    (volumeName file : string) (i startTime : Z) :
  rel steady (pipeline env options node volumeName file i startTime).
Proof. pose proof steady_forVolumes. steady_walk. Qed.

(** What the [catch] block does. *)
Lemma onFailure_run (node : Node) (volumeName : string) (i : Z)
    (msg : string) (w : World) :
  fst (onFailure node volumeName i msg w) = Throw msg
  /\ backups (snd (onFailure node volumeName i msg w))
     = map (fun b => if id b =? i then set_failed msg b else b) (backups w)
  /\ settings (snd (onFailure node volumeName i msg w)) = settings w
  /\ In (i, error, "Backup failed: " +:+ msg)
        (backup_logs (snd (onFailure node volumeName i msg w)))
  /\ (Js.truthy (settings w !! "discord_webhook_url") = true ->
      In (EWebhook wh_error "Backup Failed"
            ("**" +:+ n_name node +:+ "** - " +:+ volumeName)
            [("Error", Js.slice0 200 msg)])
         (newEvents w (snd (onFailure node volumeName i msg w)))).
Proof.
  unfold onFailure, newEvents. monad_red. simpl.
  destruct (Js.truthy (settings w !! "discord_webhook_url")) eqn:U; simpl;
    repeat split; auto; try discriminate;
    try (apply in_or_app; right; left; reflexivity).
  intros _. rewrite <- !app_assoc, skipn_app, Nat.sub_diag, skipn_all.
  simpl. auto.
Qed.

(** What happens before the [try] block: the record of the run is there
    when it was created or existed already. *)
Lemma openRun_run (options : BackupOptions) (volumeName file : string)
    (w : World) :
  openRun env options volumeName file w
  = (Ok (runId options w), snd (openRun env options volumeName file w))
  /\ settings (snd (openRun env options volumeName file w)) = settings w
  /\ nodes (snd (openRun env options volumeName file w)) = nodes w
  /\ (exists l, backup_logs (snd (openRun env options volumeName file w))
                = backup_logs w ++ l)
  /\ grows w (snd (openRun env options volumeName file w))
  /\ (o_backupId options = None
      \/ In (runId options w) (map id (backups w)) ->
      In (runId options w)
         (map id (backups (snd (openRun env options volumeName file w))))).
Proof.
  unfold openRun, runId.
  destruct (o_backupId options) as [i|]; [destruct (negb (i =? 0)) eqn:Z|].
  - simpl. repeat split; auto.
    + exists []. now rewrite app_nil_r.
    + eexists. split; [reflexivity | exact I].
    + intros [H|H]; [discriminate|].
      now rewrite map_id_update.
  - simpl. repeat split; auto.
    + exists []. now rewrite app_nil_r.
    + eexists. split; [reflexivity | exact I].
    + intros _. rewrite map_app. apply in_or_app. right. now left.
  - simpl. repeat split; auto.
    + exists []. now rewrite app_nil_r.
    + eexists. split; [reflexivity | exact I].
    + intros _. rewrite map_app. apply in_or_app. right. now left.
Qed.

Lemma steady_run {A} (m : M A) (w : World) :
  rel steady m -> total m ->
  exists a, m w = (Ok a, snd (m w)) /\ steady w (snd (m w)).
Proof.
  intros Hr Ht. destruct (total_run m w Ht) as [a Ha]. exists a.
  split; [exact Ha | apply Hr].
Qed.

(** With the node found, [createBackup] is its [try] block and its
    [catch] block, run under the id [runId] in a world that differs from
    the initial one by the opening of the run. *)
Lemma createBackup_shape (options : BackupOptions) (w : World)
    (node : Node) :
  List.find (fun n => n_id n =? o_nodeId options) (nodes w) = Some node ->
  exists w1,
    createBackup env options w
    = tryCatch
        (pipeline env options node (volumeNameOf options)
           (fileOf env options node w) (runId options w)
           (date_now env (length (trace w))))
        (onFailure node (volumeNameOf options) (runId options w)) w1
    /\ settings w1 = settings w
    /\ (exists l, backup_logs w1 = backup_logs w ++ l)
    /\ grows w w1
    /\ (o_backupId options = None
        \/ In (runId options w) (map id (backups w)) ->
        In (runId options w) (map id (backups w1))).
Proof.
  intros Hfind. unfold createBackup.
  rewrite bind_run. cbn [now]. cbv zeta. rewrite bind_run.
  unfold nodeRepo_getById at 1. rewrite Hfind.
  rewrite bind_run.
  match goal with
  | |- context [openRun env options ?vn ?f w] =>
      destruct (openRun_run options vn f w)
        as (E0 & S0 & _ & L0 & G0 & I0);
      rewrite E0;
      set (w0 := snd (openRun env options vn f w)) in *; clearbody w0
  end.
  rewrite bind_run.
  match goal with
  | |- context [backupLog ?i ?l ?msg w0] =>
      destruct (steady_run (backupLog i l msg) w0) as (u1 & E1 & Q1);
      [steady_walk | total_walk |];
      rewrite E1;
      set (w1 := snd (backupLog i l msg w0)) in *; clearbody w1
  end.
  rewrite bind_run.
  match goal with
  | |- context [backupRepo_updateProgress ?i ?v w1] =>
      destruct (steady_run (backupRepo_updateProgress i v) w1)
        as (u2 & E2 & Q2);
      [steady_walk | total_walk |];
      rewrite E2;
      set (w2 := snd (backupRepo_updateProgress i v w1)) in *; clearbody w2
  end.
  rewrite bind_run.
  match goal with
  | |- context [sendWebhook ?k ?t ?d ?f w2] =>
      destruct (steady_run (sendWebhook k t d f) w2) as (u3 & E3 & Q3);
      [steady_walk | total_walk |];
      rewrite E3;
      set (w3 := snd (sendWebhook k t d f w2)) in *; clearbody w3
  end.
  assert (steady w0 w3) as (S & _ & Ids & (l & L) & G)
    by (eapply steady_trans; [|exact Q3];
        eapply steady_trans; [exact Q1 | exact Q2]).
  exists w3. split; [reflexivity|].
  split; [congruence|].
  split; [destruct L0 as (l0 & L0); exists (l0 ++ l);
          now rewrite L, L0, app_assoc|].
  split; [eapply grows_trans; eauto|].
  intros H. rewrite Ids. auto.
Qed.
End Steady.

Lemma newEvents_grows (w w1 w' : World) (e : Event) :
  grows w w1 -> grows w1 w' -> In e (newEvents w1 w') -> In e (newEvents w w').
Proof.
  intros (x & Tx & _) (y & Ty & _). unfold newEvents.
  rewrite Ty, Tx, skipn_app, Nat.sub_diag, skipn_all. simpl.
  rewrite <- app_assoc, skipn_app, Nat.sub_diag, skipn_all. simpl.
  intros H. apply in_or_app. now right.
Qed.

Lemma slice0_length (n : nat) (s : string) :
  (String.length (Js.slice0 n s) <= n)%nat.
Proof.
  unfold Js.slice0. revert s. induction n as [|n IH]; intros s.
  - destruct s; simpl; lia.
  - destruct s as [|c s]; simpl; [lia|]. specialize (IH s). lia.
Qed.

Lemma failed_rows (i : Z) (msg : string) (rows : list Backup) (b : Backup) :
  In b (map (fun b => if id b =? i then set_failed msg b else b) rows) ->
  id b = i ->
  status b = failed /\ progress b = 0 /\ error_message b = Some msg.
Proof.
  intros Hin Hid. apply in_map_iff in Hin as (b0 & <- & _).
  destruct (id b0 =? i) eqn:E; [now simpl|].
  apply Z.eqb_neq in E. contradiction.
Qed.

(** What a run that throws leaves behind. *)
Lemma thrown_is_recorded (env : Env) (options : BackupOptions)
    (w : World) (e : string) :
  is_Some (List.find (fun n => n_id n =? o_nodeId options) (nodes w)) ->
  fst (createBackup env options w) = Throw e ->
  (forall b, In b (backups (snd (createBackup env options w))) ->
             id b = runId options w ->
             status b = failed /\ progress b = 0
             /\ error_message b = Some e)
  /\ (o_backupId options = None
      \/ In (runId options w) (map id (backups w)) ->
      In (runId options w)
         (map id (backups (snd (createBackup env options w)))))
  /\ In (runId options w, error, "Backup failed: " +:+ e)
        (backup_logs (snd (createBackup env options w)))
  /\ (Js.truthy (settings w !! "discord_webhook_url") = true ->
      exists title description,
        In (EWebhook wh_error title description
              [("Error", Js.slice0 200 e)])
           (newEvents w (snd (createBackup env options w))))
  /\ (String.length (Js.slice0 200 e) <= 200)%nat.
Proof.
  intros [node Hfind] Hthrow.
  destruct (createBackup_shape env options w node Hfind)
    as (w1 & E & S1 & _ & G1 & I1).
  rewrite E in *. rewrite tryCatch_run in *.
  pose proof (steady_pipeline env options node (volumeNameOf options)
                (fileOf env options node w) (runId options w)
                (date_now env (length (trace w))) w1)
    as (S2 & _ & I2 & _ & G2).
  destruct (pipeline env options node (volumeNameOf options)
              (fileOf env options node w) (runId options w)
              (date_now env (length (trace w))) w1)
    as [[a|e'] w2]; [discriminate|]. simpl in S2, I2, G2.
  destruct (onFailure_run node (volumeNameOf options) (runId options w) e' w2)
    as (F & B & S3 & L & W).
  rewrite F in Hthrow. injection Hthrow as ->.
  repeat split.
  - rewrite B in H. now destruct (failed_rows _ _ _ _ H H0).
  - rewrite B in H. now destruct (failed_rows _ _ _ _ H H0) as (_ & ? & _).
  - rewrite B in H. now destruct (failed_rows _ _ _ _ H H0) as (_ & _ & ?).
  - intros H. rewrite B, map_id_update by reflexivity. rewrite I2. auto.
  - exact L.
  - intros U. do 2 eexists.
    apply (newEvents_grows w w2); [eapply grows_trans; eauto | |].
    + unfold onFailure.
      match goal with
      | |- grows w2 (snd (?m w2)) =>
          assert (rel grows m) as Hr by grows_walk; apply Hr
      end.
    + apply W. now rewrite S2, S1.
  - apply slice0_length.
Qed.

(** C3, amended.  When [createBackup] has found its node, runs under a
    record that it creates or that exists, and throws [e]: the record of
    the run is there, and every record of the run has status [failed],
    progress 0 and the whole message [e] as its error message; an error
    line is logged for the run; and when a webhook is configured a failure
    notification is issued whose [Error] field is [e] cut to its first 200
    characters. *)
Theorem failure_is_recorded (env : Env) (options : BackupOptions)
    (w : World) (e : string) :
  is_Some (List.find (fun n => n_id n =? o_nodeId options) (nodes w)) ->
  record_known options w ->
  fst (createBackup env options w) = Throw e ->
  (forall b, In b (backups (snd (createBackup env options w))) ->
             id b = runId options w ->
             status b = failed /\ progress b = 0
             /\ error_message b = Some e)
  /\ In (runId options w)
        (map id (backups (snd (createBackup env options w))))
  /\ In (runId options w, error, "Backup failed: " +:+ e)
        (backup_logs (snd (createBackup env options w)))
  /\ (Js.truthy (settings w !! "discord_webhook_url") = true ->
      exists title description,
        In (EWebhook wh_error title description
              [("Error", Js.slice0 200 e)])
           (newEvents w (snd (createBackup env options w))))
  /\ (String.length (Js.slice0 200 e) <= 200)%nat.
Proof.
  intros Hnode Hrec Hthrow.
  destruct (thrown_is_recorded env options w e Hnode Hthrow)
    as (H1 & H2 & H3 & H4 & H5).
  split; [exact H1|]. split; [exact (H2 Hrec)|].
  split; [exact H3|]. split; [exact H4 | exact H5].
Qed.

Lemma failure_is_recorded_witness :
  In (1, error, "Backup failed: " +:+ Scenario.long_message)
     (backup_logs
        (snd (createBackup Scenario.listing_fails_at_length
                Scenario.all_volumes_to_local Scenario.with_webhook)))
  /\ (String.length (Js.slice0 200 Scenario.long_message) <= 200)%nat.
Proof.
  assert (is_Some
            (List.find
               (fun n => n_id n =? o_nodeId Scenario.all_volumes_to_local)
               (nodes Scenario.with_webhook))) as H1
    by (eexists; reflexivity).
  assert (fst (createBackup Scenario.listing_fails_at_length
                 Scenario.all_volumes_to_local Scenario.with_webhook)
          = Throw Scenario.long_message) as H2 by (vm_compute; reflexivity).
  assert (record_known Scenario.all_volumes_to_local Scenario.with_webhook)
    as H3 by (left; reflexivity).
  destruct (failure_is_recorded Scenario.listing_fails_at_length
              Scenario.all_volumes_to_local Scenario.with_webhook
              Scenario.long_message H1 H3 H2) as (_ & _ & L & _ & S).
  split; [exact L | exact S].
Defined.

(** C3 as the specification words it fails: the recorded message is not
    truncated.  A listing that fails with a message of 201 characters
    leaves that whole message in the record. *)
Lemma failure_message_not_truncated :
  ~ failure_recorded_truncated Scenario.listing_fails_at_length
      Scenario.all_volumes_to_local Scenario.empty_db.
Proof.
  intros H.
  assert (fst (createBackup Scenario.listing_fails_at_length
                 Scenario.all_volumes_to_local Scenario.empty_db)
          = Throw Scenario.long_message) as H1 by (vm_compute; reflexivity).
  specialize (H _ H1).
  assert (map (fun b => (id b, error_message b))
            (backups
               (snd (createBackup Scenario.listing_fails_at_length
                       Scenario.all_volumes_to_local Scenario.empty_db)))
          = [(1, Some Scenario.long_message)]) as H2
    by (vm_compute; reflexivity).
  destruct (backups
              (snd (createBackup Scenario.listing_fails_at_length
                      Scenario.all_volumes_to_local Scenario.empty_db)))
    as [|b [|? ?]]; try discriminate.
  injection H2 as Hid Hmsg.
  destruct (H b (or_introl eq_refl) Hid) as (_ & _ & m & Hm & Hlen).
  rewrite Hmsg in Hm. injection Hm as <-.
  vm_compute in Hlen. lia.
Qed.

(** ** The run when the environment is smooth *)

Lemma total_lift_ok {A} (a : A) : total (lift (Ok a)).
Proof. intros w. now exists a. Qed.

#[local] Hint Resolve total_safeStop total_safeStart total_backupLog : total.

(** Totality when the outcome of a library call is known from a
    hypothesis on the environment. *)
Ltac total_walk_env :=
  repeat first
    [ assumption
    | solve [eauto 2 with total]
    | apply total_bind; [|intros ?]
    | apply total_tryCatch; intros ?
    | apply total_ret
    | apply total_modify
    | apply total_lift_ok
    | eapply total_pure; intros ?; reflexivity
    | match goal with
      | H : _ |- total (lift _) => rewrite H; apply total_lift_ok
      end
    | match goal with
      | |- total (if ?b then _ else _) => destruct b
      | |- total (match ?x with _ => _ end) => destruct x
      end
    | match goal with
      | |- total ?m => let h := head_of m in progress unfold h
      end ].

Section SmoothRun.
Variables (env : Env) (options : BackupOptions) (node : Node).
Variables (entries : list DirEntry) (sz : Z).
Variables (s0 : gmap string string) (t0 : list Event).
Variable l0 : list (Z * Level * string).
Variable i : Z.
Hypothesis smooth : Smooth env entries sz.


Lemma onCourse_steady (vs : list string) (w w' : World) :
  onCourse env node s0 t0 l0 i vs w -> steady w w' ->
  onCourse env node s0 t0 l0 i vs w'.
Proof.
  intros (S & (l & L) & (evs & T) & F)
         (S' & _ & _ & (l' & L') & (x & Tx & _)).
  repeat split.
  - congruence.
  - exists (l ++ l'). now rewrite L', L, app_assoc.
  - exists (evs ++ x). now rewrite Tx, T, app_assoc.
  - destruct (F vol H) as [(e1 & T1 & I1) _].
    exists (e1 ++ x). split; [now rewrite Tx, T1, app_assoc|].
    apply in_or_app. now left.
  - intros msg Hmsg. destruct (F vol H) as [_ Wn].
    destruct (Wn msg Hmsg) as (l1 & L1 & I1).
    exists (l1 ++ l'). split; [now rewrite L', L1, app_assoc|].
    apply in_or_app. now left.
Qed.

Lemma smooth_step {A} (vs : list string) (m : M A)
    (E : string -> World -> Prop) :
  rel steady m -> total m ->
  triple (onCourse env node s0 t0 l0 i vs) m
    (fun _ => onCourse env node s0 t0 l0 i vs) E.
Proof.
  intros Hr Ht. eapply triple_conseq;
    [apply (triple_rel_total steady (onCourse env node s0 t0 l0 i vs)
              (onCourse env node s0 t0 l0 i vs) m Hr Ht)
    | | |]; auto.
  - intros w w'. apply onCourse_steady.
  - intros; contradiction.
Qed.

Lemma smooth_value {A} (vs : list string) (m : M A) (v : A)
    (E : string -> World -> Prop) :
  rel steady m -> (forall w, fst (m w) = Ok v) ->
  triple (onCourse env node s0 t0 l0 i vs) m
    (fun a w => a = v /\ onCourse env node s0 t0 l0 i vs w) E.
Proof.
  intros Hr Hv w Hw. specialize (Hr w). specialize (Hv w).
  destruct (m w) as [r w']. simpl in *. subst r.
  split; [reflexivity | eapply onCourse_steady; eauto].
Qed.

Lemma total_fs_mkdir (p : string) : total (fs_mkdir env p).
Proof. destruct smooth. total_walk_env. Qed.

Lemma download_run (vol : string) (w : World) :
  let remotePath := volumesPathOf env node +:+ "/" +:+ vol in
  let localPath := localPathOf env i vol in
  let w' :=
    snd (tryCatch
           (client_downloadDir env remotePath localPath)
           (fun msg =>
              backupLog i warn
                ("Failed to download " +:+ vol +:+ ": " +:+ msg)) w) in
  trace w'
  = trace w
    ++ EDownloadDir remotePath localPath
       :: match sftp_downloadDir env remotePath localPath with
          | Ok _ => []
          | Throw msg =>
              [ELog warn ("Failed to download " +:+ vol +:+ ": " +:+ msg)]
          end
  /\ backup_logs w'
     = backup_logs w
       ++ match sftp_downloadDir env remotePath localPath with
          | Ok _ => []
          | Throw msg =>
              [(i, warn, "Failed to download " +:+ vol +:+ ": " +:+ msg)]
          end.
Proof.
  cbv zeta. unfold client_downloadDir. monad_red.
  destruct (sftp_downloadDir env _ _); simpl;
    rewrite ?app_nil_r, <- ?app_assoc; auto.
Qed.

(** The download of one volume, with the warning when it fails. *)
Lemma download_step (vs : list string) (vol : string)
    (E : string -> World -> Prop) :
  triple (onCourse env node s0 t0 l0 i vs)
    (tryCatch
       (client_downloadDir env (volumesPathOf env node +:+ "/" +:+ vol)
          (localPathOf env i vol))
       (fun msg =>
          backupLog i warn
            ("Failed to download " +:+ vol +:+ ": " +:+ msg)))
    (fun _ => onCourse env node s0 t0 l0 i (vs ++ [vol])) E.
Proof.
  intros w Hw.
  match goal with
  | |- match ?m w with _ => _ end =>
      assert (rel steady m) as Hr by steady_walk;
      assert (total m) as Ht by total_walk;
      destruct (total_run m w Ht) as [u Hu];
      pose proof (onCourse_steady vs w _ Hw (Hr w)) as Hc;
      rewrite Hu
  end.
  destruct Hc as (S & L & T & F).
  destruct (download_run vol w) as [Tr Lg].
  repeat split; auto.
  - apply in_app_or in H as [H|[<-|[]]]; [now apply F|].
    destruct Hw as (_ & _ & (evs & Tw) & _).
    eexists. rewrite Tr, Tw, <- app_assoc. split; [reflexivity|].
    apply in_or_app. right. now left.
  - apply in_app_or in H as [H|[<-|[]]]; [now apply F|].
    intros msg Hmsg.
    destruct Hw as (_ & (l & Lw) & _ & _).
    eexists. rewrite Lg, Lw, Hmsg, <- app_assoc. split; [reflexivity|].
    apply in_or_app. right. now left.
Qed.

Lemma onCourse_backupVolume (vs : list string) (n k : nat) (vol : string)
    (E : string -> World -> Prop) :
  triple (onCourse env node s0 t0 l0 i vs)
    (backupVolume env i (volumesPathOf env node) (tempDirOf env i) n k vol)
    (fun _ => onCourse env node s0 t0 l0 i (vs ++ [vol])) E.
Proof.
  unfold backupVolume. cbv zeta.
  eapply triple_bind;
    [apply smooth_step; [steady_walk | apply total_fs_mkdir]|intros ?].
  pose proof (steady_waitOffline env) as Hwait.
  eapply triple_bind;
    [apply smooth_step; [steady_walk | apply total_safeStop]|intros b].
  eapply triple_bind;
    [apply smooth_step; [steady_walk | total_walk]|intros ?].
  eapply triple_bind; [apply download_step|intros ?].
  eapply triple_bind;
    [apply smooth_step; [steady_walk | apply total_safeStart]|intros ?].
  apply smooth_step; [steady_walk | total_walk].
Qed.

Lemma onCourse_forVolumes (vs : list string) (n k : nat)
    (vols : list string) (E : string -> World -> Prop) :
  triple (onCourse env node s0 t0 l0 i vs)
    (forVolumes env i (volumesPathOf env node) (tempDirOf env i) n k vols)
    (fun _ => onCourse env node s0 t0 l0 i (vs ++ vols)) E.
Proof.
  revert vs k. induction vols as [|v rest IH]; intros vs k; simpl.
  - intros w Hw. simpl. now rewrite app_nil_r.
  - eapply triple_bind; [apply onCourse_backupVolume|intros ?].
    eapply triple_conseq; [apply (IH (vs ++ [v]))| | |]; auto.
    intros a0 w. now rewrite <- app_assoc.
Qed.

Lemma triple_pre_pure {A} (phi : Prop) (P : World -> Prop) (m : M A)
    (Q : A -> World -> Prop) (E : string -> World -> Prop) :
  (phi -> triple P m Q E) -> triple (fun w => phi /\ P w) m Q E.
Proof. intros H w [Hphi Hw]. now apply H. Qed.

Lemma upload_step (vs : list string) (localPath file : string)
    (E : string -> World -> Prop) :
  uploads env (o_storageType options) s0 localPath file ->
  triple (onCourse env node s0 t0 l0 i vs)
    (storage_upload env (o_storageType options) localPath file)
    (fun _ => onCourse env node s0 t0 l0 i vs) E.
Proof.
  intros Hup w Hw. destruct (Hup w (proj1 Hw)) as [p Hp].
  assert (rel steady
            (storage_upload env (o_storageType options) localPath file))
    as Hr by steady_walk.
  specialize (Hr w).
  destruct (storage_upload env (o_storageType options) localPath file w)
    as [r w']. simpl in *. subst r. eapply onCourse_steady; eauto.
Qed.

Lemma select_volumes (E : string -> World -> Prop) :
  triple (onCourse env node s0 t0 l0 i [])
    (if String.eqb (volumeNameOf options) "all-volumes"
     then
       entries ← client_list env (volumesPathOf env node);
       let volumes := volume_names entries in
       backupLog i info
         ("Found " +:+ pretty (Z.of_nat (length volumes)) +:+ " volumes") ;;
       ret volumes
     else ret [volumeNameOf options])
    (fun vols w =>
       vols = volumesOf options entries
       /\ onCourse env node s0 t0 l0 i [] w) E.
Proof.
  apply smooth_value; [steady_walk|].
  intros w. unfold volumesOf.
  destruct (String.eqb (volumeNameOf options) "all-volumes");
    [|reflexivity].
  unfold client_list. monad_red. rewrite (sm_list _ _ _ smooth).
  reflexivity.
Qed.

Ltac smooth_steps :=
  repeat (cbv zeta;
          eapply triple_bind;
          [ apply smooth_step; [solve [steady_walk] | solve [total_walk_env]]
          | intros ? ]).

Variables (file : string) (startTime : Z).
Hypothesis upload_ok :
  uploads env (o_storageType options) s0 (tempFileOf env file) file.

(** Up to the clean-up the [try] block does not throw, the volumes have
    all been gone through, and it throws exactly when the clean-up
    does. *)
Lemma smooth_pipeline :
  triple (onCourse env node s0 t0 l0 i [])
    (pipeline env options node (volumeNameOf options) file i startTime)
    (fun a w =>
       a = i /\ cleanup env (tempDirOf env i) (tempFileOf env file) = Ok tt
       /\ onCourse env node s0 t0 l0 i (volumesOf options entries) w)
    (fun e w =>
       cleanup env (tempDirOf env i) (tempFileOf env file) = Throw e
       /\ onCourse env node s0 t0 l0 i (volumesOf options entries) w).
Proof.
  unfold pipeline.
  pose proof (sm_key _ _ _ smooth) as Hkey.
  pose proof (sm_connect _ _ _ smooth) as Hconnect.
  pose proof (sm_end _ _ _ smooth) as Hend.
  pose proof (sm_archive _ _ _ smooth) as Harchive.
  pose proof (sm_stat _ _ _ smooth) as Hstat.
  pose proof (sm_mkdir _ _ _ smooth) as Hmkdir.
  smooth_steps.
  eapply triple_bind; [apply select_volumes | intros vols].
  cbv beta. apply triple_pre_pure. intros ->.
  smooth_steps.
  eapply triple_bind; [apply onCourse_forVolumes | intros ?].
  cbv beta. change ([] ++ volumesOf options entries)
    with (volumesOf options entries).
  smooth_steps.
  eapply triple_bind; [apply upload_step; exact upload_ok | intros path].
  smooth_steps.
  unfold cleanup.
  change (resolve env [data_dir env; "temp"; "backup-" +:+ pretty i])
    with (tempDirOf env i).
  change (resolve env [data_dir env; "temp"; file])
    with (tempFileOf env file).
  destruct (rmSync env (tempDirOf env i)) as [[]|e1].
  2:{ intros w Hw. rewrite bind_run. simpl. auto. }
  smooth_steps.
  destruct (unlinkSync env (tempFileOf env file)) as [[]|e2].
  2:{ intros w Hw. rewrite bind_run. simpl. auto. }
  smooth_steps.
  intros w Hw. simpl. auto.
Qed.
End SmoothRun.

(** ** A [try] block that returns has completed the record *)

Lemma triple_top {A} (m : M A) :
  triple (fun _ => True) m (fun _ _ => True) (fun _ _ => True).
Proof. intros w _. now destruct (m w) as [[a|e] w']. Qed.

Lemma done_quiet (i : Z) (w w' : World) :
  done_rows i w -> quiet not_db w w' -> done_rows i w'.
Proof.
  intros H (_ & _ & _ & B & _). unfold done_rows. now rewrite B.
Qed.

Lemma pipeline_returns_completed (env : Env) (options : BackupOptions)
    (node : Node) (volumeName file : string) (i startTime : Z) :
  triple (fun _ => True)
    (pipeline env options node volumeName file i startTime)
    (fun _ => done_rows i) (fun _ _ => True).
Proof.
  unfold pipeline.
  repeat (cbv zeta;
          lazymatch goal with
          | |- triple _ (backupRepo_update _ _ ≫= _) _ _ => fail
          | |- _ => eapply triple_bind; [apply triple_top | intros ?]
          end).
  eapply triple_bind with (R := fun _ => done_rows i).
  { intros w _. simpl. intros b Hb Hid.
    apply in_map_iff in Hb as (b0 & <- & _).
    destruct (id b0 =? i) eqn:E; [simpl; eauto|].
    apply Z.eqb_neq in E. contradiction. }
  intros ?.
  eapply triple_conseq;
    [eapply triple_rel with (R := quiet not_db) (P' := done_rows i);
       [solve [quiet_walk not_db] | intros ? ?; apply done_quiet]
    | intros ? H; exact H | intros ? ? H; exact H | auto ].
Qed.

Lemma steady_onFailure (node : Node) (volumeName : string) (i : Z)
    (msg : string) :
  rel steady (onFailure node volumeName i msg).
Proof. steady_walk. Qed.

(** A run in a smooth environment: it ends as its clean-up ends, and it
    has gone through every volume. *)
Lemma smooth_createBackup (env : Env) (options : BackupOptions) (w : World)
    (node : Node) (entries : list DirEntry) (sz : Z) :
  List.find (fun n => n_id n =? o_nodeId options) (nodes w) = Some node ->
  Smooth env entries sz ->
  uploads env (o_storageType options) (settings w)
    (tempFileOf env (fileOf env options node w)) (fileOf env options node w) ->
  match
    cleanup env (tempDirOf env (runId options w))
      (tempFileOf env (fileOf env options node w))
  with
  | Ok _ =>
      fst (createBackup env options w) = Ok (runId options w)
      /\ done_rows (runId options w) (snd (createBackup env options w))
  | Throw e => fst (createBackup env options w) = Throw e
  end
  /\ onCourse env node (settings w) (trace w) (backup_logs w)
       (runId options w) (volumesOf options entries)
       (snd (createBackup env options w))
  /\ (o_backupId options = None
      \/ In (runId options w) (map id (backups w)) ->
      In (runId options w)
         (map id (backups (snd (createBackup env options w))))).
Proof.
  intros Hfind Hsmooth Hup.
  destruct (createBackup_shape env options w node Hfind)
    as (w1 & E & S1 & L1 & G1 & I1).
  rewrite E, tryCatch_run.
  assert (onCourse env node (settings w) (trace w) (backup_logs w)
            (runId options w) [] w1) as H1.
  { repeat split; auto; try contradiction.
    destruct G1 as (evs & T & _). now exists evs. }
  pose proof (smooth_pipeline env options node entries sz (settings w)
                (trace w) (backup_logs w) (runId options w) Hsmooth
                (fileOf env options node w)
                (date_now env (length (trace w))) Hup w1 H1) as HS.
  pose proof (pipeline_returns_completed env options node
                (volumeNameOf options) (fileOf env options node w)
                (runId options w) (date_now env (length (trace w))) w1 I)
    as HD.
  pose proof (steady_pipeline env options node (volumeNameOf options)
                (fileOf env options node w) (runId options w)
                (date_now env (length (trace w))) w1) as HP.
  destruct (pipeline env options node (volumeNameOf options)
              (fileOf env options node w) (runId options w)
              (date_now env (length (trace w))) w1) as [[a|e] w2];
    simpl in HP.
  - destruct HS as (-> & -> & HC). simpl.
    split; [split; [reflexivity | exact HD]|].
    split; [exact HC|].
    intros H. destruct HP as (_ & _ & -> & _). auto.
  - destruct HS as (-> & HC).
    pose proof (steady_onFailure node (volumeNameOf options)
                  (runId options w) e w2) as HF.
    destruct (onFailure_run node (volumeNameOf options) (runId options w)
                e w2) as (F & _).
    split; [exact F|]. split.
    + eapply onCourse_steady; eauto.
    + intros H. destruct HF as (_ & _ & -> & _).
      destruct HP as (_ & _ & -> & _). auto.
Qed.

(** ** The scenarios are smooth *)

Lemma scenario_smooth (downloadR : string -> Res unit)
    (uploadR unlinkR : Res unit)
    (panel : string -> nat -> HttpRes) :
  Smooth (Scenario.world_of (Ok Scenario.listing) downloadR uploadR unlinkR
            panel) Scenario.listing 2048.
Proof. constructor; intros; reflexivity. Qed.

Lemma scenario_uploads (downloadR : string -> Res unit) (unlinkR : Res unit)
    (panel : string -> nat -> HttpRes) (s : gmap string string)
    (localPath file : string) :
  uploads (Scenario.world_of (Ok Scenario.listing) downloadR (Ok tt) unlinkR
             panel) local s localPath file.
Proof.
  intros w _. simpl. unfold Local_upload, sanitizeFilename. monad_red.
  destruct (negb _ || negb _); simpl; eauto.
Qed.



(** C2, amended.  In a run of [createBackup] under a record that it
    creates or that exists, in which download, archive and upload all
    succeed, an error [e] raised by the clean-up (the removal of the
    scratch directory or of the temporary archive) is handled like any
    other error of the pipeline: the run throws [e], its record is there
    and ends [failed] with progress 0 and the message [e], and an error
    line is logged for the run. *)
Theorem cleanup_error_fails_the_run (env : Env) (options : BackupOptions)
    (w : World) (node : Node) (entries : list DirEntry) (sz : Z)
    (e : string) :
  List.find (fun n => n_id n =? o_nodeId options) (nodes w) = Some node ->
  record_known options w ->
  Smooth env entries sz ->
  uploads env (o_storageType options) (settings w)
    (tempFileOf env (fileOf env options node w)) (fileOf env options node w) ->
  cleanup env (tempDirOf env (runId options w))
    (tempFileOf env (fileOf env options node w)) = Throw e ->
  fst (createBackup env options w) = Throw e
  /\ (forall b, In b (backups (snd (createBackup env options w))) ->
                id b = runId options w ->
                status b = failed /\ progress b = 0
                /\ error_message b = Some e)
  /\ In (runId options w)
        (map id (backups (snd (createBackup env options w))))
  /\ In (runId options w, error, "Backup failed: " +:+ e)
        (backup_logs (snd (createBackup env options w))).
Proof.
  intros Hfind Hrec Hsmooth Hup Hclean.
  destruct (smooth_createBackup env options w node entries sz Hfind Hsmooth
              Hup) as (HR & _ & _).
  rewrite Hclean in HR.
  destruct (thrown_is_recorded env options w e (ex_intro _ node Hfind) HR)
    as (H1 & H2 & H3 & _).
  split; [exact HR|]. split; [exact H1|]. split; [exact (H2 Hrec)|].
  exact H3.
Qed.

Lemma cleanup_error_fails_the_run_witness :
  fst (createBackup Scenario.unlink_fails Scenario.all_volumes_to_local
         Scenario.empty_db) = Throw "EBUSY: resource busy or locked"
  /\ In (1, error, "Backup failed: EBUSY: resource busy or locked")
        (backup_logs
           (snd (createBackup Scenario.unlink_fails
                   Scenario.all_volumes_to_local Scenario.empty_db))).
Proof.
  destruct (cleanup_error_fails_the_run Scenario.unlink_fails
              Scenario.all_volumes_to_local Scenario.empty_db
              Scenario.alpha Scenario.listing 2048
              "EBUSY: resource busy or locked")
    as (H1 & _ & _ & H4).
  - reflexivity.
  - left; reflexivity.
  - apply scenario_smooth.
  - apply scenario_uploads.
  - reflexivity.
  - split; [exact H1 | exact H4].
Defined.

(** C2 as the specification words it fails: with every download, the
    archive and the upload succeeding, a temporary archive that cannot be
    removed leaves the record [failed], not [completed]. *)
Lemma cleanup_error_is_escalated :
  ~ cleanup_errors_only_logged Scenario.unlink_fails
      Scenario.all_volumes_to_local Scenario.empty_db.
Proof.
  intros H.
  specialize (H Scenario.alpha Scenario.listing 2048 eq_refl
                (scenario_smooth _ _ _ _) (scenario_uploads _ _ _ _ _ _)).
  assert (map (fun b => (id b, status b))
            (backups
               (snd (createBackup Scenario.unlink_fails
                       Scenario.all_volumes_to_local Scenario.empty_db)))
          = [(1, failed)]) as H2 by (vm_compute; reflexivity).
  destruct (backups
              (snd (createBackup Scenario.unlink_fails
                      Scenario.all_volumes_to_local Scenario.empty_db)))
    as [|b [|? ?]]; try discriminate.
  injection H2 as Hid Hst.
  specialize (H b (or_introl eq_refl) Hid). congruence.
Qed.


(** ** Retention and the storage backends *)

Lemma bookkeeping_refl (w : World) : bookkeeping w w.
Proof. now apply appended_refl. Qed.

Lemma bookkeeping_trans (a b c : World) :
  bookkeeping a b -> bookkeeping b c -> bookkeeping a c.
Proof. apply appended_trans. intros x y. apply forallb_app_true. Qed.

Ltac bookkeeping_leaf :=
  unfold bookkeeping, appended; simpl;
  first
    [ exists []; split; [now rewrite app_nil_r | reflexivity]
    | eexists; split; [reflexivity | reflexivity] ].

(** Whatever the table holds, [applyRetention] only writes log lines and
    deletes rows: it makes no call to a storage backend. *)
Lemma retention_is_bookkeeping (nodeId : Z) (kind : StorageType) (keep : Z) :
  rel bookkeeping (applyRetention nodeId kind keep).
Proof. rel_walk bookkeeping_refl bookkeeping_trans bookkeeping_leaf. Qed.

(** C1 (failing input).  Two completed runs of one node on local storage
    and a retention count of 1: [applyRetention] deletes the record of the
    older run and logs it, and takes no other step, so the artifact
    [old.tar.gz] stays in the storage directory; [deleteBackup] on the same
    record first removes that file from the storage directory. *)
Theorem retention_leaves_artifact :
  map id (afterRetention 1 local 1 Scenario.two_finished) = [2]
  /\ List.filter (fun e => negb (is_db e))
       (newEvents Scenario.two_finished
          (snd (applyRetention 1 local 1 Scenario.two_finished)))
     = [ELog info "Retention: deleting backup 1"]
  /\ List.filter (fun e => negb (is_db e))
       (newEvents Scenario.two_finished
          (snd (deleteBackup Scenario.calm 1 Scenario.two_finished)))
     = [EUnlink "/srv/app/data/backups/old.tar.gz";
        ELog info "Deleted backup 1"].
Proof. repeat split; vm_compute; reflexivity. Qed.

(** ** The session to the node *)



Lemma same_session_refl (w : World) : same_session w w.
Proof. reflexivity. Qed.

Lemma same_session_trans (a b c : World) :
  same_session a b -> same_session b c -> same_session a c.
Proof. unfold same_session. congruence. Qed.

Lemma closed_stays (w w' : World) :
  session_open w = false -> same_session w w' -> session_open w' = false.
Proof. unfold same_session. congruence. Qed.

Ltac session_leaf := unfold same_session; simpl; reflexivity.

(** When the [try] block returns, the session has been closed: this
    covers the run without failure and the run in which downloads
    failed. *)
Lemma pipeline_returns_closed (env : Env) (options : BackupOptions)
    (node : Node) (volumeName file : string) (i startTime : Z) :
  triple (fun _ => True)
    (pipeline env options node volumeName file i startTime)
    (fun _ w => session_open w = false) (fun _ _ => True).
Proof.
  unfold pipeline.
  repeat (cbv zeta;
          lazymatch goal with
          | |- triple _ (client_end _ ≫= _) _ _ => fail
          | |- _ => eapply triple_bind; [apply triple_top | intros ?]
          end).
  eapply triple_bind with (R := fun _ w => session_open w = false).
  { intros w _. unfold client_end. monad_red.
    destruct (sftp_end env); simpl; auto. }
  intros ?.
  eapply triple_conseq;
    [eapply triple_rel with (R := same_session)
       (P := fun w => session_open w = false)
       (P' := fun w => session_open w = false);
       [solve [rel_walk same_session_refl same_session_trans session_leaf]
       |intros ? ?; apply closed_stays]
    | intros ? H; exact H | intros ? ? H; exact H | auto ].
Qed.

Lemma createBackup_returns_closed (env : Env) (options : BackupOptions)
    (w : World) (a : Z) :
  fst (createBackup env options w) = Ok a ->
  session_open (snd (createBackup env options w)) = false.
Proof.
  destruct (List.find (fun n => n_id n =? o_nodeId options) (nodes w))
    as [node|] eqn:Hfind.
  - destruct (createBackup_shape env options w node Hfind) as (w1 & E & _).
    rewrite E, tryCatch_run.
    pose proof (pipeline_returns_closed env options node
                  (volumeNameOf options) (fileOf env options node w)
                  (runId options w) (date_now env (length (trace w))) w1 I)
      as H.
    destruct (pipeline _ _ _ _ _ _ _ w1) as [[b|e] w2]; [auto|].
    destruct (onFailure_run node (volumeNameOf options) (runId options w)
                e w2) as (F & _).
    rewrite F. discriminate.
  - unfold createBackup. rewrite bind_run. cbn [now]. cbv zeta.
    rewrite bind_run. unfold nodeRepo_getById at 1. rewrite Hfind.
    discriminate.
Qed.

(** [testNodeConnection] closes the session on every path. *)
Lemma testNodeConnection_closes (env : Env) (node : Node) (w : World) :
  sftp_end env = Ok tt ->
  session_open (snd (testNodeConnection env node w)) = false.
Proof.
  intros Hend. unfold testNodeConnection, tryFinally.
  destruct (tryCatch _ _ w) as [r w1].
  unfold client_end. monad_red. rewrite Hend. reflexivity.
Qed.

(** C4 (failing input).  The node accepts the connection and then fails
    to list its volumes: [createBackup] throws, no [client.end()] is ever
    called, and the session is still open when the run is over.  On the
    same node [testNodeConnection] leaves the session closed.  (On the
    paths where [createBackup] returns, the session is closed: see
    [createBackup_returns_closed].) *)
Theorem session_left_open_after_failure :
  fst (createBackup Scenario.listing_fails Scenario.all_volumes_to_local
         Scenario.empty_db) = Throw "read ECONNRESET"
  /\ session_open
       (snd (createBackup Scenario.listing_fails
               Scenario.all_volumes_to_local Scenario.empty_db)) = true
  /\ existsb (fun e => match e with EEnd => true | _ => false end)
       (trace (snd (createBackup Scenario.listing_fails
                      Scenario.all_volumes_to_local Scenario.empty_db)))
     = false
  /\ session_open
       (snd (testNodeConnection Scenario.listing_fails Scenario.alpha
               Scenario.empty_db)) = false.
Proof. repeat split; vm_compute; reflexivity. Qed.

(** ** The local backend and path traversal *)

(** [sanitizeFilename] returns the base name, and logs a warning whenever
    the base name differs from the name it was given. *)
Lemma sanitizeFilename_run (name : string) (w : World) :
  fst (sanitizeFilename name w) = Ok (Path.basename name)
  /\ (Path.basename name <> name ->
      newEvents w (snd (sanitizeFilename name w))
      = [ELog warn ("Path traversal attempt blocked: " +:+ name +:+ " -> "
                    +:+ Path.basename name)]).
Proof.
  unfold sanitizeFilename, newEvents. monad_red.
  destruct (negb (Js.truthy (Some (Path.basename name)))
            || negb (String.eqb (Path.basename name) name)) eqn:C; simpl.
  - split; [reflexivity|]. intros _.
    now rewrite skipn_app, Nat.sub_diag, skipn_all.
  - split; [reflexivity|]. intros Hne.
    apply orb_false_iff in C as [_ C]. apply negb_false_iff in C.
    apply String.eqb_eq in C. contradiction.
Qed.

Lemma split_no_slash (s p : string) :
  In p (Path.split s) -> ~ In Path.slash (list_ascii_of_string p).
Proof.
  revert p. induction s as [|c s IH]; simpl; intros p.
  - intros [<-|[]]. simpl. tauto.
  - destruct (Ascii.eqb c Path.slash) eqn:E.
    + intros [<-|H]; [simpl; tauto | now apply IH].
    + apply Ascii.eqb_neq in E.
      destruct (Path.split s) as [|q qs].
      * intros [<-|[]]. simpl. intros [H|[]]. congruence.
      * intros [<-|H]; [|apply IH; now right].
        simpl. intros [H|H]; [congruence|].
        apply (IH q); [now left | exact H].
Qed.

Lemma last_In {A} (l : list A) (d : A) : In (List.last l d) (d :: l).
Proof.
  induction l as [|x xs IH]; [now left|].
  destruct xs as [|y ys]; [right; now left|].
  change (List.last (x :: y :: ys) d) with (List.last (y :: ys) d).
  destruct IH as [IH|IH]; [now left | right; now right].
Qed.

(** The base name of any name is free of [/]. *)
Lemma basename_no_slash (name : string) :
  ~ In Path.slash (list_ascii_of_string (Path.basename name)).
Proof.
  unfold Path.basename.
  destruct (List.filter _ (Path.split name)) as [|x xs] eqn:E;
    [simpl; tauto|].
  apply (split_no_slash name).
  assert (In (List.last xs x) (x :: xs)) as H by apply last_In.
  rewrite <- E in H. now apply filter_In in H as [H _].
Qed.

(** C9 (failing input).  For the name [..] the base name is [..] itself:
    no warning is logged, and the path built from it is the parent of the
    base directory, outside of it; [exists("..")] reports on that
    directory.  The name [x/../y.tar.gz] of the specification is reduced to
    [y.tar.gz] under the base directory. *)
Theorem dotdot_escapes_base_directory :
  sanitizeFilename ".." Scenario.empty_db = (Ok "..", Scenario.empty_db)
  /\ localPathFor Scenario.calm ".." = "/srv/app/data"
  /\ Path.within (local_base Scenario.calm) (localPathFor Scenario.calm "..")
     = false
  /\ Local_exists Scenario.calm ".." Scenario.empty_db
     = (Ok true, Scenario.empty_db)
  /\ localPathFor Scenario.calm "x/../y.tar.gz"
     = "/srv/app/data/backups/y.tar.gz"
  /\ Path.within (local_base Scenario.calm)
       (localPathFor Scenario.calm "x/../y.tar.gz") = true.
Proof. repeat split; vm_compute; reflexivity. Qed.

(** ** [getSize] *)

Ltac storage_red :=
  cbv beta iota delta
    [storage_getSize storage_isConfigured Local_getSize S3_getSize
     S3_getConfig S3_getClient Sftp_getSize Sftp_getClient Sftp_getPath
     Sftp_end sanitizeFilename localPathFor remotePathFor tryFinally
     s3_bucket s3_accessKey];
  monad_red.

Lemma local_getSize_missing (env : Env) (name : string) (w : World) :
  existsSync env (localPathFor env name) = false ->
  fst (storage_getSize env local name w) = Ok 0.
Proof.
  intros H. unfold storage_getSize, Local_getSize. rewrite bind_run.
  destruct (sanitizeFilename_run name w) as [E _].
  destruct (sanitizeFilename name w) as [r w1]. simpl in E. subst r.
  change (resolve env [local_base env; Path.basename name])
    with (localPathFor env name).
  now rewrite H.
Qed.

Lemma s3_getSize_never_raises (env : Env) (name : string) (w : World) :
  exists n, fst (storage_getSize env cloud name w) = Ok n.
Proof.
  storage_red. simpl.
  destruct (negb _ || negb _); simpl; [eauto|].
  destruct (s3_head env _ name) as [[n|]|msg]; simpl; eauto.
Qed.

Lemma s3_getSize_unconfigured (env : Env) (name : string) (w : World) :
  fst (storage_isConfigured cloud w) = Ok false ->
  fst (storage_getSize env cloud name w) = Ok 0.
Proof.
  storage_red. simpl. intros H. injection H as H.
  apply andb_false_iff in H as [-> | ->]; simpl;
    rewrite ?orb_true_r; reflexivity.
Qed.

Lemma s3_getSize_head_fails (env : Env) (name : string) (w : World)
    (msg : string) :
  s3_head env (default "" (settings w !! "s3_bucket")) name = Throw msg ->
  fst (storage_getSize env cloud name w) = Ok 0.
Proof.
  intros H. storage_red. simpl.
  destruct (negb _ || negb _); simpl; [reflexivity|].
  now rewrite H.
Qed.

Lemma sftp_getSize_unconfigured (env : Env) (name : string) (w : World) :
  fst (storage_isConfigured remote w) = Ok false ->
  fst (storage_getSize env remote name w)
  = Throw "SFTP Configuration missing in database".
Proof.
  storage_red. simpl. intros H. injection H as H.
  apply andb_false_iff in H as [-> | ->]; simpl;
    rewrite ?orb_true_r; reflexivity.
Qed.

Lemma sftp_getSize_no_connection (env : Env) (name : string) (w : World)
    (msg : string) :
  fst (storage_isConfigured remote w) = Ok true ->
  (forall h p u, st_connect env h p u = Throw msg) ->
  fst (storage_getSize env remote name w) = Throw msg.
Proof.
  storage_red. simpl. intros H Hc. injection H as H.
  apply andb_true_iff in H as [-> ->]. simpl. now rewrite Hc.
Qed.

Lemma sftp_getSize_stat_fails (env : Env) (name : string) (w : World)
    (msg : string) :
  fst (storage_isConfigured remote w) = Ok true ->
  (forall h p u, st_connect env h p u = Ok tt) ->
  st_end env = Ok tt ->
  st_stat env (remotePathFor w name) = Throw msg ->
  fst (storage_getSize env remote name w) = Ok 0.
Proof.
  storage_red. simpl. intros H Hc He Hs. injection H as H.
  apply andb_true_iff in H as [-> ->]. simpl.
  now rewrite Hc, Hs, He.
Qed.

Lemma sftp_getSize_end_fails (env : Env) (name : string) (w : World)
    (msg : string) :
  fst (storage_isConfigured remote w) = Ok true ->
  (forall h p u, st_connect env h p u = Ok tt) ->
  st_end env = Throw msg ->
  fst (storage_getSize env remote name w) = Throw msg.
Proof.
  storage_red. simpl. intros H Hc He. injection H as H.
  apply andb_true_iff in H as [-> ->]. simpl.
  rewrite Hc, He.
  destruct (st_stat env _); reflexivity.
Qed.

(** C10, amended.  [getSize] returns 0 rather than raising: on the local
    backend when the file does not exist; on object storage when the
    backend is unconfigured or the head request fails, and object storage
    never raises from [getSize]; on the remote filesystem backend when the
    stat fails on a connection that could be opened and closed.  On the
    remote filesystem backend [getSize] raises when the backend is
    unconfigured, when the connection cannot be opened, and when closing
    the connection fails, whatever the stat found. *)
Theorem getSize_zero_or_raise (env : Env) (name : string) (w : World) :
  (existsSync env (localPathFor env name) = false ->
   fst (storage_getSize env local name w) = Ok 0)
  /\ (exists n, fst (storage_getSize env cloud name w) = Ok n)
  /\ (fst (storage_isConfigured cloud w) = Ok false ->
      fst (storage_getSize env cloud name w) = Ok 0)
  /\ (forall msg,
        s3_head env (default "" (settings w !! "s3_bucket")) name
        = Throw msg ->
        fst (storage_getSize env cloud name w) = Ok 0)
  /\ (forall msg,
        fst (storage_isConfigured remote w) = Ok true ->
        (forall h p u, st_connect env h p u = Ok tt) ->
        st_end env = Ok tt ->
        st_stat env (remotePathFor w name) = Throw msg ->
        fst (storage_getSize env remote name w) = Ok 0)
  /\ (fst (storage_isConfigured remote w) = Ok false ->
      fst (storage_getSize env remote name w)
      = Throw "SFTP Configuration missing in database")
  /\ (forall msg,
        fst (storage_isConfigured remote w) = Ok true ->
        (forall h p u, st_connect env h p u = Throw msg) ->
        fst (storage_getSize env remote name w) = Throw msg)
  /\ (forall msg,
        fst (storage_isConfigured remote w) = Ok true ->
        (forall h p u, st_connect env h p u = Ok tt) ->
        st_end env = Throw msg ->
        fst (storage_getSize env remote name w) = Throw msg).
Proof.
  split; [apply local_getSize_missing|].
  split; [apply s3_getSize_never_raises|].
  split; [apply s3_getSize_unconfigured|].
  split; [intros msg; apply s3_getSize_head_fails|].
  split; [intros msg; apply sftp_getSize_stat_fails|].
  split; [apply sftp_getSize_unconfigured|].
  split; [intros msg; apply sftp_getSize_no_connection|].
  intros msg. apply sftp_getSize_end_fails.
Qed.

Lemma getSize_zero_or_raise_witness :
  fst (storage_getSize Scenario.nothing_there local "a.tar.gz"
         Scenario.with_sftp) = Ok 0
  /\ fst (storage_getSize Scenario.nothing_there cloud "a.tar.gz"
          Scenario.with_sftp) = Ok 0
  /\ fst (storage_getSize Scenario.nothing_there remote "a.tar.gz"
          Scenario.with_sftp) = Ok 0.
Proof.
  destruct (getSize_zero_or_raise Scenario.nothing_there "a.tar.gz"
              Scenario.with_sftp) as (H1 & _ & H3 & _ & H5 & _ & _ & _).
  split; [apply H1; reflexivity|].
  split; [apply H3; reflexivity|].
  apply (H5 "No such file"); reflexivity.
Defined.

(** C10 as the specification words it fails on the remote filesystem
    backend: unconfigured, [getSize] raises instead of returning 0. *)
Lemma sftp_getSize_raises_when_unconfigured :
  ~ getSize_zero_when_unconfigured Scenario.calm remote "a.tar.gz"
      Scenario.empty_db.
Proof.
  intros H. specialize (H eq_refl). vm_compute in H. discriminate.
Qed.

(** ** The scenarios of the specification *)

(** Node [alpha] with volumes [v1] and [v2], all volumes, local storage:
    the run ends [completed], under the expected name, and the progress
    written goes through 5, 10, 15, 45, 75, 85, 95 and 100. *)
Example two_volumes_to_local :
  map (fun b => (filename b, status b))
    (backups (snd (createBackup Scenario.calm Scenario.all_volumes_to_local
                     Scenario.empty_db)))
  = [("alpha-all-volumes-2024-01-01T10-00-00-000Z.tar.gz", completed)]
  /\ List.flat_map
       (fun e => match e with EDb rows => map progress rows | _ => [] end)
       (trace (snd (createBackup Scenario.calm
                      Scenario.all_volumes_to_local Scenario.empty_db)))
     = [0; 5; 10; 15; 45; 75; 75; 85; 95; 100].
Proof. split; vm_compute; reflexivity. Qed.

(** The upload throws: the run ends [failed], no storage path is ever
    set, and the error is rethrown. *)
Example upload_throws :
  fst (createBackup Scenario.upload_fails Scenario.all_volumes_to_local
         Scenario.empty_db) = Throw "ENOSPC: no space left on device"
  /\ map (fun b => (status b, storage_path b))
       (backups (snd (createBackup Scenario.upload_fails
                        Scenario.all_volumes_to_local Scenario.empty_db)))
     = [(failed, None)].
Proof. split; vm_compute; reflexivity. Qed.

(** Retention 3 with five completed runs: the two oldest records are
    deleted, the three newest remain. *)
Example retention_three_of_five :
  map id (afterRetention 1 local 3 Scenario.five_finished) = [3; 4; 5].
Proof. vm_compute. reflexivity. Qed.

(** * Records, retention and schedules: further properties *)

Lemma tables_kept_refl (w : World) : tables_kept w w.
Proof. unfold tables_kept. tauto. Qed.

Lemma tables_kept_trans (a b c : World) :
  tables_kept a b -> tables_kept b c -> tables_kept a c.
Proof. unfold tables_kept. intuition congruence. Qed.

Ltac kept_leaf := unfold tables_kept; simpl; tauto.
Ltac kept_walk := rel_walk tables_kept_refl tables_kept_trans kept_leaf.

Lemma kept_log (lvl : Level) (msg : string) : rel tables_kept (log lvl msg).
Proof. kept_walk. Qed.

Lemma kept_storage_delete (env : Env) (kind : StorageType) (a : string) :
  rel tables_kept (storage_delete env kind a).
Proof. kept_walk. Qed.

Lemma kept_storage_upload (env : Env) (kind : StorageType) (a b : string) :
  rel tables_kept (storage_upload env kind a b).
Proof. kept_walk. Qed.

Lemma kept_storage_getSize (env : Env) (kind : StorageType) (a : string) :
  rel tables_kept (storage_getSize env kind a).
Proof. kept_walk. Qed.

Lemma find_some_id (i : Z) (rows : list Backup) (b : Backup) :
  List.find (fun b => id b =? i) rows = Some b -> In b rows /\ id b = i.
Proof.
  intros H. apply find_some in H as [H1 H2]. split; [exact H1|].
  now apply Z.eqb_eq.
Qed.

Lemma find_none_id (i : Z) (rows : list Backup) :
  List.find (fun b => id b =? i) rows = None <-> ~ In i (map id rows).
Proof.
  split.
  - intros H Hin. apply in_map_iff in Hin as (b & Hb & Hin).
    pose proof (find_none _ _ H b Hin) as E. simpl in E.
    apply Z.eqb_neq in E. contradiction.
  - intros H. destruct (List.find _ rows) as [b|] eqn:E; [|reflexivity].
    apply find_some_id in E as [E1 E2]. exfalso. apply H.
    apply in_map_iff. eauto.
Qed.

(** X1.  [deleteBackup]: without a record it throws and changes nothing; with
    a record it returns whatever the storage backend does, and the record and
    its log entries are gone while every other row stays. *)
Theorem deleteBackup_removes_the_record (env : Env) (i : Z) (w : World) :
  (~ In i (map id (backups w)) ->
   deleteBackup env i w = (Throw "Backup not found", w))
  /\ (In i (map id (backups w)) ->
      fst (deleteBackup env i w) = Ok tt
      /\ (forall b, In b (backups (snd (deleteBackup env i w)))
                    <-> In b (backups w) /\ id b <> i)
      /\ (forall r, In r (backup_logs (snd (deleteBackup env i w)))
                    <-> In r (backup_logs w) /\ fst (fst r) <> i)).
Proof.
  split.
  - intros H. apply find_none_id in H.
    unfold deleteBackup. rewrite bind_run. unfold backupRepo_getById at 1.
    now rewrite H.
  - intros H.
    destruct (List.find (fun b => id b =? i) (backups w)) as [b0|] eqn:E;
      [|apply find_none_id in E; contradiction].
    remember (deleteBackup env i w) as res eqn:D.
    unfold deleteBackup in D. rewrite bind_run in D.
    unfold backupRepo_getById at 1 in D. rewrite E in D.
    rewrite bind_run in D.
    set (del := tryCatch _ _) in D.
    assert (K : rel tables_kept del) by (unfold del; kept_walk).
    assert (T : total del).
    { unfold del. apply total_tryCatch. intros e. unfold log. total_walk. }
    destruct (total_run del w T) as (u & R). specialize (K w).
    rewrite R in *. simpl in K.
    destruct K as (_ & KB & KL & _).
    set (w1 := snd (del w)) in *. clearbody w1.
    rewrite bind_run in D. unfold backupRepo_delete at 1 in D.
    cbn [modify] in D. subst res. simpl.
    split; [reflexivity|].
    split.
    + intros b. rewrite List.filter_In, KB, negb_true_iff, Z.eqb_neq. tauto.
    + intros r. rewrite List.filter_In, KL, negb_true_iff, Z.eqb_neq. tauto.
Qed.

Lemma deleteBackup_removes_the_record_witness :
  fst (deleteBackup Scenario.upload_fails 1 Scenario.two_finished) = Ok tt
  /\ map id
       (backups (snd (deleteBackup Scenario.upload_fails 1
                        Scenario.two_finished))) = [2]
  /\ deleteBackup Scenario.calm 3 Scenario.two_finished
     = (Throw "Backup not found", Scenario.two_finished).
Proof.
  destruct (deleteBackup_removes_the_record Scenario.upload_fails 1
              Scenario.two_finished) as [_ H].
  destruct (deleteBackup_removes_the_record Scenario.calm 3
              Scenario.two_finished) as [N _].
  split; [apply H; simpl; tauto|]. split; [reflexivity|].
  apply N. simpl. intuition discriminate.
Defined.


Lemma fresh_id_above (w : World) (b : Backup) :
  In b (backups w) -> id b < fresh_id w.
Proof. intros H. apply max_id_ge in H. unfold fresh_id. lia. Qed.

Lemma find_app_id (i : Z) (x y : list Backup) :
  List.find (fun b => id b =? i) (x ++ y)
  = match List.find (fun b => id b =? i) x with
    | Some b => Some b
    | None => List.find (fun b => id b =? i) y
    end.
Proof.
  induction x as [|a x IH]; simpl; [reflexivity|].
  destruct (id a =? i); [reflexivity | exact IH].
Qed.

Lemma find_old_id (i : Z) (w : World) :
  fresh_id w <= i -> List.find (fun b => id b =? i) (backups w) = None.
Proof.
  intros H. destruct (List.find _ _) as [b|] eqn:E; [|reflexivity].
  apply find_some in E as [E1 E2]. apply Z.eqb_eq in E2.
  apply fresh_id_above in E1. lia.
Qed.

(** X2.  [backupRepo.create] for a node that exists, while ids are left,
    followed by [backupRepo.getById]: the id returned was not in use, the
    record found under it is the one just inserted, the other lookups
    answer as before, and the id is not given out again, also after the
    record has been deleted. *)
Theorem created_record_is_found (env : Env) (nodeId : Z)
    (volume file : string) (kind : StorageType) (st : option Status)
    (started : option string) (w : World) :
  is_Some (List.find (fun n => n_id n =? nodeId) (nodes w)) ->
  fresh_id w <= 9223372036854775807 ->
  let i := fresh_id w in
  let w' := snd (backupRepo_create env nodeId volume file kind st started w) in
  fst (backupRepo_create env nodeId volume file kind st started w) = Ok i
  /\ ~ In i (map id (backups w))
  /\ (exists row,
        backupRepo_getById i w' = (Ok (Some row), w')
        /\ node_id row = nodeId /\ volume_name row = volume
        /\ filename row = file /\ storage_type row = kind
        /\ status row = default running st /\ progress row = 0
        /\ size row = 0 /\ storage_path row = None
        /\ error_message row = None /\ completed_at row = None)
  /\ (forall j, j <> i ->
        fst (backupRepo_getById j w') = fst (backupRepo_getById j w))
  /\ i < fresh_id w'
  /\ i < fresh_id (snd (backupRepo_delete i w')).
Proof.
  intros _ _ i w'. subst w'. unfold backupRepo_create. cbn [fst snd].
  fold i. split; [reflexivity|].
  split.
  { intros H. apply in_map_iff in H as (b & Hb & Hin).
    apply fresh_id_above in Hin. subst i. lia. }
  split.
  { eexists. unfold backupRepo_getById. cbn [backups with_seq with_backups].
    rewrite find_app_id, (find_old_id i w) by (subst i; lia).
    cbn [List.find id]. rewrite Z.eqb_refl.
    split; [reflexivity|]. cbn. tauto. }
  split.
  { intros j Hj. unfold backupRepo_getById.
    cbn [fst backups with_seq with_backups].
    rewrite find_app_id. destruct (List.find _ (backups w)); [reflexivity|].
    cbn [List.find id]. apply Z.eqb_neq in Hj. rewrite Z.eqb_sym in Hj.
    now rewrite Hj. }
  split.
  - unfold fresh_id at 1. cbn [backup_seq with_seq]. lia.
  - unfold fresh_id at 1, backupRepo_delete. cbn. lia.
Qed.

Lemma created_record_is_found_witness :
  fst (backupRepo_create Scenario.calm 1 "v1" "pending" local (Some pending)
         None Scenario.empty_db) = Ok 1
  /\ exists row,
       backupRepo_getById 1
         (snd (backupRepo_create Scenario.calm 1 "v1" "pending" local
                 (Some pending) None Scenario.empty_db))
       = (Ok (Some row),
          snd (backupRepo_create Scenario.calm 1 "v1" "pending" local
                 (Some pending) None Scenario.empty_db))
       /\ status row = pending.
Proof.
  assert (H1 : is_Some (List.find (fun n => n_id n =? 1)
                          (nodes Scenario.empty_db)))
    by (eexists; reflexivity).
  assert (H2 : fresh_id Scenario.empty_db <= 9223372036854775807)
    by (vm_compute; discriminate).
  destruct (created_record_is_found Scenario.calm 1 "v1" "pending" local
              (Some pending) None Scenario.empty_db H1 H2)
    as (R & _ & (row & G & _ & _ & _ & _ & S & _) & _).
  split; [exact R|]. exists row. split; [exact G | exact S].
Defined.

Lemma pipeline_returns_its_id (env : Env) (options : BackupOptions)
    (node : Node) (volumeName file : string) (i startTime : Z) :
  triple (fun _ => True)
    (pipeline env options node volumeName file i startTime)
    (fun a _ => a = i) (fun _ _ => True).
Proof.
  unfold pipeline.
  repeat (cbv zeta;
          lazymatch goal with
          | |- triple _ (_ ≫= _) _ _ =>
              eapply triple_bind; [apply triple_top | intros ?]
          end).
  intros w _. reflexivity.
Qed.

Lemma createBackup_returns (env : Env) (options : BackupOptions)
    (w : World) (a : Z) :
  fst (createBackup env options w) = Ok a ->
  a = runId options w
  /\ (forall b, In b (backups (snd (createBackup env options w))) ->
                id b = a ->
                status b = completed /\ progress b = 100
                /\ is_Some (storage_path b))
  /\ (o_backupId options = None \/ In a (map id (backups w)) ->
      In a (map id (backups (snd (createBackup env options w)))))
  /\ session_open (snd (createBackup env options w)) = false.
Proof.
  intros H.
  destruct (List.find (fun n => n_id n =? o_nodeId options) (nodes w))
    as [node|] eqn:Hfind.
  2:{ unfold createBackup in H. rewrite bind_run in H. cbn [now] in H.
      cbv zeta in H. rewrite bind_run in H.
      unfold nodeRepo_getById at 1 in H. rewrite Hfind in H.
      discriminate. }
  destruct (createBackup_shape env options w node Hfind)
    as (w1 & E & _ & _ & _ & Hin).
  rewrite E in *. rewrite tryCatch_run in *.
  pose proof (pipeline_returns_its_id env options node
                (volumeNameOf options) (fileOf env options node w)
                (runId options w) (date_now env (length (trace w))) w1 I)
    as V.
  pose proof (pipeline_returns_completed env options node
                (volumeNameOf options) (fileOf env options node w)
                (runId options w) (date_now env (length (trace w))) w1 I)
    as D.
  pose proof (pipeline_returns_closed env options node
                (volumeNameOf options) (fileOf env options node w)
                (runId options w) (date_now env (length (trace w))) w1 I)
    as C.
  pose proof (steady_pipeline env options node
                (volumeNameOf options) (fileOf env options node w)
                (runId options w) (date_now env (length (trace w))) w1)
    as S.
  destruct (pipeline _ _ _ _ _ _ _ w1) as [[b|e] w2].
  - simpl in *. injection H as <-. subst b.
    split; [reflexivity|]. split; [exact D|]. split; [|exact C].
    intros Hi. destruct S as (_ & _ & S & _). rewrite S. auto.
  - destruct (onFailure_run node (volumeNameOf options) (runId options w)
                e w2) as (F & _).
    rewrite F in H. discriminate.
Qed.

(** X3.  A run that returns: the value is the id of the run, the record of the
    run is completed with progress 100 and a storage path, and the session to
    the node is closed. *)
Theorem returned_run_is_completed (env : Env) (options : BackupOptions)
    (w : World) (a : Z) :
  fst (createBackup env options w) = Ok a ->
  a = runId options w
  /\ (forall b, In b (backups (snd (createBackup env options w))) ->
                id b = a ->
                status b = completed /\ progress b = 100
                /\ is_Some (storage_path b))
  /\ (o_backupId options = None \/ In a (map id (backups w)) ->
      In a (map id (backups (snd (createBackup env options w)))))
  /\ session_open (snd (createBackup env options w)) = false.
Proof. exact (createBackup_returns env options w a). Qed.

Lemma returned_run_is_completed_witness :
  fst (createBackup Scenario.calm Scenario.all_volumes_to_local
         Scenario.empty_db) = Ok 1
  /\ session_open
       (snd (createBackup Scenario.calm Scenario.all_volumes_to_local
               Scenario.empty_db)) = false.
Proof.
  assert (H : fst (createBackup Scenario.calm Scenario.all_volumes_to_local
                     Scenario.empty_db) = Ok 1) by (vm_compute; reflexivity).
  split; [exact H|].
  exact (proj2 (proj2 (proj2
    (returned_run_is_completed Scenario.calm Scenario.all_volumes_to_local
       Scenario.empty_db 1 H)))).
Defined.

Lemma survivors_unique (del rows : list Backup) :
  List.NoDup (map id rows) -> List.NoDup (map id (survivors del rows)).
Proof.
  unfold survivors. induction rows as [|b rows IH]; simpl; [auto|].
  intros H. inversion H as [|? ? Hn Hr]; subst.
  destruct (negb _); simpl; [|auto].
  constructor; [|auto]. intros Hin. apply Hn.
  apply in_map_iff in Hin as (x & Hx & Hin). apply filter_In in Hin as [Hin _].
  apply in_map_iff. eauto.
Qed.

Lemma keptCount_le (keep : Z) (n : nat) :
  0 <= keep -> Z.of_nat (keptCount keep n) <= keep.
Proof.
  intros H. unfold keptCount, js_slice_start.
  destruct (keep <? Z.of_nat n) eqn:E.
  - apply Z.ltb_lt in E.
    destruct (keep <? 0) eqn:E0; [apply Z.ltb_lt in E0; lia|].
    rewrite Z2Nat.id; lia.
  - apply Z.ltb_ge in E. lia.
Qed.

(** X4.  Applied a second time with a retention count that is not negative,
    retention finds nothing to delete: the world stays as the first pass left
    it. *)
Theorem retention_twice_is_once (nodeId : Z) (kind : StorageType) (keep : Z)
    (w : World) :
  List.NoDup (map id (backups w)) -> 0 <= keep ->
  applyRetention nodeId kind keep (snd (applyRetention nodeId kind keep w))
  = (Ok tt, snd (applyRetention nodeId kind keep w)).
Proof.
  intros U K.
  set (w' := snd (applyRetention nodeId kind keep w)).
  assert (B : backups w' = afterRetention nodeId kind keep w) by reflexivity.
  rewrite applyRetention_run.
  assert (L : Z.of_nat (length (candidatesOf nodeId kind (backups w')))
              <= keep).
  { rewrite (Permutation_length (candidatesOf_perm nodeId kind (backups w'))).
    rewrite B.
    pose proof (keptCount_le keep
                  (length (candidatesOf nodeId kind (backups w))) K) as Hk.
    assert (Nat.le
              (length (completedFor nodeId kind
                         (afterRetention nodeId kind keep w)))
              (keptCount keep
                 (length (candidatesOf nodeId kind (backups w))))); [|lia].
    etransitivity; [|apply firstn_le_length].
    apply List.NoDup_incl_length.
    - unfold completedFor. apply List.NoDup_filter.
      eapply List.NoDup_map_inv with (f := id).
      rewrite after_survivors. now apply survivors_unique.
    - intros k Hk'. now apply kept_in_front. }
  unfold toDelete.
  destruct (keep <? _) eqn:E; [apply Z.ltb_lt in E; lia|].
  reflexivity.
Qed.

Lemma retention_twice_is_once_witness :
  map id
    (backups
       (snd (applyRetention 1 local 3
               (snd (applyRetention 1 local 3 Scenario.five_finished)))))
  = [3; 4; 5].
Proof.
  rewrite (retention_twice_is_once 1 local 3 Scenario.five_finished);
    [reflexivity | | lia].
  repeat constructor; simpl; intuition discriminate.
Defined.

Lemma schedules_kept_refl (w : World) : schedules_kept w w.
Proof. reflexivity. Qed.

Lemma schedules_kept_trans (a b c : World) :
  schedules_kept a b -> schedules_kept b c -> schedules_kept a c.
Proof. unfold schedules_kept. congruence. Qed.

Ltac schedules_leaf := unfold schedules_kept; simpl; reflexivity.
Ltac schedules_walk :=
  rel_walk schedules_kept_refl schedules_kept_trans schedules_leaf.

Lemma schedules_waitOffline (env : Env) (v : string) (j : nat) :
  rel schedules_kept (waitOffline env v j).
Proof. induction j as [|j IH]; simpl; schedules_walk. Qed.

Lemma schedules_forVolumes (env : Env) (i : Z) (vp td : string) (n k : nat)
    (vols : list string) :
  rel schedules_kept (forVolumes env i vp td n k vols).
Proof.
  pose proof (schedules_waitOffline env) as W.
  revert k. induction vols as [|v vols IH]; intros k; simpl; schedules_walk.
Qed.

Lemma schedules_createBackup (env : Env) (options : BackupOptions) :
  rel schedules_kept (createBackup env options).
Proof.
  pose proof (schedules_forVolumes env) as F.
  schedules_walk.
Qed.

Lemma total_log (lvl : Level) (msg : string) : total (log lvl msg).
Proof. unfold log. total_walk. Qed.

Lemma touch_schedules (i : Z) (stamp : string) (w : World) :
  scheduleRepo_touch i stamp w
  = (Ok tt, snd (scheduleRepo_touch i stamp w))
  /\ backups (snd (scheduleRepo_touch i stamp w)) = backups w
  /\ (forall s', In s' (schedules (snd (scheduleRepo_touch i stamp w))) ->
        (s_id s' = i -> s_last_run s' = Some stamp)
        /\ (s_id s' <> i -> In s' (schedules w))).
Proof.
  unfold scheduleRepo_touch, modify. cbn [fst snd schedules with_schedules].
  split; [reflexivity|]. split; [reflexivity|].
  intros s' H. apply in_map_iff in H as (s0 & E & H).
  destruct (s_id s0 =? i) eqn:Z.
  - subst s'. cbn. apply Z.eqb_eq in Z. split; [reflexivity|].
    intros N. contradiction.
  - subst s'. apply Z.eqb_neq in Z. split; [contradiction | auto].
Qed.

Lemma retention_reads_the_table (nodeId : Z) (kind : StorageType) (keep : Z)
    (w w' : World) :
  backups w' = backups w ->
  schedules (snd (applyRetention nodeId kind keep w')) = schedules w'
  /\ backups (snd (applyRetention nodeId kind keep w'))
     = afterRetention nodeId kind keep w.
Proof.
  intros B. split.
  - assert (R : rel schedules_kept (applyRetention nodeId kind keep))
      by schedules_walk.
    apply R.
  - unfold afterRetention. rewrite !applyRetention_run.
    rewrite (proj2 (deleteEach_run _ w')), (proj2 (deleteEach_run _ w)).
    now rewrite B.
Qed.

(** X5.  A schedule that fires never throws, and what it does next follows the
    outcome of its run.  When the run fails, the error is logged and nothing
    else happens: [last_run] is not written and retention is not applied.
    When the run returns, [last_run] of the schedule is set to the time at
    which the run ended, the other schedules stay, and retention is applied to
    the table that the run left. *)
Theorem trigger_follows_the_run (env : Env) (s : Schedule) (w : World) :
  let run := createBackup env (scheduledOptions s) (announced s w) in
  fst (onTrigger env s w) = Ok tt
  /\ (forall e,
        fst run = Throw e ->
        schedules (snd (onTrigger env s w)) = schedules w
        /\ backups (snd (onTrigger env s w)) = backups (snd run)
        /\ trace (snd (onTrigger env s w))
           = trace (snd run)
             ++ [ELog error ("Schedule failed: Error: " +:+ e)])
  /\ (forall a,
        fst run = Ok a ->
        backups (snd (onTrigger env s w))
        = afterRetention (s_node_id s) (s_storage_type s)
            (s_retention_count s) (snd run)
        /\ forall s', In s' (schedules (snd (onTrigger env s w))) ->
             (s_id s' = s_id s ->
              s_last_run s' = Some (iso_now env (length (trace (snd run)))))
             /\ (s_id s' <> s_id s -> In s' (schedules w))).
Proof.
  cbv zeta. split; [|split].
  - assert (T : total (onTrigger env s)).
    { unfold onTrigger. apply total_bind; [apply total_log|]. intros _.
      apply total_tryCatch. intros e. apply total_log. }
    destruct (T w) as [[] Hu]. exact Hu.
  - intros e H.
    pose proof (schedules_createBackup env (scheduledOptions s)
                  (announced s w)) as K.
    unfold onTrigger. rewrite !bind_run.
    change (log info ("Running schedule: " +:+ s_name s) w)
      with (Ok tt, announced s w).
    cbv iota. rewrite tryCatch_run, bind_run.
    fold (scheduledOptions s).
    destruct (createBackup env (scheduledOptions s) (announced s w))
      as [[a|e'] w2]; simpl in H; [discriminate|].
    injection H as ->. simpl in *.
    split; [|split; reflexivity].
    unfold schedules_kept in K. rewrite K. reflexivity.
  - intros a H.
    pose proof (schedules_createBackup env (scheduledOptions s)
                  (announced s w)) as K.
    unfold onTrigger. rewrite !bind_run.
    change (log info ("Running schedule: " +:+ s_name s) w)
      with (Ok tt, announced s w).
    cbv iota. rewrite tryCatch_run, bind_run.
    fold (scheduledOptions s).
    destruct (createBackup env (scheduledOptions s) (announced s w))
      as [[a'|e'] w2]; simpl in H; [|discriminate].
    cbn [snd] in *. rewrite !bind_run. cbn [now]. rewrite !bind_run.
    destruct (touch_schedules (s_id s) (iso_now env (length (trace w2))) w2)
      as (E & B & Hs).
    rewrite E.
    destruct (retention_reads_the_table (s_node_id s) (s_storage_type s)
                (s_retention_count s) w2 _ B) as (S' & B').
    destruct (applyRetention _ _ _ _) as [[u|e] w4]; cbn [snd] in *.
    + split; [exact B'|]. rewrite S'. intros s' Hin.
      destruct (Hs s' Hin) as [H1 H2]. split; [exact H1|].
      intros N. specialize (H2 N). unfold schedules_kept in K.
      rewrite K in H2. exact H2.
    + split; [exact B'|]. cbn [log emit modify snd schedules].
      rewrite S'. intros s' Hin.
      destruct (Hs s' Hin) as [H1 H2]. split; [exact H1|].
      intros N. specialize (H2 N). unfold schedules_kept in K.
      rewrite K in H2. exact H2.
Qed.

Lemma trigger_follows_the_run_witness :
  map s_last_run
    (schedules (snd (onTrigger Scenario.calm Site.nightly Site.planned)))
  = [Some "2024-01-01T10:00:00.000Z"; None; None]
  /\ fst (onTrigger Scenario.listing_fails Site.nightly Site.planned) = Ok tt.
Proof.
  split; [reflexivity|].
  exact (proj1 (trigger_follows_the_run Scenario.listing_fails Site.nightly
                  Site.planned)).
Defined.

Lemma keptCount_positive (keep : Z) (n : nat) :
  1 <= keep -> (1 <= n)%nat -> (1 <= keptCount keep n)%nat.
Proof.
  intros K N. unfold keptCount, js_slice_start.
  destruct (keep <? Z.of_nat n) eqn:E; [|exact N].
  apply Z.ltb_lt in E.
  destruct (keep <? 0) eqn:E0; [apply Z.ltb_lt in E0; lia|].
  lia.
Qed.

(** X6.  With a retention count of at least one, retention keeps the newest
    completed run of the node on the storage kind: a run that is newer than
    every other such run is still there afterwards. *)
Theorem newest_completed_run_is_kept (nodeId : Z) (kind : StorageType)
    (keep : Z) (w : World) (b : Backup) :
  List.NoDup (map id (backups w)) -> 1 <= keep ->
  In b (completedFor nodeId kind (backups w)) ->
  (forall b', In b' (completedFor nodeId kind (backups w)) -> b' <> b ->
              created_at b' < created_at b) ->
  In b (afterRetention nodeId kind keep w).
Proof.
  intros U K Hb Hnew.
  rewrite after_survivors. apply survivors_In.
  split; [apply completedFor_In in Hb; tauto|].
  intros d Hd Hid.
  set (cand := candidatesOf nodeId kind (backups w)) in *.
  assert (Hc : In b cand) by (now apply candidatesOf_In).
  assert (Dc : In d cand) by (apply (del_in_cand nodeId kind keep w d Hd)).
  assert (d = b) as ->.
  { apply (id_determines_row (backups w)); auto.
    - apply candidatesOf_In, completedFor_In in Dc. tauto.
    - apply completedFor_In in Hb. tauto. }
  assert (N : List.NoDup cand).
  { eapply Permutation_NoDup;
      [apply Permutation_sym, candidatesOf_perm|].
    unfold completedFor. apply List.NoDup_filter.
    eapply List.NoDup_map_inv. exact U. }
  pose proof (candidatesOf_sorted nodeId kind (backups w)) as Srt.
  fold cand in Srt, Hd. rewrite toDelete_drop in Hd.
  destruct cand as [|c0 rest] eqn:Ec; [contradiction|].
  assert (c0 = b) as ->.
  { destruct Hc as [E|Hc]; [exact E|].
    inversion Srt as [|? ? _ Hall]; subst.
    rewrite List.Forall_forall in Hall. specialize (Hall b Hc).
    inversion N as [|? ? Hn _]; subst.
    assert (c0 <> b) as Hneq by (intros ->; contradiction).
    assert (In c0 (completedFor nodeId kind (backups w))) as H0.
    { apply candidatesOf_In. fold cand. rewrite Ec. now left. }
    specialize (Hnew c0 H0 Hneq). lia. }
  pose proof (keptCount_positive keep (length (b :: rest)) K) as P.
  cbn [length] in P. specialize (P ltac:(lia)).
  destruct (keptCount keep (S (length rest))) as [|k] eqn:Ek; [lia|].
  cbn [length] in Hd. rewrite Ek in Hd. cbn [skipn] in Hd.
  apply In_skipn_inv in Hd.
  inversion N as [|? ? Hn _]; subst. contradiction.
Qed.

Lemma newest_completed_run_is_kept_witness :
  In (Scenario.finished 5 5000 "e.tar.gz")
     (afterRetention 1 local 1 Scenario.five_finished).
Proof.
  apply newest_completed_run_is_kept.
  - repeat constructor; simpl; intuition discriminate.
  - lia.
  - simpl. tauto.
  - intros b' H N. simpl in H.
    destruct H as [<-|[<-|[<-|[<-|[<-|[]]]]]]; simpl; try lia.
    contradiction.
Defined.

(** * Storage backends and the node: further properties *)

Ltac backend_red :=
  cbv beta iota delta
    [storage_upload storage_delete storage_getSize storage_isConfigured
     S3_upload S3_delete S3_getSize S3_getConfig S3_getClient
     Sftp_upload Sftp_delete Sftp_getSize Sftp_getClient Sftp_getPath
     Sftp_end tryFinally s3_bucket s3_accessKey];
  monad_red.

(** X7.  A backend that [storage.isConfigured] reports as not configured is
    never contacted: [upload], [delete] and [getSize] take no step and leave
    the world as it is.  [upload] throws; on the remote backend [delete] and
    [getSize] throw as well, while on object storage [getSize] returns 0 and
    [delete] returns quietly when the bucket is missing and throws when only
    the access key is. *)
Theorem unconfigured_backend_is_not_contacted (env : Env)
    (kind : StorageType) (w : World) :
  fst (storage_isConfigured kind w) = Ok false ->
  (forall p n,
     snd (storage_upload env kind p n w) = w
     /\ exists e, fst (storage_upload env kind p n w) = Throw e)
  /\ (forall n,
        snd (storage_delete env kind n w) = w
        /\ fst (storage_delete env kind n w)
           = match kind with
             | remote => Throw "SFTP Configuration missing in database"
             | _ =>
                 if Js.truthy (settings w !! "s3_bucket")
                 then Throw "S3 Configuration missing in database"
                 else Ok tt
             end)
  /\ (forall n,
        snd (storage_getSize env kind n w) = w
        /\ fst (storage_getSize env kind n w)
           = match kind with
             | remote => Throw "SFTP Configuration missing in database"
             | _ => Ok 0
             end).
Proof.
  destruct kind; backend_red; cbn [fst].
  - discriminate.
  - intros H. injection H as H.
    destruct (Js.truthy (settings w !! "s3_bucket")) eqn:B; simpl in H;
      cbn; rewrite ?B, ?H; cbn; repeat split; eauto.
  - intros H. injection H as H.
    destruct (Js.truthy (settings w !! "sftp_host")) eqn:B; simpl in H;
      cbn; rewrite ?B, ?H; cbn; repeat split; eauto.
Qed.

Lemma unconfigured_backend_is_not_contacted_witness :
  storage_upload Scenario.calm remote "/tmp/a" "a.tar.gz" Scenario.empty_db
  = (Throw "SFTP Configuration missing in database", Scenario.empty_db)
  /\ storage_delete Scenario.calm cloud "a.tar.gz" Scenario.empty_db
     = (Ok tt, Scenario.empty_db).
Proof.
  destruct (unconfigured_backend_is_not_contacted Scenario.calm cloud
              Scenario.empty_db eq_refl) as (_ & D & _).
  split; [reflexivity|].
  destruct (D "a.tar.gz") as [D1 D2].
  rewrite (surjective_pairing (storage_delete _ _ _ _)), D1, D2. reflexivity.
Defined.

Lemma split_nonempty (s : string) : Path.split s <> [].
Proof.
  induction s as [|c r IH]; simpl; [discriminate|].
  destruct (Ascii.eqb c Path.slash); [discriminate|].
  destruct (Path.split r); discriminate.
Qed.

Lemma split_app (a b : string) :
  Path.split (a +:+ "/" +:+ b) = Path.split a ++ Path.split b.
Proof.
  induction a as [|c r IH]; [reflexivity|].
  change (String c r +:+ "/" +:+ b) with (String c (r +:+ "/" +:+ b)).
  cbn [Path.split]. rewrite IH.
  destruct (Ascii.eqb c Path.slash); [reflexivity|].
  pose proof (split_nonempty r) as N.
  destruct (Path.split r) as [|p ps]; [contradiction | reflexivity].
Qed.

Lemma split_plain (s : string) :
  ~ In Path.slash (list_ascii_of_string s) -> Path.split s = [s].
Proof.
  induction s as [|c r IH]; [reflexivity|].
  cbn [list_ascii_of_string In Path.split]. intros H.
  destruct (Ascii.eqb c Path.slash) eqn:E.
  - apply Ascii.eqb_eq in E. exfalso. apply H. now left.
  - rewrite IH by tauto. reflexivity.
Qed.

Lemma append_cons (c : ascii) (a b : string) :
  String c a +:+ b = String c (a +:+ b).
Proof. reflexivity. Qed.

Lemma append_assoc' (a b c : string) : (a +:+ b) +:+ c = a +:+ (b +:+ c).
Proof.
  induction a as [|x a IH]; [reflexivity|].
  now rewrite !append_cons, IH.
Qed.

Lemma prefix_append (a b : string) : String.prefix a (a +:+ b) = true.
Proof.
  induction a as [|x a IH]; [now destruct b|].
  rewrite append_cons. cbn [String.prefix].
  destruct (ascii_dec x x); [exact IH | contradiction].
Qed.

Lemma append_nil_r (a : string) : a +:+ "" = a.
Proof.
  induction a as [|x a IH]; [reflexivity|]. now rewrite append_cons, IH.
Qed.

Lemma join_tail (cs : list string) (t : string) :
  fold_right (fun c r => "/" +:+ c +:+ r) t cs
  = fold_right (fun c r => "/" +:+ c +:+ r) "" cs +:+ t.
Proof.
  induction cs as [|c cs IH]; [reflexivity|].
  cbn [fold_right]. now rewrite IH, !append_assoc'.
Qed.

Lemma join_snoc (cs : list string) (seg : string) :
  cs <> [] -> Path.join (cs ++ [seg]) = Path.join cs +:+ "/" +:+ seg.
Proof.
  intros H. unfold Path.join.
  destruct cs as [|c cs]; [contradiction|].
  cbn [app fold_right]. rewrite fold_right_app. cbn [fold_right].
  rewrite (join_tail cs), !append_assoc', append_nil_r. reflexivity.
Qed.

Lemma normalize_snoc (l : list string) (seg : string) :
  Path.normalize (l ++ [seg])
  = if String.eqb seg "" || String.eqb seg "." then Path.normalize l
    else if String.eqb seg ".." then rev (tail (rev (Path.normalize l)))
    else Path.normalize l ++ [seg].
Proof.
  unfold Path.normalize. rewrite fold_left_app. cbn [fold_left].
  unfold Path.push at 1. rewrite rev_involutive.
  destruct (_ || _); [reflexivity|].
  destruct (String.eqb seg ".."); reflexivity.
Qed.

Lemma no_slash_no_start (seg : string) :
  ~ In Path.slash (list_ascii_of_string seg) -> Js.startsWith "/" seg = false.
Proof.
  destruct seg as [|c r]; [reflexivity|].
  unfold Js.startsWith. cbn [String.prefix list_ascii_of_string In].
  intros H. destruct (ascii_dec "/" c) as [<-|]; [|reflexivity].
  exfalso. apply H. now left.
Qed.

(** The path that the local backend builds for the segment [seg], when
    the base directory is a resolved path other than the root. *)
Lemma resolve_in_base (env : Env) (seg : string) :
  resolve env [local_base env] = local_base env ->
  local_base env <> "/" ->
  ~ In Path.slash (list_ascii_of_string seg) ->
  seg <> ".." ->
  resolve env [local_base env; seg]
  = if String.eqb seg "" || String.eqb seg "." then local_base env
    else local_base env +:+ "/" +:+ seg.
Proof.
  unfold resolve, Path.resolve_from. cbn [fold_left].
  set (raw := if String.eqb (local_base env) "" then cwd env
              else if Js.startsWith "/" (local_base env) then local_base env
                   else cwd env +:+ "/" +:+ local_base env).
  intros Hbase Hroot Hseg Hdd.
  destruct (String.eqb seg "") eqn:E0.
  { simpl. exact Hbase. }
  rewrite (no_slash_no_start seg Hseg).
  rewrite split_app, (split_plain seg Hseg), normalize_snoc, E0.
  cbn [orb].
  destruct (String.eqb seg ".") eqn:E1; [exact Hbase|].
  destruct (String.eqb seg "..") eqn:E2;
    [apply String.eqb_eq in E2; contradiction|].
  rewrite join_snoc; [now rewrite Hbase|].
  intros N. rewrite N in Hbase. simpl in Hbase. congruence.
Qed.

(** X8.  Apart from names whose base name is [".."], every file name handed to
    the local backend resolves to the base directory or to a path directly
    below it. *)
Theorem local_paths_stay_in_base (env : Env) (name : string) :
  resolve env [local_base env] = local_base env ->
  local_base env <> "/" ->
  Path.basename name <> ".." ->
  Path.within (local_base env) (localPathFor env name) = true
  /\ (Path.basename name <> "" -> Path.basename name <> "." ->
      localPathFor env name
      = local_base env +:+ "/" +:+ Path.basename name).
Proof.
  intros Hbase Hroot Hdd. unfold localPathFor.
  rewrite (resolve_in_base env (Path.basename name) Hbase Hroot
             (basename_no_slash name) Hdd).
  unfold Path.within.
  destruct (String.eqb (Path.basename name) "") eqn:E0;
    [rewrite String.eqb_refl|];
    destruct (String.eqb (Path.basename name) ".") eqn:E1;
    cbn [orb]; rewrite ?String.eqb_refl.
  - split; [reflexivity|]. apply String.eqb_eq in E0. tauto.
  - split; [reflexivity|]. apply String.eqb_eq in E0. tauto.
  - split; [reflexivity|]. apply String.eqb_eq in E1. tauto.
  - split; [|reflexivity]. apply orb_true_iff. right.
    unfold Js.startsWith. rewrite <- append_assoc'. apply prefix_append.
Qed.

Lemma local_paths_stay_in_base_witness :
  Path.within (local_base Scenario.calm)
    (localPathFor Scenario.calm "../../etc/passwd") = true
  /\ localPathFor Scenario.calm "../../etc/passwd"
     = "/srv/app/data/backups/passwd".
Proof.
  assert (H1 : resolve Scenario.calm [local_base Scenario.calm]
               = local_base Scenario.calm) by reflexivity.
  assert (H2 : local_base Scenario.calm <> "/") by discriminate.
  assert (H3 : Path.basename "../../etc/passwd" <> "..") by discriminate.
  destruct (local_paths_stay_in_base Scenario.calm "../../etc/passwd"
              H1 H2 H3) as [W P].
  split; [exact W|]. rewrite P; [reflexivity | discriminate | discriminate].
Defined.

Lemma within_session_refl (w : World) : within_session w w.
Proof. split; [reflexivity|]. now apply appended_refl. Qed.

Lemma within_session_trans (a b c : World) :
  within_session a b -> within_session b c -> within_session a c.
Proof.
  intros [S1 T1] [S2 T2]. split; [congruence|].
  eapply appended_trans; eauto. apply forallb_app_true.
Qed.

Ltac session_step_leaf :=
  unfold within_session, appended; simpl; split; [reflexivity|];
  first
    [ exists []; split; [now rewrite app_nil_r | reflexivity]
    | eexists; split; [reflexivity | reflexivity] ].

Ltac within_walk :=
  rel_walk within_session_refl within_session_trans session_step_leaf.

Lemma session_bracket (env : Env) {A} (b : M A) :
  rel within_session b ->
  ends_what_it_opens env (Sftp_getClient env ;; tryFinally b (Sftp_end env)).
Proof.
  intros Hb w Hc. unfold storage_isConfigured in Hc.
  revert Hc. monad_red. cbn [fst]. intros Hc. injection Hc as Hc.
  apply andb_true_iff in Hc as [H1 H2].
  unfold storageConnection, newEvents.
  unfold Sftp_getClient, tryFinally, Sftp_end. monad_red.
  rewrite H1, H2. cbn [negb orb].
  destruct (st_connect env _ _ _) as [[]|e]; cbn [fst snd trace].
  - match goal with
    | |- context [b ?w0] => specialize (Hb w0); destruct (b w0) as [r w1]
    end.
    destruct Hb as (_ & evs & T & F). cbn [snd trace] in T.
    exists evs. split; [|exact F].
    destruct (st_end env); cbn [snd trace]; rewrite T, <- !app_assoc;
      now rewrite drop_app_length.
  - split; [reflexivity|]. now rewrite drop_app_length.
Qed.

(** X9.  Every method of the remote backend ends the connection it has opened,
    on every path: the connection is attempted once, and when it is up
    [client.end()] is the last step, whether the operation succeeded or
    threw. *)
Theorem sftp_storage_ends_its_connection (env : Env) (rd : Reader)
    (localPath name : string) :
  ends_what_it_opens env (Sftp_upload env localPath name)
  /\ ends_what_it_opens env (Sftp_download env rd name localPath)
  /\ ends_what_it_opens env (Sftp_delete env name)
  /\ ends_what_it_opens env (Sftp_exists env name)
  /\ ends_what_it_opens env (Sftp_list env rd)
  /\ ends_what_it_opens env (Sftp_getSize env name).
Proof.
  repeat split; apply session_bracket; within_walk.
Qed.

Lemma sftp_storage_ends_its_connection_witness :
  exists evs,
    newEvents Scenario.with_sftp
      (snd (Sftp_getSize Scenario.nothing_there "a.tar.gz"
              Scenario.with_sftp))
    = EStorageConnect :: evs ++ [EStorageEnd].
Proof.
  destruct (sftp_storage_ends_its_connection Scenario.nothing_there
              Site.bare
              "/tmp/a" "a.tar.gz") as (_ & _ & _ & _ & _ & H).
  destruct (H Scenario.with_sftp eq_refl) as (evs & E & _).
  exists evs. exact E.
Defined.

(** X10.  [getBackupFile] serves completed runs only.  What it returns belongs
    to a completed record with that id and carries the name and the size of
    the record; for local storage it is the file at the recorded storage path,
    which exists, and nothing was touched to find it; for the other backends
    it is the temporary file the artifact was fetched into.  When no record
    with that id is completed the answer is [null] and nothing has happened. *)
Theorem getBackupFile_serves_completed_runs_only (env : Env) (rd : Reader)
    (i : Z) (w : World) :
  (forall f,
     fst (getBackupFile env rd i w) = Ok (Some f) ->
     exists b,
       In b (backups w) /\ id b = i /\ status b = completed
       /\ f_filename f = filename b /\ f_size f = size b
       /\ (storage_type b = local ->
           storage_path b = Some (f_stream f)
           /\ existsSync env (f_stream f) = true
           /\ snd (getBackupFile env rd i w) = w)
       /\ (storage_type b <> local ->
           f_stream f = tempFileOf env (filename b)))
  /\ ((forall b, In b (backups w) -> id b = i -> status b <> completed) ->
      getBackupFile env rd i w = (Ok None, w)).
Proof.
  unfold getBackupFile. rewrite !bind_run.
  unfold backupRepo_getById at 1 2 3.
  destruct (List.find (fun b => id b =? i) (backups w)) as [b|] eqn:E.
  2:{ split; [discriminate | reflexivity]. }
  apply find_some_id in E as [Hin Hid].
  destruct (bool_decide (status b = completed)) eqn:S; cbn [negb].
  2:{ split; [discriminate | reflexivity]. }
  apply bool_decide_eq_true in S.
  split; [|intros H; exfalso; exact (H b Hin Hid S)].
  intros f H. exists b.
  destruct (bool_decide (storage_type b = local)) eqn:L.
  - apply bool_decide_eq_true in L.
    destruct (storage_path b) as [p|] eqn:P; [|discriminate].
    destruct (existsSync env p) eqn:X; cbn [negb] in *; [|discriminate].
    injection H as <-. cbn.
    repeat split; auto. congruence.
  - apply bool_decide_eq_false in L. cbv zeta in *. rewrite bind_run in H.
    destruct (storage_download env rd _ _ _ w) as [[u|e] w1];
      [|discriminate].
    injection H as <-. cbn.
    repeat split; auto; intros; contradiction.
Qed.

Lemma getBackupFile_serves_completed_runs_only_witness :
  fst (getBackupFile Scenario.calm
         Site.bare 2 Scenario.two_finished)
  = Ok (Some (mkBackupFile "/srv/app/data/backups/new.tar.gz" "new.tar.gz"
                2048))
  /\ exists b, In b (backups Scenario.two_finished) /\ id b = 2
               /\ status b = completed.
Proof.
  split; [reflexivity|].
  destruct (proj1 (getBackupFile_serves_completed_runs_only Scenario.calm
              Site.bare 2 Scenario.two_finished) _ eq_refl)
    as (b & H1 & H2 & H3 & _).
  exists b. auto.
Defined.

Ltac node_red :=
  cbv beta iota delta
    [testNodeConnection getNodeVolumes tryFinally connectToNode client_list
     client_end volumesPathOf];
  monad_red.

(** X11.  [testNodeConnection] tells whether the node can be reached, and
    leaves the session closed; a node that cannot be reached is reported by an
    error line, not by an exception.  Only a failure of [client.end()] makes
    it throw, whatever the test found. *)
Theorem testNodeConnection_reports (env : Env) (node : Node) (w : World) :
  (sftp_end env = Ok tt ->
   fst (testNodeConnection env node w) = Ok (node_answers env node)
   /\ session_open (snd (testNodeConnection env node w)) = false
   /\ existsb is_node_test_failure
        (newEvents w (snd (testNodeConnection env node w)))
      = negb (node_answers env node))
  /\ (forall e, sftp_end env = Throw e ->
        fst (testNodeConnection env node w) = Throw e).
Proof.
  unfold node_answers, newEvents. node_red. cbv zeta.
  split; [intros -> | intros e ->];
    (destruct (String.eqb (n_auth_type node) "key"
               && Js.truthy (n_ssh_key_path node));
       [destruct (readFile env _)|];
       try destruct (sftp_connect env _); try destruct (sftp_list env _);
       cbn [fst snd trace session_open with_session andb negb is_ok];
       rewrite <- ?app_assoc, ?drop_app_length; auto;
       repeat split; vm_compute; destruct msg; reflexivity).
Qed.

Lemma testNodeConnection_reports_witness :
  fst (testNodeConnection Scenario.listing_fails Scenario.alpha
         Scenario.empty_db) = Ok false
  /\ session_open
       (snd (testNodeConnection Scenario.listing_fails Scenario.alpha
               Scenario.empty_db)) = false.
Proof.
  destruct (testNodeConnection_reports Scenario.listing_fails Scenario.alpha
              Scenario.empty_db) as [H _].
  destruct (H eq_refl) as (H1 & H2 & _).
  split; [exact H1 | exact H2].
Defined.

(** X12.  [getNodeVolumes] returns the directories of the node that are not
    hidden, and ends the session on every path: also when the connection or
    the listing fails, which it reports by throwing. *)
Theorem getNodeVolumes_lists_and_closes (env : Env) (node : Node)
    (w : World) :
  sftp_end env = Ok tt ->
  session_open (snd (getNodeVolumes env node w)) = false
  /\ List.last (trace (snd (getNodeVolumes env node w))) EEnd = EEnd
  /\ forall vols,
       fst (getNodeVolumes env node w) = Ok vols ->
       exists entries,
         sftp_list env (volumesPathOf env node) = Ok entries
         /\ forall v,
              In v vols
              <-> exists f, In f entries /\ e_name f = v /\ e_type f = "d"
                            /\ Js.startsWith "." v = false.
Proof.
  intros Hend. node_red. cbv zeta. rewrite Hend.
  destruct (String.eqb (n_auth_type node) "key"
            && Js.truthy (n_ssh_key_path node));
    [destruct (readFile env _)|];
    try destruct (sftp_connect env _);
    try destruct (sftp_list env _) as [l|];
    cbn [fst snd trace session_open with_session];
    rewrite ?last_last;
    (split; [reflexivity|]); (split; [reflexivity|]);
    intros vols H; try discriminate; injection H as <-;
    exists l; (split; [reflexivity|]); intros v; unfold volume_names;
    rewrite in_map_iff;
    (split; intros (f & H1 & H2);
     [apply filter_In in H2 as [H2 H3]; apply andb_true_iff in H3 as [H3 H4];
      apply String.eqb_eq in H3; apply negb_true_iff in H4; subst v; eauto
     |destruct H2 as (H2 & H3 & H4); exists f; split; [exact H2|];
      apply filter_In; split; [exact H1|]; rewrite H3; subst v; rewrite H4;
      reflexivity]).
Qed.

Lemma getNodeVolumes_lists_and_closes_witness :
  fst (getNodeVolumes Scenario.calm Scenario.alpha Scenario.empty_db)
  = Ok ["v1"; "v2"]
  /\ session_open
       (snd (getNodeVolumes Scenario.calm Scenario.alpha Scenario.empty_db))
     = false.
Proof.
  split; [reflexivity|].
  exact (proj1 (getNodeVolumes_lists_and_closes Scenario.calm Scenario.alpha
                  Scenario.empty_db eq_refl)).
Defined.

Lemma slept_app (x y : list Event) : slept (x ++ y) = slept x + slept y.
Proof.
  induction x as [|e x IH]; simpl; [reflexivity|].
  destruct e; rewrite ?IH; lia.
Qed.

Lemma naps_app (x y : list Event) : naps (x ++ y) = (naps x + naps y)%nat.
Proof. unfold naps. now rewrite List.filter_app, length_app. Qed.

Lemma paced_refl (n : nat) (w : World) : paced n w w.
Proof.
  exists []. rewrite app_nil_r. simpl. split; [reflexivity|].
  unfold naps. simpl. split; lia.
Qed.

Lemma paced_step (a b : nat) (x y z : World) :
  paced a x y -> paced b y z -> paced (a + b) x z.
Proof.
  intros (e1 & T1 & N1 & S1) (e2 & T2 & N2 & S2). exists (e1 ++ e2).
  rewrite T2, T1, app_assoc, slept_app, naps_app.
  split; [reflexivity|]. split; lia.
Qed.

Lemma paced_trans (x y z : World) : paced 0 x y -> paced 0 y z -> paced 0 x z.
Proof. intros H1 H2. exact (paced_step 0 0 x y z H1 H2). Qed.

Ltac paced_leaf :=
  unfold paced, appended, naps; simpl;
  first
    [ exists []; split; [now rewrite app_nil_r | simpl; split; lia]
    | eexists; split; [reflexivity | simpl; split; lia] ].

Ltac paced_walk := rel_walk (paced_refl 0) paced_trans paced_leaf.

Lemma paced_bind (a b : nat) {A B} (m : M A) (k : A -> M B) :
  rel (paced a) m -> (forall x, rel (paced b) (k x)) ->
  rel (paced (a + b)) (m ≫= k).
Proof.
  intros Hm Hk w. rewrite bind_run. specialize (Hm w).
  destruct (m w) as [[x|e] w1]; simpl in *.
  - eapply paced_step; [exact Hm | apply Hk].
  - eapply paced_step; [exact Hm | apply paced_refl].
Qed.

Lemma paced_tryCatch (a b : nat) {A} (m : M A) (h : string -> M A) :
  rel (paced a) m -> (forall e, rel (paced b) (h e)) ->
  rel (paced (a + b)) (tryCatch m h).
Proof.
  intros Hm Hh w. rewrite tryCatch_run. specialize (Hm w).
  destruct (m w) as [[x|e] w1]; simpl in *.
  - eapply paced_step; [exact Hm | apply paced_refl].
  - eapply paced_step; [exact Hm | apply Hh].
Qed.

Lemma paced_getServerState (env : Env) (v : string) :
  rel (paced 0) (getServerState env v).
Proof. paced_walk. Qed.

Lemma paced_setServerState (env : Env) (v : string) (s : Signal) :
  rel (paced 0) (setServerState env v s).
Proof. paced_walk. Qed.

Lemma paced_backupLog (i : Z) (lvl : Level) (msg : string) :
  rel (paced 0) (backupLog i lvl msg).
Proof. paced_walk. Qed.

Lemma paced_waitOffline (env : Env) (v : string) (j : nat) :
  rel (paced j) (waitOffline env v j).
Proof.
  induction j as [|j IH]; cbn [waitOffline].
  - intros w. apply paced_refl.
  - change (S j) with (1 + (0 + j))%nat.
    apply paced_bind.
    { intros w. unfold emit, modify. simpl. eexists. split; [reflexivity|].
      unfold naps. simpl. split; lia. }
    intros _. apply paced_bind; [apply paced_getServerState|].
    intros st. destruct (bool_decide _); [|exact IH].
    intros w. apply paced_refl.
Qed.

Lemma paced_safeStop (env : Env) (i : Z) (v : string) :
  rel (paced 12) (safeStop env i v).
Proof.
  unfold safeStop. destruct (Js.isUuid v); [|intros w0; apply paced_refl].
  change 12%nat with ((0 + ((0 + (0 + 12) + 0) + 0)) + 0)%nat.
  apply paced_tryCatch; [|intros e w0; apply paced_refl].
  apply paced_bind; [apply paced_getServerState|].
  intros st. destruct (_ && _); [|intros w0; apply paced_refl].
  apply paced_bind; [|intros u w0; apply paced_refl].
  apply paced_tryCatch; [|intros e w0; apply paced_refl].
  apply paced_bind; [apply paced_backupLog|]. intros _.
  apply paced_bind; [apply paced_setServerState|]. intros _.
  apply paced_waitOffline.
Qed.

(** X13.  Waiting for a server to stop takes at most one minute: [safeStop]
    sleeps at most twelve times, five seconds each time, whatever the panel
    answers; for a name that is not UUID-shaped it takes no step at all. *)
Theorem safeStop_waits_at_most_a_minute (env : Env) (i : Z) (v : string)
    (w : World) :
  exists evs,
    trace (snd (safeStop env i v w)) = trace w ++ evs
    /\ (naps evs <= 12)%nat
    /\ slept evs = 5000 * Z.of_nat (naps evs)
    /\ slept evs <= 60000
    /\ (Js.isUuid v = false -> evs = []).
Proof.
  destruct (paced_safeStop env i v w) as (evs & T & N & S). exists evs.
  split; [exact T|]. split; [exact N|]. split; [exact S|]. split; [lia|].
  intros U. unfold safeStop in T. rewrite U in T. simpl in T.
  rewrite <- (app_nil_r (trace w)) in T at 1.
  now apply app_inv_head in T.
Qed.

Lemma hexRun_spec (n : nat) (s r : string) :
  Js.hexRun n s = Some r <-> exists p, s = p +:+ r /\ hex_string n p.
Proof.
  revert s. induction n as [|n IH]; intros s; cbn [Js.hexRun].
  - split.
    + intros H. injection H as <-. exists "". repeat split. constructor.
    + intros (p & -> & L & _). destruct p; [reflexivity | discriminate].
  - destruct s as [|c s].
    + split; [discriminate|].
      intros (p & E & L & _). destruct p; discriminate.
    + destruct (Js.isHex c) eqn:X.
      * rewrite IH. split.
        -- intros (p & -> & L & F). exists (String c p).
           split; [reflexivity|]. split; [cbn; now rewrite L|].
           cbn. constructor; assumption.
        -- intros (p & E & L & F). destruct p as [|c' p]; [discriminate|].
           injection E as <- ->. injection L as L.
           inversion F; subst. exists p. repeat split; assumption.
      * split; [discriminate|].
        intros (p & E & L & F). destruct p as [|c' p]; [discriminate|].
        injection E as <- ->. inversion F; subst. congruence.
Qed.

Lemma dash_spec (s r : string) : Js.dash s = Some r <-> s = "-" +:+ r.
Proof.
  change ("-" +:+ r) with (String "-" r).
  unfold Js.dash. destruct s as [|c s].
  - split; discriminate.
  - destruct (Ascii.eqb c "-") eqn:E.
    + apply Ascii.eqb_eq in E. subst c. split.
      * intros H. now injection H as <-.
      * intros H. now injection H as <-.
    + apply Ascii.eqb_neq in E. split; [discriminate|].
      intros H. injection H as -> _. contradiction.
Qed.

Lemma andThen_Some (o : option string) (f : string -> option string)
    (r : string) :
  Js.andThen o f = Some r <-> exists s, o = Some s /\ f s = Some r.
Proof.
  destruct o as [s|]; cbn.
  - split; [eauto|]. now intros (s' & [= <-] & H).
  - split; [discriminate|]. now intros (s' & H & _).
Qed.

(** X14.  The test that guards the calls to the panel accepts exactly the
    names of the shape 8-4-4-4-12: five groups of hexadecimal digits, in
    either case, joined by dashes, and nothing before or after. *)
Theorem isUuid_accepts_exactly (s : string) :
  Js.isUuid s = true <-> uuid_shaped s.
Proof.
  unfold Js.isUuid, uuid_shaped. cbv zeta.
  split.
  - destruct (Js.andThen _ (Js.hexRun 12)) as [[|]|] eqn:E;
      try discriminate.
    intros _.
    apply andThen_Some in E as (s9 & E & H5).
    apply andThen_Some in E as (s8 & E & D4).
    apply andThen_Some in E as (s7 & E & H4).
    apply andThen_Some in E as (s6 & E & D3).
    apply andThen_Some in E as (s5 & E & H3).
    apply andThen_Some in E as (s4 & E & D2).
    apply andThen_Some in E as (s3 & E & H2).
    apply andThen_Some in E as (s2 & H1 & D1).
    apply hexRun_spec in H1 as (a & -> & Ha).
    apply dash_spec in D1 as ->.
    apply hexRun_spec in H2 as (b & -> & Hb).
    apply dash_spec in D2 as ->.
    apply hexRun_spec in H3 as (c & -> & Hc).
    apply dash_spec in D3 as ->.
    apply hexRun_spec in H4 as (d & -> & Hd).
    apply dash_spec in D4 as ->.
    apply hexRun_spec in H5 as (e & -> & He).
    exists a, b, c, d, e. rewrite append_nil_r. auto 10.
  - intros (a & b & c & d & e & -> & Ha & Hb & Hc & Hd & He).
    assert (E : Js.andThen
                  (Js.andThen
                     (Js.andThen
                        (Js.andThen
                           (Js.andThen
                              (Js.andThen
                                 (Js.andThen
                                    (Js.andThen
                                       (Js.hexRun 8
                                          (a +:+ "-" +:+ b +:+ "-" +:+ c
                                           +:+ "-" +:+ d +:+ "-" +:+ e))
                                       Js.dash)
                                    (Js.hexRun 4)) Js.dash)
                              (Js.hexRun 4)) Js.dash)
                        (Js.hexRun 4)) Js.dash)
                  (Js.hexRun 12) = Some "").
    { repeat (apply andThen_Some; eexists; split).
      - apply hexRun_spec. exists a. split; [reflexivity | exact Ha].
      - apply dash_spec. reflexivity.
      - apply hexRun_spec. exists b. split; [reflexivity | exact Hb].
      - apply dash_spec. reflexivity.
      - apply hexRun_spec. exists c. split; [reflexivity | exact Hc].
      - apply dash_spec. reflexivity.
      - apply hexRun_spec. exists d. split; [reflexivity | exact Hd].
      - apply dash_spec. reflexivity.
      - apply hexRun_spec. exists e. split; [now rewrite append_nil_r|].
        exact He. }
    now rewrite E.
Qed.

Ltac reader_red :=
  cbv beta iota delta
    [storage_list storage_exists storage_isConfigured Local_list S3_list
     S3_exists S3_getConfig S3_getClient Sftp_list Sftp_getClient
     Sftp_getPath Sftp_end tryFinally s3_bucket s3_accessKey];
  monad_red.

Lemma filter_Forall {A} (p : A -> bool) (l : list A) :
  Forall (fun x => p x = true) (List.filter p l).
Proof. apply List.Forall_forall. intros x H. now apply filter_In in H. Qed.

(** X15.  [list()] returns names that end in [.tar.gz] only, on every
    backend.  On object storage [list()] and [exists()] never throw,
    whatever the service answers: an error of the service is answered by
    the empty list and by [false], and so is a backend that is not
    configured, for which no step is taken to find that answer.  On a
    configured backend that the service answers, [list()] is the
    [.tar.gz] names among the keys and [exists()] is [true]. *)
Theorem listings_are_filtered_and_lenient (env : Env) (rd : Reader)
    (w : World) :
  let bucket := default "" (settings w !! "s3_bucket") in
  (forall kind l,
     fst (storage_list env rd kind w) = Ok l ->
     Forall (fun name => endsWith ".tar.gz" name = true) l)
  /\ (exists l, fst (storage_list env rd cloud w) = Ok l)
  /\ (forall name, exists b, fst (storage_exists env cloud name w) = Ok b)
  /\ (forall e,
        s3_listObjects rd bucket = Throw e ->
        fst (storage_list env rd cloud w) = Ok [])
  /\ (forall name e,
        s3_head env bucket name = Throw e ->
        fst (storage_exists env cloud name w) = Ok false)
  /\ (fst (storage_isConfigured cloud w) = Ok false ->
      storage_list env rd cloud w = (Ok [], w)
      /\ forall name, storage_exists env cloud name w = (Ok false, w))
  /\ (fst (storage_isConfigured cloud w) = Ok true ->
      (forall contents,
         s3_listObjects rd bucket = Ok contents ->
         fst (storage_list env rd cloud w)
         = Ok (List.filter (endsWith ".tar.gz") (default [] contents)))
      /\ forall name r,
           s3_head env bucket name = Ok r ->
           fst (storage_exists env cloud name w) = Ok true).
Proof.
  cbv zeta.
  assert (C : forall b k : bool,
            Js.truthy (settings w !! "s3_bucket") = b ->
            Js.truthy (settings w !! "s3_access_key") = k ->
            S3_list rd w
            = (Ok (if b && k
                   then match
                          s3_listObjects rd
                            (default "" (settings w !! "s3_bucket"))
                        with
                        | Ok c => List.filter (endsWith ".tar.gz")
                                    (default [] c)
                        | Throw _ => []
                        end
                   else []), w)
            /\ forall name,
                 S3_exists env name w
                 = (Ok (b && k
                        && is_ok (s3_head env
                                    (default "" (settings w !! "s3_bucket"))
                                    name)),
                    if b && k
                    then snd (emit (EStorageHead cloud name) w) else w)).
  { intros b k B K. reader_red.
    destruct b, k;
      repeat (rewrite ?B, ?K; progress cbn [negb orb andb]);
      (split; [|intros name]); try reflexivity.
    - now destruct (s3_listObjects rd _).
    - now destruct (s3_head env _ _). }
  destruct (C _ _ eq_refl eq_refl) as [CL CE]. clear C.
  split; [|split; [|split; [|split; [|split; [|split]]]]].
  - intros kind l. destruct kind.
    + reader_red.
      destruct (readdirSync rd _); cbn [fst]; [|discriminate].
      intros H. inversion H. apply filter_Forall.
    + cbn [storage_list]. rewrite CL. cbn [fst]. intros H. inversion H.
      destruct (_ && _); [|constructor].
      destruct (s3_listObjects rd _); [apply filter_Forall | constructor].
    + reader_red.
      destruct (negb _ || negb _); cbn [fst]; [discriminate|].
      destruct (st_connect env _ _ _); cbn [fst]; [|discriminate].
      destruct (st_list rd _); destruct (st_end env); cbn [fst];
        intros H; try discriminate; inversion H; [|constructor].
      apply List.Forall_forall. intros x Hx.
      apply in_map_iff in Hx as (f & <- & Hf). now apply filter_In in Hf.
  - cbn [storage_list]. rewrite CL. eauto.
  - intros name. cbn [storage_exists]. rewrite CE. eauto.
  - intros e H. cbn [storage_list]. rewrite CL, H. cbn [fst].
    now destruct (_ && _).
  - intros name e H. cbn [storage_exists]. rewrite CE, H. cbn [fst is_ok].
    now rewrite andb_false_r.
  - cbn [storage_list storage_exists]. rewrite CL. unfold storage_isConfigured.
    monad_red. cbn [fst]. intros H. injection H as H.
    split; [|intros name; rewrite CE]; rewrite H; reflexivity.
  - cbn [storage_list storage_exists]. rewrite CL. unfold storage_isConfigured.
    monad_red. cbn [fst]. intros H. injection H as H.
    split; [intros contents L | intros name r L; rewrite CE];
      rewrite H, L; reflexivity.
Qed.

(** * The job registry *)

Section Registry.
Variable cron_validate : string -> bool.

Lemma addJob_run (s : Schedule) (c : Cron) (w : World) :
  fst (addJob cron_validate s c w) = Ok (added cron_validate s c).
Proof.
  unfold addJob, added. cbv zeta.
  destruct (s_enabled s); cbn [negb andb]; [|reflexivity].
  destruct (cron_validate _); reflexivity.
Qed.

Lemma stopScheduler_run (c : Cron) (w : World) :
  fst (stopScheduler c w) = Ok (stopped_all c).
Proof. reflexivity. Qed.

Lemma runOp_run (o : Op) (c : Cron) (w : World) :
  fst (runOp cron_validate o c w) = Ok (stepped cron_validate o c).
Proof. destruct o; [apply addJob_run | reflexivity | reflexivity]. Qed.

Lemma runOps_run (l : list Op) (c : Cron) (w : World) :
  fst (runOps cron_validate l c w)
  = Ok (foldl (fun c o => stepped cron_validate o c) c l).
Proof.
  revert c w. induction l as [|o l IH]; intros c w; [reflexivity|].
  cbn [runOps foldl]. rewrite bind_run.
  pose proof (runOp_run o c w) as R.
  destruct (runOp cron_validate o c w) as [r w1]. simpl in R. subst r.
  apply IH.
Qed.

(** *** What the operations keep *)

Lemma stopTask_lookup (h h' : nat) (c : Cron) (t : Task) :
  tasks (stopTask h c) !! h' = Some t ->
  exists t0, tasks c !! h' = Some t0 /\ t_schedule t = t_schedule t0
             /\ t_running t = (if bool_decide (h' = h) then false
                               else t_running t0).
Proof.
  unfold stopTask. cbn [tasks]. intros H.
  destruct (decide (h' = h)) as [->|N].
  - rewrite list_lookup_alter, decide_True in H by reflexivity.
    apply fmap_Some in H as (t0 & H0 & ->). exists t0.
    rewrite bool_decide_eq_true_2 by reflexivity. auto.
  - rewrite list_lookup_alter_ne in H by congruence. exists t.
    rewrite bool_decide_eq_false_2 by exact N. auto.
Qed.

Lemma registered_stopTask (h : nat) (c : Cron) :
  registered c -> registered (stopTask h c).
Proof.
  intros R h' t H Hr. apply stopTask_lookup in H as (t0 & H0 & Hs & Hrun).
  rewrite Hr in Hrun. destruct (bool_decide (h' = h)); [discriminate|].
  rewrite Hs. apply (R h' t0 H0). congruence.
Qed.

Lemma registered_none : registered no_jobs.
Proof. intros h t H. discriminate. Qed.

Lemma cleared_jobs (i : Z) (c : Cron) : jobs (cleared i c) = jobs c.
Proof. unfold cleared. now destruct (jobs c !! i). Qed.

Lemma registered_cleared (i : Z) (c : Cron) :
  registered c -> registered (cleared i c).
Proof.
  unfold cleared. destruct (jobs c !! i); [apply registered_stopTask | auto].
Qed.

(** After [cleared], no running task belongs to the schedule [i]. *)
Lemma cleared_silent (i : Z) (c : Cron) (h : nat) (t : Task) :
  registered c -> tasks (cleared i c) !! h = Some t -> t_running t = true ->
  s_id (t_schedule t) <> i.
Proof.
  intros R H Hr E. unfold cleared in H.
  destruct (jobs c !! i) as [h0|] eqn:J.
  - apply stopTask_lookup in H as (t0 & H0 & Hs & Hrun).
    rewrite Hr in Hrun.
    destruct (decide (h = h0)) as [->|N];
      [rewrite bool_decide_eq_true_2 in Hrun by reflexivity; discriminate|].
    rewrite bool_decide_eq_false_2 in Hrun by exact N.
    pose proof (R h t0 H0 (eq_sym Hrun)) as J'.
    rewrite <- Hs, E, J in J'. congruence.
  - pose proof (R h t H Hr) as J'. rewrite E, J in J'. discriminate.
Qed.

Lemma registered_added (s : Schedule) (c : Cron) :
  registered c -> registered (added cron_validate s c).
Proof.
  intros R. unfold added. fold (cleared (s_id s) c). cbv zeta.
  destruct (_ && _); [|now apply registered_cleared].
  intros h t H Hr. cbn [tasks jobs] in *.
  destruct (decide (h = length (tasks (cleared (s_id s) c)))) as [->|N].
  - rewrite list_lookup_middle in H by reflexivity. injection H as <-.
    cbn. apply lookup_insert_eq.
  - assert (tasks (cleared (s_id s) c) !! h = Some t) as H'.
    { apply lookup_app_Some in H as [H|[Hl H]]; [exact H|].
      apply list_lookup_singleton_Some in H as [H _]. lia. }
    rewrite lookup_insert_ne
      by (apply not_eq_sym; eapply cleared_silent; eauto).
    now apply registered_cleared.
Qed.

Lemma registered_removeJob (i : Z) (c : Cron) :
  registered c -> registered (removeJob i c).
Proof.
  intros R. unfold removeJob. destruct (jobs c !! i) as [h0|] eqn:J; [|auto].
  intros h t H Hr. cbn [tasks jobs] in *.
  assert (s_id (t_schedule t) <> i) as N.
  { apply (cleared_silent i c h t R); [|exact Hr].
    unfold cleared. now rewrite J. }
  rewrite lookup_delete_ne by congruence.
  now apply (registered_stopTask h0 c R).
Qed.

Lemma foldr_stopTask_jobs (hs : list nat) (c : Cron) :
  jobs (foldr stopTask c hs) = jobs c.
Proof. induction hs as [|h hs IH]; [reflexivity | exact IH]. Qed.

Lemma foldr_stopTask_lookup (hs : list nat) (c : Cron) (h : nat) (t : Task) :
  tasks (foldr stopTask c hs) !! h = Some t ->
  exists t0, tasks c !! h = Some t0 /\ t_schedule t = t_schedule t0
             /\ (t_running t = true -> t_running t0 = true /\ ~ In h hs).
Proof.
  revert t. induction hs as [|h0 hs IH]; intros t H; cbn [foldr] in H.
  - exists t. tauto.
  - apply stopTask_lookup in H as (t1 & H1 & Hs & Hrun).
    destruct (IH t1 H1) as (t0 & H0 & Hs0 & Hr0). exists t0.
    split; [exact H0|]. split; [congruence|].
    intros Hr. rewrite Hr in Hrun.
    destruct (decide (h = h0)) as [->|N];
      [rewrite bool_decide_eq_true_2 in Hrun by reflexivity; discriminate|].
    rewrite bool_decide_eq_false_2 in Hrun by exact N.
    destruct (Hr0 (eq_sym Hrun)) as [R1 R2]. split; [exact R1|].
    intros [E|E]; [congruence | contradiction].
Qed.

Lemma stopped_all_silent (c : Cron) (h : nat) (t : Task) :
  registered c -> tasks (stopped_all c) !! h = Some t -> t_running t = false.
Proof.
  intros R H. unfold stopped_all in H. cbn [tasks] in H.
  apply foldr_stopTask_lookup in H as (t0 & H0 & Hs & Hr).
  destruct (t_running t) eqn:E; [|reflexivity].
  destruct (Hr eq_refl) as [R1 R2]. exfalso. apply R2.
  pose proof (R h t0 H0 R1) as J.
  apply list_elem_of_In, list_elem_of_fmap.
  exists (s_id (t_schedule t0), h). split; [reflexivity|].
  now apply elem_of_map_to_list.
Qed.

Lemma registered_stopped_all (c : Cron) :
  registered c -> registered (stopped_all c).
Proof.
  intros R h t H Hr. rewrite (stopped_all_silent c h t R H) in Hr.
  discriminate.
Qed.

Lemma registered_stepped (o : Op) (c : Cron) :
  registered c -> registered (stepped cron_validate o c).
Proof.
  destruct o; [apply registered_added | apply registered_removeJob
              | apply registered_stopped_all].
Qed.

Lemma registered_after (l : list Op) (c : Cron) :
  registered c -> registered (foldl (fun c o => stepped cron_validate o c) c l).
Proof.
  revert c. induction l as [|o l IH]; intros c R; [exact R|].
  cbn [foldl]. apply IH. now apply registered_stepped.
Qed.

End Registry.

(** X16.  Whatever the API has asked of the scheduler, a schedule has at most
    one task that fires: two running tasks of the same schedule are the same
    task, and it is the one that [jobs] holds. *)
Theorem one_running_task_per_schedule (cron_validate : string -> bool)
    (ops : list Op) (w : World) (c : Cron) :
  fst (runOps cron_validate ops no_jobs w) = Ok c ->
  forall h1 h2 t1 t2,
    tasks c !! h1 = Some t1 -> tasks c !! h2 = Some t2 ->
    t_running t1 = true -> t_running t2 = true ->
    s_id (t_schedule t1) = s_id (t_schedule t2) ->
    h1 = h2 /\ jobs c !! s_id (t_schedule t1) = Some h1.
Proof.
  intros H. rewrite runOps_run in H. injection H as <-.
  pose proof (registered_after cron_validate ops no_jobs registered_none) as R.
  intros h1 h2 t1 t2 H1 H2 R1 R2 E.
  pose proof (R h1 t1 H1 R1) as J1. pose proof (R h2 t2 H2 R2) as J2.
  rewrite E in J1. split; [congruence|]. rewrite E. exact J1.
Qed.

Lemma one_running_task_per_schedule_witness :
  jobs (added Site.validate Site.nightly_at_two
          (added Site.validate Site.nightly no_jobs)) !! 7 = Some 1%nat.
Proof.
  assert (H : fst (runOps Site.validate
                     [OAdd Site.nightly; OAdd Site.nightly_at_two] no_jobs
                     Site.planned)
              = Ok (added Site.validate Site.nightly_at_two
                      (added Site.validate Site.nightly no_jobs)))
    by reflexivity.
  exact (proj2 (one_running_task_per_schedule Site.validate _ _ _ H
                  1%nat 1%nat (mkTask Site.nightly_at_two true)
                  (mkTask Site.nightly_at_two true)
                  eq_refl eq_refl eq_refl eq_refl eq_refl)).
Defined.

Lemma foldl_snoc {A B} (f : A -> B -> A) (a : A) (l : list B) (b : B) :
  foldl f a (l ++ [b]) = f (foldl f a l) b.
Proof.
  revert a. induction l as [|x l IH]; intros a; [reflexivity | apply IH].
Qed.

(** X17.  [addJob] replaces the job of a schedule: afterwards the only task of
    that schedule that fires is one created for the schedule as it was passed,
    and there is such a task exactly when the schedule is enabled and its cron
    expression is valid.  A disabled schedule, or one with an invalid
    expression, is left with no task that fires. *)
Theorem addJob_replaces_the_job (cron_validate : string -> bool)
    (ops : list Op) (s : Schedule) (w : World) (c : Cron) :
  fst (runOps cron_validate (ops ++ [OAdd s]) no_jobs w) = Ok c ->
  (forall h t,
     tasks c !! h = Some t -> t_running t = true ->
     s_id (t_schedule t) = s_id s ->
     t_schedule t = s /\ s_enabled s = true
     /\ cron_validate (s_cron_expression s) = true
     /\ jobs c !! s_id s = Some h)
  /\ (s_enabled s = true -> cron_validate (s_cron_expression s) = true ->
      exists h, tasks c !! h = Some (mkTask s true)).
Proof.
  intros H. rewrite runOps_run, foldl_snoc in H. injection H as <-.
  set (c0 := foldl _ no_jobs ops).
  pose proof (registered_after cron_validate ops no_jobs registered_none) as R.
  fold c0 in R. cbn [stepped].
  pose proof (registered_added cron_validate s c0 R) as R'.
  unfold added in *. fold (cleared (s_id s) c0) in *. cbv zeta in *.
  destruct (s_enabled s && cron_validate (s_cron_expression s)) eqn:E.
  - apply andb_true_iff in E as [E1 E2]. split.
    + intros h t H Hr Hid. cbn [tasks jobs] in *.
      destruct (decide (h = length (tasks (cleared (s_id s) c0)))) as [->|N].
      * rewrite list_lookup_middle in H by reflexivity. injection H as <-.
        cbn. rewrite lookup_insert_eq. auto.
      * exfalso. apply lookup_app_Some in H as [H|[Hl H]].
        -- exact (cleared_silent (s_id s) c0 h t R H Hr Hid).
        -- apply list_lookup_singleton_Some in H as [H _]. lia.
    + intros _ _. exists (length (tasks (cleared (s_id s) c0))).
      cbn [tasks]. now apply list_lookup_middle.
  - split.
    + intros h t H Hr Hid. exfalso.
      exact (cleared_silent (s_id s) c0 h t R H Hr Hid).
    + intros E1 E2. rewrite E1, E2 in E. discriminate.
Qed.

Lemma addJob_replaces_the_job_witness :
  exists h,
    tasks (added Site.validate Site.nightly_at_two
             (added Site.validate Site.nightly no_jobs)) !! h
    = Some (mkTask Site.nightly_at_two true).
Proof.
  assert (H : fst (runOps Site.validate
                     ([OAdd Site.nightly] ++ [OAdd Site.nightly_at_two])
                     no_jobs Site.planned)
              = Ok (added Site.validate Site.nightly_at_two
                      (added Site.validate Site.nightly no_jobs)))
    by reflexivity.
  exact (proj2 (addJob_replaces_the_job Site.validate _ _ _ _ H)
           eq_refl eq_refl).
Defined.

(** X18.  [removeJob] and [stopScheduler] silence what they are asked to:
    after [removeJob(id)] no task of that schedule fires, and after
    [stopScheduler] no task fires at all and [jobs] is empty. *)
Theorem removed_and_stopped_jobs_do_not_fire
    (cron_validate : string -> bool) (ops : list Op) (w : World) :
  (forall i c,
     fst (runOps cron_validate (ops ++ [ORemove i]) no_jobs w) = Ok c ->
     jobs c !! i = None
     /\ forall h t, tasks c !! h = Some t -> t_running t = true ->
                    s_id (t_schedule t) <> i)
  /\ (forall c,
        fst (runOps cron_validate (ops ++ [OStop]) no_jobs w) = Ok c ->
        jobs c = ∅
        /\ forall h t, tasks c !! h = Some t -> t_running t = false).
Proof.
  pose proof (registered_after cron_validate ops no_jobs registered_none) as R.
  split.
  - intros i c H. rewrite runOps_run, foldl_snoc in H. injection H as <-.
    set (c0 := foldl _ no_jobs ops) in *. cbn [stepped].
    pose proof (registered_removeJob i c0 R) as R'.
    unfold removeJob in *.
    destruct (jobs c0 !! i) as [h0|] eqn:J.
    + cbn [jobs tasks] in *. split; [apply lookup_delete_eq|].
      intros h t H Hr. apply (cleared_silent i c0 h t R); [|exact Hr].
      unfold cleared. now rewrite J.
    + split; [exact J|]. intros h t H Hr E.
      pose proof (R h t H Hr) as J'. rewrite E, J in J'. discriminate.
  - intros c H. rewrite runOps_run, foldl_snoc in H. injection H as <-.
    split; [reflexivity|]. intros h t H.
    exact (stopped_all_silent _ h t R H).
Qed.

Lemma removed_and_stopped_jobs_do_not_fire_witness :
  map t_running
    (tasks (stopped_all (added Site.validate Site.nightly no_jobs)))
  = [false]
  /\ jobs (stopped_all (added Site.validate Site.nightly no_jobs)) = ∅.
Proof.
  split; [reflexivity|].
  exact (proj1 (proj2 (removed_and_stopped_jobs_do_not_fire Site.validate
                         [OAdd Site.nightly] Site.planned) _ eq_refl)).
Defined.

Section Loading.
Variable cron_validate : string -> bool.

Lemma addJobs_run (l : list Schedule) (c : Cron) (w : World) :
  fst (addJobs cron_validate l c w)
  = Ok (foldl (fun c s => added cron_validate s c) c l).
Proof.
  revert c w. induction l as [|s l IH]; intros c w; [reflexivity|].
  cbn [addJobs foldl]. rewrite bind_run.
  pose proof (addJob_run cron_validate s c w) as R.
  destruct (addJob cron_validate s c w) as [r w1]. simpl in R. subst r.
  apply IH.
Qed.

(** Schedules with ids that [jobs] does not hold yet, no two of them with
    the same id, are added one after the other: each loadable one gets a
    task, in order, and no task is stopped. *)
Lemma added_fresh (l : list Schedule) (c : Cron) :
  List.NoDup (map s_id l) ->
  (forall s, In s l -> jobs c !! s_id s = None) ->
  let c' := foldl (fun c s => added cron_validate s c) c l in
  tasks c'
  = tasks c
    ++ map (fun s => mkTask s true) (List.filter (loadable cron_validate) l)
  /\ base.size (jobs c')
     = (base.size (jobs c)
        + length (List.filter (loadable cron_validate) l))%nat
  /\ (forall i, ~ In i (map s_id l) -> jobs c' !! i = jobs c !! i).
Proof.
  revert c. induction l as [|s l IH]; intros c U F; cbn [foldl].
  - cbn. rewrite app_nil_r. split; [reflexivity|]. split; [lia | auto].
  - inversion U as [|? ? Hn Hu]; subst.
    assert (J : jobs c !! s_id s = None) by (apply F; now left).
    assert (A : added cron_validate s c
                = if loadable cron_validate s
                  then mkCron (tasks c ++ [mkTask s true])
                         (<[s_id s := length (tasks c)]> (jobs c))
                  else c).
    { unfold added, loadable. now rewrite J. }
    assert (F' : forall s', In s' l ->
                   jobs (added cron_validate s c) !! s_id s' = None).
    { intros s' Hs'. rewrite A.
      destruct (loadable cron_validate s); [|apply F; now right].
      cbn [jobs]. rewrite lookup_insert_ne; [apply F; now right|].
      intros E. apply Hn. rewrite E. now apply in_map. }
    destruct (IH (added cron_validate s c) Hu F') as (T & S & K).
    cbv zeta. rewrite T, S. cbn [List.filter map].
    assert (K' : forall i, ~ In i (s_id s :: map s_id l) ->
                   jobs (foldl (fun c s => added cron_validate s c)
                           (added cron_validate s c) l) !! i
                   = jobs c !! i).
    { intros i Hi. rewrite K by (intros Hin; apply Hi; now right).
      rewrite A. destruct (loadable cron_validate s); [|reflexivity].
      cbn [jobs]. apply lookup_insert_ne. intros E. apply Hi. now left. }
    split; [|split; [|exact K']]; rewrite A;
      destruct (loadable cron_validate s); cbn [tasks jobs map length].
    + now rewrite <- app_assoc.
    + reflexivity.
    + rewrite map_size_insert_None by exact J. lia.
    + lia.
Qed.

Lemma registered_after_adds (l : list Schedule) (c : Cron) :
  registered c ->
  registered (foldl (fun c s => added cron_validate s c) c l).
Proof.
  revert c. induction l as [|s l IH]; intros c R; [exact R|].
  cbn [foldl]. apply IH. now apply registered_added.
Qed.

End Loading.

Lemma grows_addJobs (cron_validate : string -> bool) (l : list Schedule)
    (c : Cron) :
  rel grows (addJobs cron_validate l c).
Proof.
  revert c. induction l as [|s l IH]; intros c; cbn [addJobs]; grows_walk.
Qed.

Lemma filter_loadable_enabled (cron_validate : string -> bool)
    (l : list Schedule) :
  List.filter (loadable cron_validate) (List.filter s_enabled l)
  = List.filter (loadable cron_validate) l.
Proof.
  induction l as [|s l IH]; [reflexivity|]. cbn [List.filter].
  unfold loadable at 2. destruct (s_enabled s) eqn:E; cbn [andb List.filter].
  - unfold loadable at 1. rewrite E, IH. reflexivity.
  - exact IH.
Qed.

Lemma NoDup_map_filter {A B} (f : A -> B) (p : A -> bool) (l : list A) :
  List.NoDup (map f l) -> List.NoDup (map f (List.filter p l)).
Proof.
  induction l as [|x l IH]; cbn [map List.filter]; [auto|].
  intros H. inversion H as [|? ? Hn Hu]; subst.
  destruct (p x); cbn [map]; [|auto]. constructor; [|auto].
  intros Hin. apply Hn. apply in_map_iff in Hin as (y & Hy & Hin).
  apply filter_In in Hin as [Hin _]. apply in_map_iff. eauto.
Qed.

(** X19.  [initScheduler] at start-up, on schedules with distinct ids: every
    enabled schedule with a valid cron expression gets a running task, in the
    order of the table, no other task exists, and the number that is logged is
    the number of these tasks. *)
Theorem initScheduler_loads_the_enabled_schedules
    (cron_validate : string -> bool) (w : World) (c : Cron) :
  List.NoDup (map s_id (schedules w)) ->
  fst (initScheduler cron_validate no_jobs w) = Ok c ->
  tasks c
  = map (fun s => mkTask s true)
      (List.filter (loadable cron_validate) (schedules w))
  /\ (forall h t, tasks c !! h = Some t ->
                  jobs c !! s_id (t_schedule t) = Some h)
  /\ exists evs,
       trace (snd (initScheduler cron_validate no_jobs w))
       = trace w ++ evs
         ++ [ELog info
               ("Loaded "
                +:+ pretty
                      (Z.of_nat
                         (length
                            (List.filter (loadable cron_validate)
                               (schedules w))))
                +:+ " backup schedules")].
Proof.
  intros U H. unfold initScheduler in *. rewrite bind_run in *.
  unfold scheduleRepo_getEnabled at 1 in H.
  unfold scheduleRepo_getEnabled at 1.
  rewrite bind_run in *.
  set (l := List.filter s_enabled (schedules w)) in *.
  pose proof (addJobs_run cron_validate l no_jobs w) as R.
  pose proof (grows_addJobs cron_validate l no_jobs w) as (evs & G & _).
  destruct (addJobs cron_validate l no_jobs w) as [r w1].
  cbn [fst snd] in R, G. subst r. cbn in H. injection H as <-.
  destruct (added_fresh cron_validate l no_jobs) as (T & S & K).
  { now apply NoDup_map_filter. }
  { intros s _. apply lookup_empty. }
  cbv zeta in T, S. cbn [tasks no_jobs app] in T.
  unfold l in T at 2. rewrite filter_loadable_enabled in T.
  split; [exact T|]. split.
  - intros h t Ht.
    apply (registered_after_adds cron_validate l no_jobs registered_none h t
             Ht).
    apply list_elem_of_lookup_2, list_elem_of_In in Ht. rewrite T in Ht.
    apply in_map_iff in Ht as (s & <- & _). reflexivity.
  - exists evs. rewrite S. unfold log. monad_red. cbn [snd trace].
    rewrite G, <- app_assoc. do 6 f_equal. cbn [jobs no_jobs].
    rewrite map_size_empty.
    unfold l. rewrite filter_loadable_enabled. reflexivity.
Qed.

Lemma initScheduler_loads_the_enabled_schedules_witness :
  tasks (added Site.validate Site.weekly
           (added Site.validate Site.nightly no_jobs))
  = [mkTask Site.nightly true].
Proof.
  assert (U : List.NoDup (map s_id (schedules Site.planned)))
    by (repeat constructor; simpl; intuition discriminate).
  assert (H : fst (initScheduler Site.validate no_jobs Site.planned)
              = Ok (added Site.validate Site.weekly
                      (added Site.validate Site.nightly no_jobs)))
    by reflexivity.
  exact (proj1 (initScheduler_loads_the_enabled_schedules Site.validate
                  Site.planned _ U H)).
Defined.


(** * Validation of request bodies *)

Lemma name_check (v : JsVal) :
  negb (js_truthy v) || negb (is_string v)
  || (js_length v <? 1)%nat || (100 <? js_length v)%nat = false
  <-> exists name, v = JStr name /\ (1 <= String.length name <= 100)%nat.
Proof.
  split.
  - destruct v as [| |b|n d|neg|s|];
      cbn [js_truthy is_string js_length negb];
      rewrite ?orb_true_r; cbn [orb]; try discriminate.
    rewrite orb_false_r. intros H. apply orb_false_iff in H as [H H2].
    apply orb_false_iff in H as [H H1].
    apply Nat.ltb_ge in H1, H2. eauto.
  - intros (name & -> & H1 & H2). cbn [js_truthy is_string js_length negb].
    rewrite orb_false_r.
    destruct name as [|c r]; [simpl in H1; lia|]. cbn [String.eqb negb orb].
    apply orb_false_iff. split; apply Nat.ltb_ge; assumption.
Qed.

Lemma text_check (v : JsVal) :
  negb (js_truthy v) || negb (is_string v) = false
  <-> exists s, v = JStr s /\ s <> "".
Proof.
  split.
  - destruct v as [| |b|n d|neg|s|]; cbn; rewrite ?orb_true_r;
      try discriminate.
    rewrite orb_false_r, negb_involutive. intros H.
    apply String.eqb_neq in H. eauto.
  - intros (s & -> & H). cbn. apply String.eqb_neq in H. now rewrite H.
Qed.

Lemma port_check (v : JsVal) :
  js_truthy v && (negb (is_number v) || js_lt v 1 || js_gt v 65535) = false
  <-> js_truthy v = false
      \/ exists n d, v = JNum n d /\ Z.pos d <= n <= 65535 * Z.pos d.
Proof.
  split.
  - destruct (js_truthy v) eqn:T; [|auto]. cbn [andb]. intros H. right.
    apply orb_false_iff in H as [H H2]. apply orb_false_iff in H as [H0 H1].
    destruct v as [| |b|n d|neg|s|]; try discriminate.
    + cbn in H1, H2. apply Z.ltb_ge in H1, H2. exists n, d.
      split; [reflexivity | lia].
    + cbn in H1, H2. destruct neg; discriminate.
  - intros [->|(n & d & -> & H)]; [reflexivity|].
    cbn. destruct (n =? 0); cbn [negb andb]; [reflexivity|].
    apply orb_false_iff. split; apply Z.ltb_ge; lia.
Qed.

Lemma auth_check (v : JsVal) :
  js_truthy v && negb (is_auth_type v) = false
  <-> js_truthy v = false \/ v = JStr "key" \/ v = JStr "password".
Proof.
  split.
  - destruct (js_truthy v) eqn:T; [|auto]. cbn [andb]. intros H. right.
    apply negb_false_iff in H.
    destruct v as [| |b|n d|neg|s|]; try discriminate.
    cbn in H. apply orb_true_iff in H as [H|H]; apply String.eqb_eq in H;
      subst; auto.
  - intros [->|[->| ->]]; reflexivity.
Qed.

(** X20.  [validateNode] lets a body through exactly when its name is a string
    of 1 to 100 characters, its host and its user name are strings that are
    not empty, its port is absent, falsy (such as 0) or a number from 1 to
    65535, and its [auth_type] is absent, falsy, ['key'] or ['password']. *)
Theorem validateNode_accepts_exactly (data : JsObj) :
  validateNode data = None <-> valid_node data.
Proof.
  unfold validateNode, valid_node. cbv zeta.
  rewrite <- name_check, <- !text_check, <- port_check, <- auth_check.
  destruct (negb (js_truthy (js_prop data "name")) || _ || _ || _);
    [split; [discriminate | intros [? _]; discriminate]|].
  destruct (negb (js_truthy (js_prop data "host")) || _);
    [split; [discriminate | intros (_ & ? & _); discriminate]|].
  destruct (js_truthy (js_prop data "port") && _);
    [split; [discriminate | intros (_ & _ & ? & _); discriminate]|].
  destruct (negb (js_truthy (js_prop data "username")) || _);
    [split; [discriminate | intros (_ & _ & _ & ? & _); discriminate]|].
  destruct (js_truthy (js_prop data "auth_type") && _);
    [split; [discriminate | intros (_ & _ & _ & _ & ?); discriminate]|].
  tauto.
Qed.

(** * Column whitelists *)

Lemma includes_In (l : list string) (k : string) :
  includes l k = true <-> In k l.
Proof.
  unfold includes. rewrite existsb_exists. split.
  - intros (x & Hx & E). apply String.eqb_eq in E. now subst.
  - intros H. exists k. split; [exact H | apply String.eqb_refl].
Qed.

(** X21.  [sanitizeUpdate] keeps the columns of the whitelist and nothing
    else: it throws exactly when the object names no column of the whitelist;
    otherwise the [SET] clause assigns, in the order of the object, the keys
    of the object that are on the whitelist, each to a placeholder, and the
    values bound are those of these keys. *)
Theorem sanitizeUpdate_keeps_the_whitelist (data : JsObj)
    (allowed : list string) :
  (sanitizeUpdate data allowed = Throw "No valid fields to update"
   <-> forall k, In k (map fst data) -> ~ In k allowed)
  /\ forall fields values,
       sanitizeUpdate data allowed = Ok (fields, values) ->
       exists cols,
         cols <> []
         /\ (forall k, In k cols <-> In k (map fst data) /\ In k allowed)
         /\ fields = js_join ", " (map (fun k => k +:+ " = ?") cols)
         /\ values = map (js_prop data) cols.
Proof.
  unfold sanitizeUpdate. cbv zeta.
  set (safeKeys := List.filter (includes allowed) (map fst data)).
  assert (S : forall k, In k safeKeys <-> In k (map fst data) /\ In k allowed).
  { intros k. unfold safeKeys. rewrite filter_In, includes_In. tauto. }
  destruct safeKeys as [|k0 ks] eqn:E; cbn [length Nat.eqb].
  - split.
    + split; [|reflexivity]. intros _ k Hk Ha.
      apply (proj2 (S k)). tauto.
    + discriminate.
  - split.
    + split; [discriminate|]. intros H. exfalso.
      destruct (proj1 (S k0) (or_introl eq_refl)) as [H1 H2].
      exact (H k0 H1 H2).
    + intros fields values H. injection H as <- <-.
      exists (k0 :: ks). split; [discriminate|]. auto.
Qed.

Lemma chars_app (a b : string) :
  list_ascii_of_string (a +:+ b)
  = list_ascii_of_string a ++ list_ascii_of_string b.
Proof.
  induction a as [|c a IH]; [reflexivity|].
  change (String c a +:+ b) with (String c (a +:+ b)).
  cbn [list_ascii_of_string app]. now rewrite IH.
Qed.

Lemma clean_app (a b : string) : clean (a +:+ b) = clean a && clean b.
Proof. unfold clean. now rewrite chars_app, forallb_app. Qed.

Lemma placeholders_app (a b : string) :
  placeholders (a +:+ b) = (placeholders a + placeholders b)%nat.
Proof.
  unfold placeholders. now rewrite chars_app, List.filter_app, length_app.
Qed.

Lemma join_assignments (cols : list string) :
  forallb plain_name cols = true ->
  clean (js_join ", " (map (fun k => k +:+ " = ?") cols)) = true
  /\ placeholders (js_join ", " (map (fun k => k +:+ " = ?") cols))
     = length cols.
Proof.
  induction cols as [|k cols IH]; [now split|].
  cbn [forallb]. intros H. apply andb_true_iff in H as [Hk H].
  specialize (IH H). destruct IH as [IH1 IH2].
  apply andb_true_iff in Hk as [K1 K2]. apply Nat.eqb_eq in K2.
  destruct cols as [|k' cols].
  - cbn [map js_join length]. rewrite clean_app, placeholders_app, K1, K2.
    split; reflexivity.
  - change (js_join ", " (map (fun k => k +:+ " = ?") (k :: k' :: cols)))
      with ((k +:+ " = ?") +:+ ", "
            +:+ js_join ", " (map (fun k => k +:+ " = ?") (k' :: cols))).
    rewrite !clean_app, !placeholders_app, K1, K2, IH1, IH2.
    split; reflexivity.
Qed.

Lemma whitelist_filter (allowed keys : list string) :
  forallb plain_name allowed = true ->
  forallb plain_name (List.filter (includes allowed) keys) = true.
Proof.
  intros H. apply forallb_forall. intros k Hk.
  apply filter_In in Hk as [_ Hk]. apply includes_In in Hk.
  rewrite forallb_forall in H. auto.
Qed.

(** X22.  Whatever object is passed to [nodeRepo.update], [backupRepo.update]
    or [scheduleRepo.update], the statement they prepare is made of letters,
    underscores, blanks and the signs [=], [?] and [,] only, and it has as
    many placeholders as values are bound to it. *)
Theorem update_statements_are_clean (table : string)
    (allowed : list string) (i : Z) (data : JsObj) (sql : string)
    (params : list JsVal) :
  In (table, allowed)
     [("nodes", ALLOWED_NODE_COLUMNS); ("backups", ALLOWED_BACKUP_COLUMNS);
      ("schedules", ALLOWED_SCHEDULE_COLUMNS)] ->
  update_statement table allowed i data = Ok (sql, params) ->
  forallb sql_char (list_ascii_of_string sql) = true
  /\ placeholders sql = length params.
Proof.
  intros Hin H.
  assert (A : forallb plain_name allowed = true /\ clean table = true
              /\ placeholders table = O).
  { cbn [In] in Hin.
    destruct Hin as [E|[E|[E|[]]]]; injection E as <- <-;
      vm_compute; auto. }
  destruct A as (A & T1 & T2).
  unfold update_statement, sanitizeUpdate in H. cbv zeta in H.
  set (cols := List.filter (includes allowed) (map fst data)) in *.
  destruct (length cols =? 0)%nat; [discriminate|].
  injection H as <- <-.
  destruct (join_assignments cols (whitelist_filter allowed _ A)) as [J1 J2].
  fold (clean ("UPDATE " +:+ table +:+ " SET "
               +:+ js_join ", " (map (fun k => k +:+ " = ?") cols)
               +:+ " WHERE id = ?")).
  rewrite !clean_app, !placeholders_app, T1, T2, J1, J2.
  rewrite length_app, length_map. split; [reflexivity|].
  cbn. lia.
Qed.

Lemma update_statements_are_clean_witness :
  nodeRepo_update 3
    [("id", JNum 9 1); ("host", JStr "10.0.0.2");
     ("name; DROP TABLE nodes", JNull); ("port", JNum 2222 1)]
  = Ok ("UPDATE nodes SET host = ?, port = ? WHERE id = ?",
        [JStr "10.0.0.2"; JNum 2222 1; JNum 3 1])
  /\ placeholders "UPDATE nodes SET host = ?, port = ? WHERE id = ?" = 3%nat.
Proof.
  assert (H : nodeRepo_update 3
                [("id", JNum 9 1); ("host", JStr "10.0.0.2");
                 ("name; DROP TABLE nodes", JNull); ("port", JNum 2222 1)]
              = Ok ("UPDATE nodes SET host = ?, port = ? WHERE id = ?",
                    [JStr "10.0.0.2"; JNum 2222 1; JNum 3 1]))
    by reflexivity.
  split; [exact H|].
  exact (proj2 (update_statements_are_clean "nodes" ALLOWED_NODE_COLUMNS 3
                  _ _ _ (or_introl eq_refl) H)).
Defined.

(** * The route that submits a run *)

Lemma fresh_id_positive (w : World) : 0 < fresh_id w.
Proof.
  unfold fresh_id.
  assert (0 <= max_id (backups w)); [|lia].
  induction (backups w) as [|b l IH]; simpl; lia.
Qed.

(** X23.  A run submitted through the API does not stay pending: for a node
    that exists, the route answers with the id of a new record, and once the
    run has settled that record is completed or failed.  The route does not
    throw when the run fails: the failure is logged, in one error line that
    names the id and the message, after the run; when the run returns,
    the route adds nothing to what the run has done. *)
Theorem submitted_run_is_settled (env : Env) (nodeId : Z)
    (volumeName : option string) (kind : StorageType) (w : World) :
  is_Some (List.find (fun n => n_id n =? nodeId) (nodes w)) ->
  fst (postBackup env nodeId volumeName kind w) = Ok (fresh_id w)
  /\ ~ In (fresh_id w) (map id (backups w))
  /\ In (fresh_id w)
        (map id (backups (snd (postBackup env nodeId volumeName kind w))))
  /\ (forall b,
       In b (backups (snd (postBackup env nodeId volumeName kind w))) ->
       id b = fresh_id w ->
       status b = completed \/ status b = failed)
  /\ (forall e,
        fst (submittedRun env nodeId volumeName kind w) = Throw e ->
        newEvents (snd (submittedRun env nodeId volumeName kind w))
          (snd (postBackup env nodeId volumeName kind w))
        = [ELog error ("Backup " +:+ pretty (fresh_id w) +:+ " failed: "
                       +:+ e)])
  /\ (forall a,
        fst (submittedRun env nodeId volumeName kind w) = Ok a ->
        snd (postBackup env nodeId volumeName kind w)
        = snd (submittedRun env nodeId volumeName kind w)).
Proof.
  intros Hnode.
  set (i := fresh_id w).
  set (options := {| o_nodeId := nodeId; o_volumeName := volumeName;
                     o_storageType := kind; o_backupId := Some i |}).
  change (submittedRun env nodeId volumeName kind w)
    with (createBackup env options
            (snd (backupRepo_create env nodeId
                    (Js.or_else volumeName "all-volumes") "pending" kind
                    (Some pending) None w))).
  remember (postBackup env nodeId volumeName kind w) as res eqn:P.
  unfold postBackup in P. rewrite bind_run in P.
  set (cr := backupRepo_create env nodeId _ "pending" kind (Some pending) None)
    in *.
  assert (C : cr w = (Ok i, snd (cr w))) by reflexivity.
  assert (N : nodes (snd (cr w)) = nodes w) by reflexivity.
  assert (B : In i (map id (backups (snd (cr w))))).
  { unfold cr, backupRepo_create. cbn [snd backups with_seq with_backups].
    rewrite map_app. apply in_or_app. right. now left. }
  assert (F : ~ In i (map id (backups w))).
  { intros H. apply in_map_iff in H as (b & Hb & Hin).
    pose proof (max_id_ge (backups w) b Hin) as Hm.
    subst i. unfold fresh_id in Hb. lia. }
  rewrite C in P. set (w1 := snd (cr w)) in *. clearbody w1. clear C cr.
  fold options in P.
  assert (Rid : runId options w1 = i).
  { unfold runId, options. cbn [o_backupId].
    pose proof (fresh_id_positive w) as Hp. fold i in Hp.
    destruct (i =? 0) eqn:E; [apply Z.eqb_eq in E; lia | reflexivity]. }
  rewrite bind_run, tryCatch_run, bind_run in P.
  pose proof (createBackup_returns env options w1) as HR.
  pose proof (thrown_is_recorded env options w1) as HT.
  rewrite Rid in HT.
  destruct (createBackup env options w1) as [[a|e] w2]; cbn [fst snd] in *.
  - destruct (HR a eq_refl) as (Ha & Hdone & Hin & _).
    rewrite Rid in Ha. subst a res. cbn [fst snd].
    split; [reflexivity|]. split; [exact F|].
    split; [apply Hin; now right|].
    split; [intros b Hb Hid; left; exact (proj1 (Hdone b Hb Hid))|].
    split; [discriminate | reflexivity].
  - rewrite <- N in Hnode.
    destruct (HT e Hnode eq_refl) as (Hfail & Hin & _).
    subst res. cbn [fst snd log emit modify backups].
    split; [reflexivity|]. split; [exact F|].
    split; [apply Hin; now right|].
    split; [intros b Hb Hid; right; exact (proj1 (Hfail b Hb Hid))|].
    split; [|discriminate].
    intros e' E. injection E as <-. unfold newEvents, ret.
    cbn [snd trace]. now rewrite drop_app_length.
Qed.

Lemma submitted_run_is_settled_witness :
  fst (postBackup Scenario.upload_fails 1 None local Scenario.empty_db) = Ok 1
  /\ map status
       (backups (snd (postBackup Scenario.upload_fails 1 None local
                        Scenario.empty_db))) = [failed].
Proof.
  split; [|reflexivity].
  apply (submitted_run_is_settled Scenario.upload_fails 1 None local
           Scenario.empty_db).
  eexists. reflexivity.
Defined.

(** * Runs: notifications and log entries *)

Lemma createBackup_opening (env : Env) (options : BackupOptions) (w : World)
    (node : Node) :
  List.find (fun n => n_id n =? o_nodeId options) (nodes w) = Some node ->
  exists w1,
    opening env options node (volumeNameOf options)
      (fileOf env options node w) w = (Ok (runId options w), w1)
    /\ createBackup env options w
       = tryCatch
           (pipeline env options node (volumeNameOf options)
              (fileOf env options node w) (runId options w)
              (date_now env (length (trace w))))
           (onFailure node (volumeNameOf options) (runId options w)) w1.
Proof.
  intros Hfind.
  destruct (openRun_run env options (volumeNameOf options)
              (fileOf env options node w) w) as (E0 & _).
  set (w0 := snd (openRun env options _ _ w)) in E0. clearbody w0.
  match type of E0 with
  | _ = (Ok ?i, _) =>
      destruct (total_run
                  (backupLog i info
                     ("Starting backup: " +:+ fileOf env options node w)) w0)
        as (u1 & E1); [total_walk|];
      set (w1 := snd (backupLog i info _ w0)) in E1; clearbody w1;
      destruct (total_run (backupRepo_updateProgress i 5) w1) as (u2 & E2);
        [total_walk|];
      set (w2 := snd (backupRepo_updateProgress i 5 w1)) in E2; clearbody w2;
      destruct (total_run
                  (sendWebhook wh_info "Backup Started"
                     ("**" +:+ n_name node +:+ "** - "
                      +:+ volumeNameOf options)
                     [("Storage Type", storage_name (o_storageType options))])
                  w2) as (u3 & E3); [total_walk|];
      set (w3 := snd (sendWebhook _ _ _ _ w2)) in E3; clearbody w3
  end.
  exists w3. split.
  - unfold opening. rewrite bind_run, E0, bind_run, E1, bind_run, E2.
    rewrite bind_run, E3. reflexivity.
  - unfold createBackup.
    rewrite bind_run. cbn [now]. cbv zeta. rewrite bind_run.
    unfold nodeRepo_getById at 1. rewrite Hfind.
    fold (volumeNameOf options). fold (fileOf env options node w).
    rewrite bind_run, E0, bind_run, E1, bind_run, E2, bind_run, E3.
    reflexivity.
Qed.

Lemma notices_app (x y : list Event) :
  notices (x ++ y) = notices x ++ notices y.
Proof. unfold notices. apply flat_map_app. Qed.

Lemma hushed_refl (w : World) : hushed w w.
Proof. split; [reflexivity|]. now apply appended_refl. Qed.

Lemma hushed_trans (a b c : World) : hushed a b -> hushed b c -> hushed a c.
Proof.
  intros [S1 T1] [S2 T2]. split; [congruence|].
  eapply appended_trans; eauto.
  intros x y Hx Hy. now rewrite notices_app, Hx, Hy.
Qed.

Ltac hushed_leaf :=
  unfold hushed, appended; simpl; split; [reflexivity|];
  first
    [ exists []; split; [now rewrite app_nil_r | reflexivity]
    | eexists; split; [reflexivity | reflexivity] ].

Ltac hushed_walk := rel_walk hushed_refl hushed_trans hushed_leaf.

Lemma hushed_waitOffline (env : Env) (v : string) (j : nat) :
  rel hushed (waitOffline env v j).
Proof. induction j as [|j IH]; simpl; hushed_walk. Qed.

Lemma hushed_forVolumes (env : Env) (i : Z) (vp td : string) (n k : nat)
    (vols : list string) :
  rel hushed (forVolumes env i vp td n k vols).
Proof.
  pose proof (hushed_waitOffline env) as W.
  revert k. induction vols as [|v vols IH]; intros k; simpl; hushed_walk.
Qed.

Section Notifications.
Variables (env : Env) (s0 : gmap string string) (t0 : list Event).

Lemma notified_hushed (k : list (WebhookType * string)) (w w' : World) :
  notified s0 t0 k w -> hushed w w' -> notified s0 t0 k w'.
Proof.
  intros (S & evs & T & N) (S' & evs' & T' & N').
  split; [congruence|]. exists (evs ++ evs').
  rewrite T', T, app_assoc, notices_app, N, N', app_nil_r. auto.
Qed.

Lemma hushed_step {A} (k : list (WebhookType * string)) (m : M A) :
  rel hushed m ->
  triple (notified s0 t0 k) m (fun _ => notified s0 t0 k)
    (fun _ => notified s0 t0 k).
Proof. intros H. eapply triple_rel; [exact H | apply notified_hushed]. Qed.

Lemma sendWebhook_step (k : list (WebhookType * string))
    (kind : WebhookType) (title d : string) (f : list (string * string))
    (E : string -> World -> Prop) :
  triple (notified s0 t0 k) (sendWebhook kind title d f)
    (fun _ => notified s0 t0 (k ++ notice s0 kind title)) E.
Proof.
  intros w (S & evs & T & N). unfold sendWebhook, notice. monad_red.
  rewrite S. destruct (Js.truthy (s0 !! "discord_webhook_url")).
  - split; [exact S|]. exists (evs ++ [EWebhook kind title d f]).
    cbn [trace]. rewrite T, app_assoc, notices_app, N. auto.
  - split; [exact S|]. exists evs. rewrite app_nil_r. auto.
Qed.

Lemma notified_pipeline (k : list (WebhookType * string))
    (options : BackupOptions) (node : Node) (volumeName file : string)
    (i startTime : Z) :
  triple (notified s0 t0 k)
    (pipeline env options node volumeName file i startTime)
    (fun _ => notified s0 t0 (k ++ notice s0 wh_success "Backup Completed"))
    (fun _ => notified s0 t0 k).
Proof.
  pose proof (hushed_forVolumes env) as F.
  unfold pipeline.
  repeat (cbv zeta;
          lazymatch goal with
          | |- triple _ (sendWebhook _ _ _ _ ≫= _) _ _ => fail
          | |- _ =>
              eapply triple_bind;
              [apply hushed_step; solve [hushed_walk] | intros ?]
          end).
  eapply triple_bind; [apply sendWebhook_step|]. intros ?.
  intros w H. exact H.
Qed.

Lemma hushed_total_step {A} (k : list (WebhookType * string)) (m : M A)
    (E : string -> World -> Prop) :
  rel hushed m -> total m ->
  triple (notified s0 t0 k) m (fun _ => notified s0 t0 k) E.
Proof.
  intros H T. eapply triple_conseq;
    [eapply triple_rel_total; [exact H | exact T | apply notified_hushed]
    | intros ? P; exact P | intros ? ? Q; exact Q | intros ? ? []].
Qed.

Lemma notified_onFailure (k : list (WebhookType * string)) (node : Node)
    (volumeName : string) (i : Z) (msg : string) :
  triple (notified s0 t0 k) (onFailure node volumeName i msg)
    (fun _ _ => False)
    (fun _ => notified s0 t0 (k ++ notice s0 wh_error "Backup Failed")).
Proof.
  unfold onFailure.
  eapply triple_bind;
    [apply hushed_total_step; [hushed_walk | total_walk] | intros ?].
  eapply triple_bind;
    [apply hushed_total_step; [hushed_walk | total_walk] | intros ?].
  eapply triple_bind; [apply sendWebhook_step | intros ?].
  intros w H. exact H.
Qed.

Lemma notified_opening (k : list (WebhookType * string))
    (options : BackupOptions) (node : Node) (volumeName file : string)
    (E : string -> World -> Prop) :
  triple (notified s0 t0 k) (opening env options node volumeName file)
    (fun _ => notified s0 t0 (k ++ notice s0 wh_info "Backup Started")) E.
Proof.
  unfold opening.
  eapply triple_bind.
  { apply hushed_total_step.
    - unfold openRun. hushed_walk.
    - unfold openRun, backupRepo_create. total_walk. }
  intros ?.
  eapply triple_bind;
    [apply hushed_total_step; [hushed_walk | total_walk] | intros ?].
  eapply triple_bind;
    [apply hushed_total_step; [hushed_walk | total_walk] | intros ?].
  eapply triple_bind; [apply sendWebhook_step | intros ?].
  intros w H. exact H.
Qed.

End Notifications.

(** X24.  A run that has found its node, under a record that it creates
    or that exists, sends two notifications when a webhook is configured:
    the one that announces it, and at its end one that matches its
    outcome, [Backup Completed] when it returns and [Backup Failed] when
    it throws.  Without a webhook it sends none. *)
Theorem run_is_announced_and_closed_once (env : Env)
    (options : BackupOptions) (w : World) :
  is_Some (List.find (fun n => n_id n =? o_nodeId options) (nodes w)) ->
  record_known options w ->
  notices (newEvents w (snd (createBackup env options w)))
  = if Js.truthy (settings w !! "discord_webhook_url")
    then [(wh_info, "Backup Started");
          closing_notice (fst (createBackup env options w))]
    else [].
Proof.
  intros [node Hfind] _.
  destruct (createBackup_opening env options w node Hfind) as (w1 & O & E).
  rewrite E, tryCatch_run.
  assert (N0 : notified (settings w) (trace w) [] w).
  { split; [reflexivity|]. exists []. now rewrite app_nil_r. }
  pose proof (notified_opening env (settings w) (trace w) [] options node
                (volumeNameOf options) (fileOf env options node w)
                (fun _ _ => True) w N0) as N1.
  rewrite O in N1. cbn [app] in N1.
  pose proof (notified_pipeline env (settings w) (trace w) _ options node
                (volumeNameOf options) (fileOf env options node w)
                (runId options w) (date_now env (length (trace w))) w1 N1)
    as N2.
  destruct (pipeline _ _ _ _ _ _ _ w1) as [[a|e] w2].
  - destruct N2 as (_ & evs & T & N). cbn [fst snd].
    unfold newEvents. rewrite T, drop_app_length, N. unfold notice.
    now destruct (Js.truthy _).
  - pose proof (notified_onFailure (settings w) (trace w) _ node
                  (volumeNameOf options) (runId options w) e w2 N2) as N3.
    destruct (onFailure_run node (volumeNameOf options) (runId options w)
                e w2) as (F & _).
    destruct (onFailure _ _ _ _ w2) as [[a|e'] w3]; [contradiction|].
    destruct N3 as (_ & evs & T & N). cbn [fst snd].
    unfold newEvents. rewrite T, drop_app_length, N. unfold notice.
    now destruct (Js.truthy _).
Qed.


Lemma run_is_announced_and_closed_once_witness :
  notices
    (newEvents Scenario.with_webhook
       (snd (createBackup Scenario.upload_fails Scenario.all_volumes_to_local
               Scenario.with_webhook)))
  = [(wh_info, "Backup Started"); (wh_error, "Backup Failed")].
Proof.
  rewrite (run_is_announced_and_closed_once Scenario.upload_fails
             Scenario.all_volumes_to_local Scenario.with_webhook);
    [reflexivity | eexists; reflexivity | left; reflexivity].
Defined.

Lemma logged_for_refl (i : Z) (w : World) : logged_for i w w.
Proof. exists []. rewrite app_nil_r. auto. Qed.

Lemma logged_for_trans (i : Z) (a b c : World) :
  logged_for i a b -> logged_for i b c -> logged_for i a c.
Proof.
  intros (l1 & E1 & F1) (l2 & E2 & F2). exists (l1 ++ l2).
  rewrite E2, E1, app_assoc. split; [reflexivity|].
  apply Forall_app. auto.
Qed.

Ltac logged_leaf :=
  unfold logged_for; simpl;
  first
    [ exists []; split; [now rewrite app_nil_r | constructor]
    | eexists; split; [reflexivity | repeat constructor] ].

Ltac logged_walk i :=
  rel_walk (logged_for_refl i) (logged_for_trans i) logged_leaf.

Lemma logged_waitOffline (env : Env) (i : Z) (v : string) (j : nat) :
  rel (logged_for i) (waitOffline env v j).
Proof. induction j as [|j IH]; simpl; logged_walk i. Qed.

Lemma logged_forVolumes (env : Env) (i : Z) (vp td : string) (n k : nat)
    (vols : list string) :
  rel (logged_for i) (forVolumes env i vp td n k vols).
Proof.
  pose proof (logged_waitOffline env i) as W.
  revert k. induction vols as [|v vols IH]; intros k; simpl; logged_walk i.
Qed.

Lemma logged_pipeline (env : Env) (options : BackupOptions) (node : Node)
    (volumeName file : string) (i startTime : Z) :
  rel (logged_for i) (pipeline env options node volumeName file i startTime).
Proof.
  pose proof (logged_forVolumes env i) as F. logged_walk i.
Qed.

Lemma logged_onFailure (node : Node) (volumeName : string) (i : Z)
    (msg : string) :
  rel (logged_for i) (onFailure node volumeName i msg).
Proof. logged_walk i. Qed.

Lemma logged_opening (env : Env) (options : BackupOptions) (node : Node)
    (volumeName file : string) (w : World) :
  logged_for (runId options w) w
    (snd (opening env options node volumeName file w)).
Proof.
  unfold opening. rewrite bind_run.
  destruct (openRun_run env options volumeName file w) as (E0 & _).
  assert (L0 : backup_logs (snd (openRun env options volumeName file w))
               = backup_logs w).
  { unfold openRun.
    destruct (o_backupId options) as [i|]; [destruct (negb (i =? 0))|];
      reflexivity. }
  rewrite E0. set (w0 := snd (openRun env options volumeName file w)) in *.
  clearbody w0.
  match goal with
  | |- logged_for ?i _ (snd (?k w0)) =>
      assert (R : rel (logged_for i) k) by logged_walk i;
      destruct (R w0) as (l & E & F)
  end.
  exists l. rewrite E, L0. auto.
Qed.

(** X25.  A run writes log entries under its own id only: the entries that
    were there stay, in place, and every entry added by the run carries the id
    of the run. *)
Theorem run_logs_under_its_own_id (env : Env) (options : BackupOptions)
    (w : World) :
  is_Some (List.find (fun n => n_id n =? o_nodeId options) (nodes w)) ->
  exists l,
    backup_logs (snd (createBackup env options w)) = backup_logs w ++ l
    /\ Forall (fun r => fst (fst r) = runId options w) l.
Proof.
  intros [node Hfind].
  destruct (createBackup_opening env options w node Hfind) as (w1 & O & E).
  pose proof (logged_opening env options node (volumeNameOf options)
                (fileOf env options node w) w) as L1.
  rewrite O in L1. cbn [snd] in L1.
  rewrite E.
  assert (R : rel (logged_for (runId options w))
                (tryCatch
                   (pipeline env options node (volumeNameOf options)
                      (fileOf env options node w) (runId options w)
                      (date_now env (length (trace w))))
                   (onFailure node (volumeNameOf options)
                      (runId options w)))).
  { apply rel_tryCatch;
      [apply logged_for_trans | apply logged_pipeline
      | intros e; apply logged_onFailure]. }
  exact (logged_for_trans _ _ _ _ L1 (R w1)).
Qed.


Lemma run_logs_under_its_own_id_witness :
  exists l,
    backup_logs
      (snd (createBackup Scenario.v1_fails Scenario.all_volumes_to_local
              Scenario.two_finished))
    = backup_logs Scenario.two_finished ++ l
    /\ Forall (fun r => fst (fst r) = 3) l.
Proof.
  apply (run_logs_under_its_own_id Scenario.v1_fails
           Scenario.all_volumes_to_local Scenario.two_finished).
  eexists. reflexivity.
Defined.

(** * Sizes for display *)

(** X26.  [formatSize] shows a size in the largest unit, up to TB, in which it
    is at least 1: the unit with index [i] is chosen exactly when the size is
    at least [1024^i] and, below TB, less than [1024^(i+1)], and the number
    shown is the size divided by [1024^i], with two decimal places.  Sizes
    below 1024 are shown in bytes. *)
Theorem formatSize_picks_the_unit (bytes : Z) :
  exists i,
    (i <= 4)%nat
    /\ Format.formatSize bytes
       = Format.toFixed 2 bytes (Z.to_pos (1024 ^ Z.of_nat i)) +:+ " "
         +:+ nth i Format.units ""
    /\ ((0 < i)%nat -> 1024 ^ Z.of_nat i <= bytes)
    /\ ((i < 4)%nat -> bytes < 1024 ^ (Z.of_nat i + 1)).
Proof.
  unfold Format.formatSize. cbn [Format.scale].
  repeat match goal with
         | |- context [?a <=? ?b] => destruct (Z.leb_spec a b)
         end;
    [exists 4%nat | exists 3%nat | exists 2%nat | exists 1%nat | exists 0%nat];
    (split; [lia|]); (split; [reflexivity|]);
    (split; intros ?); cbn in *; lia.
Qed.

(** Some sizes as they are shown. *)
Example sizes_as_shown :
  map Format.formatSize [0; 1023; 1024; 1536; 1048575; 5368709120;
                         1125899906842624 * 2048]
  = ["0.00 B"; "1023.00 B"; "1.00 KB"; "1.50 KB"; "1024.00 KB"; "5.00 GB";
     "2097152.00 TB"].
Proof. vm_compute. reflexivity. Qed.
